(** * GraphRepo: the static dependency driller ([graphrepo/drillers/deps.py])

    A shallow embedding of [DependencyDriller]: the tree scanner, the import
    extractor, the import resolver, the keyword extractor and the [run]
    orchestration, together with the parts of Python's [str], [pathlib] and
    [re] that the driller calls.

    Conventions.
    - A Python [str] is a Rocq [string]; a character stands for the code
      point of the same number (0 to 255).
    - A [pathlib.Path] is a [PurePath] of the POSIX flavour with the
      semantics of CPython 3.8 to 3.13.
    - A call that can raise returns a [result].
    - Collaborators outside [deps.py] (the graph store, the hashing helper,
      the grammar library, [pathspec], the file system) are fields of an
      environment record or arguments.
    - The graph store and the hashing helper are taken in the executions in
      which their calls return; a failure of theirs is not part of the
      embedding.

    The module [Categories] embeds [CategoryManager]
    ([graphrepo/drillers/categories.py]) in the same way, with the writes
    to the graph store kept in a log. *)

From Stdlib Require Import Ascii Lia.
From stdpp Require Import base option list gmap sets strings.

Set Warnings "-register-all".


(** ** Exceptions *)

Inductive exn : Type :=
  | ValueError
  | OSError
  | KeyError.

Inductive result (A : Type) : Type :=
  | Ok (a : A)
  | Raise (e : exn).

Arguments Ok {A} a.
Arguments Raise {A} e.

(** A [for] loop whose body can raise: the state after the last iteration,
    or the first exception. *)
Fixpoint for_each {A S : Type} (body : S → A → result S) (st : S) (l : list A)
    : result S :=
  match l with
  | [] => Ok st
  | x :: l' =>
      match body st x with
      | Ok st' => for_each body st' l'
      | Raise e => Raise e
      end
  end.

Global Instance result_ret : MRet result := fun A a => Ok a.

Global Instance result_bind : MBind result := fun A B k r =>
  match r with
  | Ok a => k a
  | Raise e => Raise e
  end.

(** ** Python [str] *)

Module PyStr.

Definition code (c : ascii) : nat := nat_of_ascii c.

Definition between (lo hi : nat) (c : ascii) : bool :=
  (lo <=? code c) && (code c <=? hi).

(** [str.isspace] on one character, which is also what [\s] matches. *)
Definition is_space (c : ascii) : bool :=
  between 9 13 c || between 28 32 c || (code c =? 133) || (code c =? 160).

(** The characters the resolver strips: double and single quote. *)
Definition is_quote (c : ascii) : bool :=
  (code c =? 34) || (code c =? 39).

(** The characters the extractors strip: both quotes and the backtick. *)
Definition is_quote_or_backtick (c : ascii) : bool :=
  is_quote c || (code c =? 96).

Definition is_upper (c : ascii) : bool :=
  between 65 90 c || (between 192 222 c && negb (code c =? 215)).

Definition lower_char (c : ascii) : ascii :=
  if is_upper c then ascii_of_nat (code c + 32) else c.

(** [s.lower()] *)
Fixpoint lower (s : string) : string :=
  match s with
  | EmptyString => EmptyString
  | String c s' => String (lower_char c) (lower s')
  end.

(** [s.startswith(p)] *)
Fixpoint startswith (p s : string) : bool :=
  match p, s with
  | EmptyString, _ => true
  | String a p', String b s' => if decide (a = b) then startswith p' s' else false
  | String _ _, EmptyString => false
  end.

(** [c in s] for a one-character [c] *)
Fixpoint contains (c : ascii) (s : string) : bool :=
  match s with
  | EmptyString => false
  | String a s' => if decide (a = c) then true else contains c s'
  end.

(** [s.replace(a, b)] for one-character [a] and [b] *)
Fixpoint replace (a b : ascii) (s : string) : string :=
  match s with
  | EmptyString => EmptyString
  | String c s' => String (if decide (c = a) then b else c) (replace a b s')
  end.

Fixpoint lstrip (P : ascii → bool) (s : string) : string :=
  match s with
  | EmptyString => EmptyString
  | String c s' => if P c then lstrip P s' else s
  end.

Fixpoint rstrip (P : ascii → bool) (s : string) : string :=
  match s with
  | EmptyString => EmptyString
  | String c s' =>
      match rstrip P s' with
      | EmptyString => if P c then EmptyString else String c EmptyString
      | r => String c r
      end
  end.

(** [s.strip(chars)], the set [chars] given as a predicate *)
Definition strip (P : ascii → bool) (s : string) : string :=
  rstrip P (lstrip P s).

(** [s[1:]] *)
Definition drop1 (s : string) : string :=
  match s with
  | EmptyString => EmptyString
  | String _ s' => s'
  end.

(** [s[:n]] *)
Fixpoint slice_to (n : nat) (s : string) : string :=
  match n, s with
  | S n', String c s' => String c (slice_to n' s')
  | _, _ => EmptyString
  end.

(** [s[n:]] *)
Fixpoint slice_from (n : nat) (s : string) : string :=
  match n, s with
  | S n', String _ s' => slice_from n' s'
  | _, _ => s
  end.

(** [s.split(sep)] for a one-character [sep]; never the empty list *)
Fixpoint split (sep : ascii) (s : string) : list string :=
  match s with
  | EmptyString => [EmptyString]
  | String c s' =>
      if decide (c = sep) then EmptyString :: split sep s'
      else match split sep s' with
           | h :: t => String c h :: t
           | [] => [String c EmptyString]
           end
  end.

(** [sep.join(l)] *)
Fixpoint join (sep : string) (l : list string) : string :=
  match l with
  | [] => EmptyString
  | [x] => x
  | x :: l' => x +:+ sep +:+ join sep l'
  end.

End PyStr.

(** ** [pathlib]: pure POSIX paths *)

Module Pathlib.
Import PyStr.

(** A parsed path: the root ([""], ["/"] or ["//"]) and the components
    after it, none of them empty or ["."]. *)
Record PurePath : Type := mkPath {
  root : string;
  tail : list string
}.

Definition slash : ascii := "/"%char.
Definition dot : ascii := "."%char.

(** [splitroot]: exactly two leading slashes are kept as the root ["//"],
    any other number collapses to ["/"]. *)
Definition root_of (s : string) : string :=
  match s with
  | String a (String b (String c _)) =>
      if decide (a = slash) then
        if decide (b = slash) then
          if decide (c = slash) then "/" else "//"
        else "/"
      else ""
  | String a (String b EmptyString) =>
      if decide (a = slash) then
        if decide (b = slash) then "//" else "/"
      else ""
  | String a EmptyString => if decide (a = slash) then "/" else ""
  | EmptyString => ""
  end.

Definition is_component (x : string) : bool :=
  negb (bool_decide (x = "")) && negb (bool_decide (x = ".")).

Definition components (s : string) : list string :=
  filter (fun x => is_component x = true) (split slash s).

(** [Path(s)] *)
Definition Path (s : string) : PurePath :=
  {| root := root_of s; tail := components s |}.

(** [p / s]: a rooted right operand replaces the left one *)
Definition joinpath (p : PurePath) (s : string) : PurePath :=
  if decide (root_of s = "") then
    {| root := root p; tail := tail p ++ components s |}
  else Path s.

(** [Path(a, b)] *)
Definition Path2 (a b : string) : PurePath := joinpath (Path a) b.

(** [p.as_posix()], which is [str(p)] for this flavour *)
Definition as_posix (p : PurePath) : string :=
  match root p, tail p with
  | EmptyString, [] => "."
  | r, t => r +:+ join "/" t
  end.

(** [p.parent] *)
Definition parent (p : PurePath) : PurePath :=
  match tail p with
  | [] => p
  | t => {| root := root p; tail := removelast t |}
  end.

(** [p.name] *)
Definition name (p : PurePath) : string := List.last (tail p) "".

(** [(s[:i], s[i:])] for [i = s.rfind(".")], when there is a dot *)
Fixpoint rpartition_dot (s : string) : option (string * string) :=
  match s with
  | EmptyString => None
  | String c s' =>
      match rpartition_dot s' with
      | Some (a, b) => Some (String c a, b)
      | None => if decide (c = dot) then Some (EmptyString, s) else None
      end
  end.

(** The suffix of a final component: from the last dot, provided the dot
    is neither the first nor the last character. *)
Definition suffix_of (nm : string) : string :=
  match rpartition_dot nm with
  | Some (String _ _, (String _ (String _ _)) as suf) => suf
  | _ => ""
  end.

Definition stem_of (nm : string) : string :=
  match rpartition_dot nm with
  | Some ((String _ _) as st, String _ (String _ _)) => st
  | _ => nm
  end.

(** [p.suffix] *)
Definition suffix (p : PurePath) : string := suffix_of (name p).

(** [p.with_suffix(suf)] for a well-formed [suf] (a dot and at least one
    more character): [ValueError] when the path has an empty name. *)
Definition with_suffix (p : PurePath) (suf : string) : result PurePath :=
  match name p with
  | EmptyString => Raise ValueError
  | nm => Ok {| root := root p;
                tail := removelast (tail p) ++ [stem_of nm +:+ suf] |}
  end.

(** What every path built by the functions above satisfies: one of the
    three roots, and no slash inside a component. *)
Definition well_formed (p : PurePath) : Prop :=
  (root p = "" ∨ root p = "/" ∨ root p = "//")
  ∧ Forall (λ x, contains slash x = false) (tail p).

End Pathlib.


(** ** [re]: the five patterns the driller uses *)

Module PyRe.
Import PyStr.

(** The character class of the path splitter: backslash, slash, dot,
    underscore and hyphen. *)
Definition is_path_punct (c : ascii) : bool :=
  (code c =? 92) || (code c =? 47) || (code c =? 46) || (code c =? 95)
  || (code c =? 45).

(** [re.split(P+, s)]: split at every maximal run of characters of the
    class; a run at either end leaves an empty string there. *)
Fixpoint split_runs (P : ascii → bool) (after_run : bool) (s : string)
    : list string :=
  match s with
  | EmptyString => [EmptyString]
  | String c s' =>
      if P c then
        if after_run then split_runs P true s'
        else EmptyString :: split_runs P true s'
      else match split_runs P false s' with
           | h :: t => String c h :: t
           | [] => [String c EmptyString]
           end
  end.

Definition split_path_punct (s : string) : list string :=
  split_runs is_path_punct false s.

(** [[A-Za-z_]] and [[A-Za-z0-9_]] *)
Definition is_ident_start (c : ascii) : bool :=
  between 65 90 c || between 97 122 c || (code c =? 95).

Definition is_ident_char (c : ascii) : bool :=
  is_ident_start c || between 48 57 c.

(** The longest prefix whose characters satisfy [P], and the rest. *)
Fixpoint span (P : ascii → bool) (s : string) : string * string :=
  match s with
  | EmptyString => (EmptyString, EmptyString)
  | String c s' =>
      if P c then let '(a, b) := span P s' in (String c a, b)
      else (EmptyString, s)
  end.

(** An identifier pattern: a keyword, [\s+], the captured identifier
    and, for the const form, [\s*=]. *)
Record IdentPattern : Type := mkIdentPattern {
  keyword : string;
  assignment : bool
}.

(** A match of the pattern at the start of [s]: the captured group and
    the length of the whole match. Every quantifier is greedy and none
    can give back a character to a later part of the pattern, so the
    match is found without backtracking. *)
Definition match_at (pat : IdentPattern) (s : string) : option (string * nat) :=
  if startswith (keyword pat) s then
    let '(ws, r1) := span is_space (slice_from (String.length (keyword pat)) s) in
    match ws, r1 with
    | String _ _, String c _ =>
        if is_ident_start c then
          let '(ident, r2) := span is_ident_char r1 in
          let n := String.length (keyword pat) + String.length ws
                   + String.length ident in
          if assignment pat then
            let '(ws2, r3) := span is_space r2 in
            match r3 with
            | String e _ =>
                if code e =? 61 then Some (ident, n + String.length ws2 + 1)
                else None
            | EmptyString => None
            end
          else Some (ident, n)
        else None
    | _, _ => None
    end
  else None.

(** [re.findall(pat, s)]: the groups of the successive non-overlapping
    matches, scanning from the left; [skip] counts the characters of the
    previous match still to pass. *)
Fixpoint findall_from (pat : IdentPattern) (skip : nat) (s : string)
    : list string :=
  match s with
  | EmptyString => []
  | String _ s' =>
      match skip with
      | S k => findall_from pat k s'
      | O =>
          match match_at pat s with
          | Some (ident, n) => ident :: findall_from pat (n - 1) s'
          | None => findall_from pat 0 s'
          end
      end
  end.

Definition findall (pat : IdentPattern) (s : string) : list string :=
  findall_from pat 0 s.

End PyRe.

(** * [graphrepo/drillers/deps.py] *)

Import PyStr Pathlib PyRe.

Definition SUPPORTED_IMPORT_EXTS : gset string :=
  {[ ".js"; ".jsx"; ".ts"; ".tsx"; ".mjs"; ".cjs"; ".php" ]}.

(** A set in the source, listed here in the order it is written: it is
    only iterated to build the default lines of the ignore spec. *)
Definition DEFAULT_IGNORES : list string :=
  [ ".git"; ".hg"; ".svn"; ".venv"; "node_modules"; "dist"; "build";
    "__pycache__"; ".cache" ].

Definition STOPWORDS : gset string :=
  {[ ""; "src"; "app"; "apps"; "lib"; "dist"; "build"; "index"; "test";
     "tests"; "spec"; "tmp"; "public"; "assets"; "vendor"; "data"; "static" ]}.

Definition KEYWORD_LIMIT : nat := 20.

Record WorkingFile : Type := mkWorkingFile {
  rel_path : string;
  abs_path : PurePath;
  ext : string
}.

(** ** The import resolver *)

(** The extension tuple that [_candidate_paths] iterates twice. *)
Definition candidate_exts : list string :=
  [ ".ts"; ".tsx"; ".js"; ".jsx"; ".mjs"; ".cjs"; ".php" ].

Definition _candidate_paths (rel_path : string) : list string :=
  let path_obj := Path rel_path in
  if decide (suffix path_obj = "") then
    ((fun e => rel_path +:+ e) <$> candidate_exts)
    ++ ((fun e => as_posix (Path2 rel_path ("index" +:+ e))) <$> candidate_exts)
  else [as_posix path_obj].

(** [for cand in candidates: if cand in known_paths: return cand] *)
Definition first_known (candidates : list string) (known_paths : gset string)
    : option string :=
  List.find (fun cand => bool_decide (cand ∈ known_paths)) candidates.

Definition backslash : ascii := "\"%char.

(** The candidates of the PHP namespace heuristic; building the list
    evaluates [with_suffix] and may raise. *)
Definition php_candidates (cleaned : string) : result (list string) :=
  let php_guess := Path (replace backslash slash cleaned) in
  first ← with_suffix php_guess ".php";
  mret [as_posix first; as_posix (joinpath php_guess "index.php")].

Definition php_heuristic_applies (importer : WorkingFile) (cleaned : string) : bool :=
  bool_decide (ext importer = ".php")
  && contains backslash cleaned
  && negb (startswith "./" cleaned || startswith "/" cleaned).

(** The base candidate path of the general resolution, before it is
    printed. *)
Definition base_candidate (importer : WorkingFile) (cleaned : string) : PurePath :=
  let rel_candidate := if startswith "/" cleaned then drop1 cleaned else cleaned in
  let importer_dir := parent (Path (rel_path importer)) in
  let importer_dir :=
    if decide (as_posix importer_dir = ".") then Path "" else importer_dir in
  joinpath importer_dir rel_candidate.

Definition base_path (importer : WorkingFile) (cleaned : string) : string :=
  as_posix (base_candidate importer cleaned).

Definition clean (target : string) : string :=
  strip is_quote (strip is_space target).

Definition _resolve_target (importer : WorkingFile) (target : string)
    (known_paths : gset string) : result (option string) :=
  if decide (target = "") then mret None
  else if startswith "http://" target || startswith "https://" target then mret None
  else
    let cleaned := clean target in
    if decide (cleaned = "") then mret None
    else
      php ← (if php_heuristic_applies importer cleaned then
               candidates ← php_candidates cleaned;
               mret (first_known candidates known_paths)
             else mret None);
      match php with
      | Some cand_posix => mret (Some cand_posix)
      | None =>
          mret (first_known (_candidate_paths (base_path importer cleaned)) known_paths)
      end.

(** ** Collaborators *)

(** [pathspec]: a compiled pattern. [include] is [None] for a blank or
    comment line, [Some false] for a negation; [matches] is the compiled
    regular expression applied to the path as the library normalises it. *)
Record Pattern : Type := mkPattern {
  include : option bool;
  matches : string → bool
}.

(** [PathSpec.match_file]: the last pattern that matches decides. *)
Definition match_file (patterns : list Pattern) (file : string) : bool :=
  foldl (fun out p =>
           match include p with
           | Some inc => if matches p file then inc else out
           | None => out
           end) false patterns.

(** A syntax-tree node of the grammar library. *)
Inductive Node : Type :=
  | mkNode (type : string) (start_byte end_byte : nat) (children : list Node).

Definition type (n : Node) : string := let 'mkNode t _ _ _ := n in t.
Definition start_byte (n : Node) : nat := let 'mkNode _ s _ _ := n in s.
Definition end_byte (n : Node) : nat := let 'mkNode _ _ e _ := n in e.
Definition children (n : Node) : list Node := let 'mkNode _ _ _ c := n in c.

(** [parser.parse(code).root_node] *)
Definition Parser : Type := string → result Node.

Record Hashes : Type := mkHashes {
  merge_hash : string;
  hash : string
}.

(** The rows handed to the batch operations of the store. *)
Record ImportEdge : Type := mkImportEdge {
  src_merge_hash : string;
  src_hash : string;
  dst_merge_hash : string;
  dst_hash : string
}.

Record KeywordRow : Type := mkKeywordRow {
  kw_merge_hash : string;
  kw_hash : string;
  keywords : list string
}.

(** The calls of [run] to [batch_utils], in order. *)
Inductive StoreCall : Type :=
  | set_file_keywords (rows : list KeywordRow)
  | index_imports (rows : list ImportEdge).

(** The dictionary that [run] returns. *)
Record Summary : Type := mkSummary {
  imports : nat;
  keyworded_files : nat
}.

(** The local variables of [run] that its loops update; [import_keys] is
    the set that the source calls [imports]. *)
Record RunState : Type := mkRunState {
  file_hashes : gmap string Hashes;
  import_keys : gset (string * string);
  relations : list ImportEdge;
  keywords_rows : list KeywordRow
}.

(** A directory listing: the file names and the sub-directories. *)
Inductive Entry : Type :=
  | File (name : string)
  | Dir (name : string) (entries : list Entry).

(** A row of the query of [_load_known_files]. *)
Record FileRow : Type := mkFileRow {
  row_merge_hash : option string;
  row_hash : string
}.

Record Env : Type := mkEnv {
  (** [utl.get_path_hashes(path, project_id)] for the driller's project *)
  get_path_hashes : string → Hashes;
  (** [grep_ast.filename_to_lang] *)
  filename_to_lang : string → option string;
  (** [grep_ast.tsl.get_language] and [get_parser] *)
  get_language : string → result unit;
  get_parser : string → result Parser;
  (** [bytes.decode] with the utf-8 codec, errors ignored *)
  decode_utf8 : string → string;
  (** [Path.read_bytes] and [Path.read_text] *)
  read_bytes : PurePath → result string;
  read_text : PurePath → result string;
  (** [GitWildMatchPattern]: the compilation of one line *)
  gitwildmatch : string → Pattern;
  (** the working tree under the repository root *)
  working_tree : list Entry;
  (** the [File] nodes of the project in the graph store *)
  file_rows : list FileRow;
  (** the lines of the repository's [.gitignore], when it exists *)
  gitignore : option (list string)
}.

(** The two fields of the driller that [run] reads. *)
Record DependencyDriller : Type := mkDriller {
  repo_root : PurePath;
  ignore_spec : list Pattern
}.

Section Driller.

Context (env : Env).

(** ** The ignore rules and the tree scanner *)

(** [ignore_file] is the content of the extra ignore file: [None] when
    no path was given or the file does not exist. *)
Definition _build_ignore_spec (ignore_file : option (list string))
    : list Pattern :=
  let default_lines := ((fun p => p +:+ "/") <$> DEFAULT_IGNORES) ++ DEFAULT_IGNORES in
  let lines := default_lines in
  let lines := lines ++ default [] (gitignore env) in
  let lines := lines ++ default [] ignore_file in
  gitwildmatch env <$> lines.

Context (self : DependencyDriller).

Definition _should_ignore (rel_path : string) : bool :=
  match_file (ignore_spec self) rel_path.

(** [os.path.relpath(dirpath, repo_root)] for a directory reached from
    the root through [rel]. *)
Definition relpath (rel : list string) : string :=
  match rel with
  | [] => "."
  | _ => join "/" rel
  end.

(** The files that one step of [os.walk] yields for a directory. *)
Definition scan_files (dirpath : PurePath) (rel_dir : string)
    (listing : list Entry) : list WorkingFile :=
  e ← listing;
  match e with
  | Dir _ _ => []
  | File filename =>
      let rel_path := as_posix (Path2 rel_dir filename) in
      if _should_ignore rel_path then []
      else
        let ext := suffix (Path filename) in
        if decide (lower ext ∈ SUPPORTED_IMPORT_EXTS) then
          [ {| rel_path := rel_path;
               abs_path := joinpath dirpath filename;
               ext := lower ext |} ]
        else []
  end.

(** [os.walk] from the directory [e], top-down, with the pruning of the
    ignored sub-directories. *)
Fixpoint walk (dirpath : PurePath) (rel : list string) (e : Entry)
    : list WorkingFile :=
  match e with
  | File _ => []
  | Dir _ listing =>
      let rel_dir := relpath rel in
      let rel_dir := if decide (rel_dir = ".") then "" else rel_dir in
      scan_files dirpath rel_dir listing
      ++ flat_map (fun sub =>
           match sub with
           | File _ => []
           | Dir d _ =>
               if _should_ignore (as_posix (Path2 rel_dir d)) then []
               else walk (joinpath dirpath d) (rel ++ [d]) sub
           end) listing
  end.

Definition _iter_working_files : list WorkingFile :=
  walk (repo_root self) [] (Dir "" (working_tree env)).

Definition _load_known_files : gmap string string :=
  foldl (fun m row =>
           match row_merge_hash row with
           | Some mh => if decide (mh = "") then m else <[mh := row_hash row]> m
           | None => m
           end) ∅ (file_rows env).

(** ** The import extractor *)

Definition _node_text (node : Node) (code : string) : string :=
  decode_utf8 env
    (slice_to (end_byte node - start_byte node) (slice_from (start_byte node) code)).

(** The stripped texts of the children of type [string]. *)
Definition string_children (node : Node) (code_bytes : string) : list string :=
  child ← children node;
  if decide (type child = "string")
  then [strip is_quote_or_backtick (_node_text child code_bytes)]
  else [].

(** What the walker appends at one JavaScript or TypeScript node. *)
Definition js_like_imports_at (node : Node) (code_bytes : string) : list string :=
  if decide (type node = "import_statement") then string_children node code_bytes
  else if decide (type node = "call_expression") then
    match children node with
    | callee :: _ =>
        if decide (type callee = "identifier") then
          if decide (_node_text callee code_bytes = "require") then
            child ← children node;
            if decide (type child = "arguments")
            then string_children child code_bytes
            else []
          else []
        else []
    | [] => []
    end
  else [].

(** The closure [walk]: the list it has appended when its recursion over
    the tree has completed. The recursion limit of the interpreter is not
    part of the embedding. *)
Fixpoint walk_js_like (code_bytes : string) (node : Node) : list string :=
  js_like_imports_at node code_bytes
  ++ match node with
     | mkNode _ _ _ cs => flat_map (walk_js_like code_bytes) cs
     end.

Definition _extract_js_like_imports (root : Node) (code_bytes : string)
    : list string :=
  walk_js_like code_bytes root.

Definition php_include_types : list string :=
  [ "require_expression"; "require_once_expression"; "include_expression";
    "include_once_expression" ].

(** What the walker appends at one PHP node. *)
Definition php_imports_at (node : Node) (code_bytes : string) : list string :=
  if decide (type node ∈ php_include_types) then string_children node code_bytes
  else if decide (type node = "namespace_use_declaration") then
    child ← children node;
    if decide (type child = "namespace_use_clause")
    then [_node_text child code_bytes]
    else []
  else [].

(** The closure [walk] of the PHP extractor, in the same way. *)
Fixpoint walk_php (code_bytes : string) (node : Node) : list string :=
  php_imports_at node code_bytes
  ++ match node with
     | mkNode _ _ _ cs => flat_map (walk_php code_bytes) cs
     end.

Definition _extract_php_imports (root : Node) (code_bytes : string)
    : list string :=
  walk_php code_bytes root.

(** Only the two grammar lookups are inside the [try] block. *)
Definition _extract_imports (file : WorkingFile) : result (list string) :=
  match filename_to_lang env (rel_path file) with
  | None | Some EmptyString => mret []
  | Some lang =>
      match (_ ← get_language env lang; get_parser env lang) with
      | Raise _ => mret []
      | Ok parser =>
          code_bytes ← read_bytes env (abs_path file);
          root ← parser code_bytes;
          if decide (lang = "javascript") then
            mret (_extract_js_like_imports root code_bytes)
          else if decide (lang = "typescript") then
            mret (_extract_js_like_imports root code_bytes)
          else if decide (lang = "php") then
            mret (_extract_php_imports root code_bytes)
          else mret []
      end
  end.

(** ** The keyword extractor *)

Definition ident_patterns : list IdentPattern :=
  [ mkIdentPattern "class" false; mkIdentPattern "function" false;
    mkIdentPattern "def" false; mkIdentPattern "const" true ].

(** The body shared by the two loops: lowercase, filter, append if new. *)
Definition add_keyword (keywords : list string) (tok : string) : list string :=
  let lower := lower tok in
  if bool_decide (lower ∈ STOPWORDS) || bool_decide (lower = "") then keywords
  else if bool_decide (lower ∈ keywords) then keywords
  else keywords ++ [lower].

Definition path_keywords (file : WorkingFile) : list string :=
  foldl add_keyword [] (split_path_punct (rel_path file)).

Definition snippet_of (file : WorkingFile) : string :=
  let text := match read_text env (abs_path file) with
              | Ok text => text
              | Raise _ => ""
              end in
  slice_to 5000 text.

Definition _extract_keywords (file : WorkingFile) : list string :=
  let keywords := path_keywords file in
  let snippet := snippet_of file in
  let keywords :=
    foldl (fun kws pat => foldl add_keyword kws (findall pat snippet))
          keywords ident_patterns in
  List.firstn KEYWORD_LIMIT keywords.

(** ** The orchestration *)

(** [file_hashes.get(resolved)], filled from the hashing helper on a miss. *)
Definition target_hashes (fh : gmap string Hashes) (resolved : string)
    : Hashes * gmap string Hashes :=
  match fh !! resolved with
  | Some tgt_hashes => (tgt_hashes, fh)
  | None =>
      let tgt_hashes := get_path_hashes env resolved in
      (tgt_hashes, <[resolved := tgt_hashes]> fh)
  end.

(** The body of the loop over the targets of one file. *)
Definition add_import (known_files : gmap string string)
    (working_paths : gset string) (wf : WorkingFile) (hashes : Hashes)
    (st : RunState) (target : string) : result RunState :=
  resolved ← _resolve_target wf target working_paths;
  match resolved with
  | None | Some EmptyString => mret st
  | Some resolved =>
      let '(tgt_hashes, fh) := target_hashes (file_hashes st) resolved in
      let tgt_merge_hash := merge_hash tgt_hashes in
      if decide (known_files !! tgt_merge_hash = None) then
        mret {| file_hashes := fh; import_keys := import_keys st;
                relations := relations st; keywords_rows := keywords_rows st |}
      else
        let edge_key := (merge_hash hashes, tgt_merge_hash) in
        if decide (edge_key ∈ import_keys st) then
          mret {| file_hashes := fh; import_keys := import_keys st;
                  relations := relations st; keywords_rows := keywords_rows st |}
        else
          mret {| file_hashes := fh;
                  import_keys := import_keys st ∪ {[ edge_key ]};
                  relations := relations st ++
                    [ {| src_merge_hash := merge_hash hashes;
                         src_hash := hash hashes;
                         dst_merge_hash := tgt_merge_hash;
                         dst_hash := hash tgt_hashes |} ];
                  keywords_rows := keywords_rows st |}
  end.

(** The body of the loop over the working files. *)
Definition process_file (known_files : gmap string string)
    (working_paths : gset string) (st : RunState) (wf : WorkingFile)
    : result RunState :=
  match file_hashes st !! rel_path wf with
  | None => Raise KeyError
  | Some hashes =>
      if decide (known_files !! merge_hash hashes = None) then mret st
      else
        let kw := _extract_keywords wf in
        let st := {| file_hashes := file_hashes st;
                     import_keys := import_keys st;
                     relations := relations st;
                     keywords_rows := keywords_rows st ++
                       [ {| kw_merge_hash := merge_hash hashes;
                            kw_hash := hash hashes;
                            keywords := kw |} ] |} in
        targets ← _extract_imports wf;
        for_each (add_import known_files working_paths wf hashes) st targets
  end.

Definition initial_state (working_files : list WorkingFile) : RunState :=
  {| file_hashes :=
       foldl (fun fh wf => <[rel_path wf := get_path_hashes env (rel_path wf)]> fh)
             ∅ working_files;
     import_keys := ∅;
     relations := [];
     keywords_rows := [] |}.

(** The two batch calls at the end of [run], each made only for a
    non-empty list. *)
Definition store_calls (st : RunState) : list StoreCall :=
  (match keywords_rows st with [] => [] | rows => [set_file_keywords rows] end)
  ++ (match relations st with [] => [] | rows => [index_imports rows] end).

(** [run]: the summary and the calls made to the store. The two log lines
    and the final [print] are left out. *)
Definition run : result (Summary * list StoreCall) :=
  let known_files := _load_known_files in
  if decide (known_files = ∅) then
    mret ({| imports := 0; keyworded_files := 0 |}, [])
  else
    let working_files := _iter_working_files in
    match working_files with
    | [] => mret ({| imports := 0; keyworded_files := 0 |}, [])
    | _ =>
        let working_paths : gset string := list_to_set (rel_path <$> working_files) in
        st ← for_each (process_file known_files working_paths)
                      (initial_state working_files) working_files;
        mret ({| imports := length (relations st);
                 keyworded_files := length (keywords_rows st) |},
              store_calls st)
    end.

End Driller.

(** * The keyword list as the specification words it *)

(** The filter of both keyword sources: not a stopword, not empty. *)
Definition kept (tok : string) : Prop := (tok ∉ STOPWORDS) ∧ (tok ≠ "").

Global Instance kept_dec (tok : string) : Decision (kept tok).
Proof. unfold kept. apply _. Defined.

(** Every element once, at the place of its first occurrence. *)
Fixpoint first_occurrences (l : list string) : list string :=
  match l with
  | [] => []
  | x :: l' => x :: filter (λ y, y ≠ x) (first_occurrences l')
  end.

(** The lowercased path-segment tokens that pass the filter. *)
Definition path_tokens (file : WorkingFile) : list string :=
  filter kept (lower <$> split_path_punct (rel_path file)).

(** The lowercased identifiers that pass the filter, pattern by pattern. *)
Definition ident_tokens (env : Env) (file : WorkingFile) : list string :=
  filter kept
    (lower <$> (ident_patterns ≫= fun pat => findall pat (snippet_of env file))).

(** * What a run has recorded *)

(** The deduplication key of an edge, as [run] builds it. *)
Definition edge_key (e : ImportEdge) : string * string :=
  (src_merge_hash e, dst_merge_hash e).

(** The edge from the identity of one path to the identity of another. *)
Definition edge_between (env : Env) (src dst : string) : ImportEdge :=
  {| src_merge_hash := merge_hash (get_path_hashes env src);
     src_hash := hash (get_path_hashes env src);
     dst_merge_hash := merge_hash (get_path_hashes env dst);
     dst_hash := hash (get_path_hashes env dst) |}.

(** The keyword row of a working file. *)
Definition keyword_row_of (env : Env) (wf : WorkingFile) : KeywordRow :=
  {| kw_merge_hash := merge_hash (get_path_hashes env (rel_path wf));
     kw_hash := hash (get_path_hashes env (rel_path wf));
     keywords := _extract_keywords env wf |}.

(** Two edges join the same two identities, in either direction. *)
Definition same_endpoints (e1 e2 : ImportEdge) : Prop :=
  (src_merge_hash e1 = src_merge_hash e2 ∧ dst_merge_hash e1 = dst_merge_hash e2)
  ∨ (src_merge_hash e1 = dst_merge_hash e2 ∧ dst_merge_hash e1 = src_merge_hash e2).

(** At most one edge for each unordered pair of identities. *)
Definition deduplicated_unordered (rows : list ImportEdge) : Prop :=
  ∀ i j e1 e2,
    rows !! i = Some e1 → rows !! j = Some e2 → same_endpoints e1 e2 → i = j.

Definition newline : ascii := ascii_of_nat 10.

(** A relative path in the form in which [as_posix] prints it and the
    scanner hands it to the ignore test, on one line: between its slashes
    no piece is empty and none is a single dot. *)
Definition normal_path (p : string) : Prop :=
  contains newline p = false
  ∧ ∀ x, x ∈ split slash p → is_component x = true.

(** What the driller relies on from [pathspec] for its default lines: a
    default name, alone or followed by a slash, compiles to an inclusion
    pattern, and the pattern of the name alone matches every normal path
    that has the name as a component. *)
Definition default_names_compiled (env : Env) : Prop :=
  ∀ n, n ∈ DEFAULT_IGNORES →
    include (gitwildmatch env n) = Some true
    ∧ include (gitwildmatch env (n +:+ "/")) = Some true
    ∧ ∀ p, normal_path p → n ∈ split slash p →
        matches (gitwildmatch env n) p = true.

(** No negation line of the repository's [.gitignore] or of the extra
    ignore file matches the path. *)
Definition not_reincluded (env : Env) (ignore_file : option (list string))
    (p : string) : Prop :=
  ∀ line, line ∈ default [] (gitignore env) ++ default [] ignore_file →
    include (gitwildmatch env line) = Some false →
    matches (gitwildmatch env line) p = false.

(** The expansion of a base path without extension. *)
Definition expanded_candidates (base : string) : list string :=
  ((λ e, base +:+ e) <$> candidate_exts)
  ++ ((λ e, as_posix (Path2 base ("index" +:+ e))) <$> candidate_exts).

(** Candidate expansion as the specification words it: only a recognized
    extension stops the expansion. *)
Definition candidates_by_recognized_extension (base : string) : list string :=
  if decide (suffix (Path base) ∈ candidate_exts) then [base]
  else expanded_candidates base.

(** [r] is the first of the candidates that is among the known paths, or
    nothing when none is. *)
Definition first_present (candidates : list string) (known_paths : gset string)
    (r : option string) : Prop :=
  match r with
  | Some cand =>
      ∃ before after, candidates = before ++ cand :: after
                      ∧ cand ∈ known_paths
                      ∧ ∀ c, c ∈ before → c ∉ known_paths
  | None => ∀ c, c ∈ candidates → c ∉ known_paths
  end.

(** A path one of whose pieces between slashes begins with two dots: a
    parent segment, or a name such as [...ts]. *)
Definition dotdot_piece (path : string) : Prop :=
  ∃ x, x ∈ split slash path ∧ startswith ".." x = true.

(** The invariant of the two loops of [run] over the scanned files. *)
Record run_invariant (env : Env) (known_files : gmap string string)
    (scanned : list WorkingFile) (st : RunState) : Prop := mkRunInvariant {
  inv_hashes : ∀ p h, file_hashes st !! p = Some h → h = get_path_hashes env p;
  inv_scanned : ∀ wf, wf ∈ scanned → is_Some (file_hashes st !! rel_path wf);
  inv_keys : ∀ k, k ∈ import_keys st ↔ k ∈ edge_key <$> relations st;
  inv_nodup : NoDup (edge_key <$> relations st);
  inv_edges : ∀ e, e ∈ relations st →
    ∃ wf q, wf ∈ scanned ∧ q ∈ rel_path <$> scanned
            ∧ e = edge_between env (rel_path wf) q
            ∧ is_Some (known_files !! src_merge_hash e)
            ∧ is_Some (known_files !! dst_merge_hash e);
  inv_rows : ∀ r, r ∈ keywords_rows st →
    ∃ wf, wf ∈ scanned ∧ r = keyword_row_of env wf
          ∧ is_Some (known_files !! kw_merge_hash r)
}.

(** * The working tree and the syntax tree as relations *)

(** [rel_dir] in the body of the scanner's loop, for the directory reached
    from the root through [rel]. *)
Definition rel_dir_of (rel : list string) : string :=
  let rel_dir := relpath rel in
  if decide (rel_dir = ".") then "" else rel_dir.

(** A file of a listing: its name, below the directories [dirs]. *)
Inductive file_at : list Entry → list string → string → Prop :=
  | file_here (listing : list Entry) (filename : string) :
      File filename ∈ listing → file_at listing [] filename
  | file_below (listing sub : list Entry) (d : string) (dirs : list string)
      (filename : string) :
      Dir d sub ∈ listing → file_at sub dirs filename →
      file_at listing (d :: dirs) filename.

(** Every directory of [dirs], entered from [rel], passes the ignore test
    with the path the scanner gives it. *)
Fixpoint not_pruned (self : DependencyDriller) (rel dirs : list string) : Prop :=
  match dirs with
  | [] => True
  | d :: dirs' =>
      _should_ignore self (as_posix (Path2 (rel_dir_of rel) d)) = false
      ∧ not_pruned self (rel ++ [d]) dirs'
  end.

(** The working file that the scanner builds for [filename] in the
    directory [rel] below [dirpath]. *)
Definition working_file (dirpath : PurePath) (rel : list string)
    (filename : string) : WorkingFile :=
  {| rel_path := as_posix (Path2 (rel_dir_of rel) filename);
     abs_path := joinpath dirpath filename;
     ext := lower (suffix (Path filename)) |}.

(** The body of the dictionary comprehension of [_load_known_files]. *)
Definition known_files_step (m : gmap string string) (row : FileRow)
    : gmap string string :=
  match row_merge_hash row with
  | Some mh => if decide (mh = "") then m else <[mh := row_hash row]> m
  | None => m
  end.

(** The nodes of a syntax tree in document order. *)
Fixpoint preorder (node : Node) : list Node :=
  node :: match node with
          | mkNode _ _ _ cs => flat_map preorder cs
          end.

(** * The imports that a run resolves *)

(** The store knows the identity of the path. *)
Definition known_path (env : Env) (p : string) : Prop :=
  is_Some (_load_known_files env !! merge_hash (get_path_hashes env p)).

Global Instance known_path_dec (env : Env) (p : string)
  : Decision (known_path env p).
Proof. unfold known_path. apply _. Defined.

(** A scanned file known to the store has an import specifier that
    resolves to the scanned path [q], known to the store as well. *)
Definition resolved_import (env : Env) (self : DependencyDriller)
    (wf : WorkingFile) (q : string) : Prop :=
  let scanned := _iter_working_files env self in
  wf ∈ scanned ∧ known_path env (rel_path wf) ∧ known_path env q
  ∧ ∃ targets target,
      _extract_imports env wf = Ok targets ∧ target ∈ targets
      ∧ _resolve_target wf target (list_to_set (rel_path <$> scanned))
        = Ok (Some q).

(** The calls that a run makes for its keyword rows and its edges. *)
Definition calls_for (rows : list KeywordRow) (edges : list ImportEdge)
    : list StoreCall :=
  match rows, edges with
  | [], _ => []
  | _ :: _, [] => [set_file_keywords rows]
  | _ :: _, _ :: _ => [set_file_keywords rows; index_imports edges]
  end.

(** * [graphrepo/drillers/categories.py] *)

(** A shallow embedding of [CategoryManager]. The graph store is outside
    the file: a write to it is recorded in a log, and what a query returns
    is a function of the writes made so far. The embedding follows the
    executions in which the calls to the store and to the hashing helper
    return; what a method does when one of them raises is not part of it.
    The dataclasses hold values of the types that their fields are
    annotated with, and a dictionary given in place of a dataclass is the
    record of the keys it has. *)

Module Categories.

Record CategorySpec : Type := mkCategorySpec {
  name : string;
  description : string;
  url : string
}.

(** The confidence is a number that the manager only passes on. *)
Definition float : Type := QArith_base.Q.

Record FileCategoryAssignment : Type := mkFileCategoryAssignment {
  category : string;
  path : option string;
  confidence : option float;
  a_merge_hash : option string;
  a_hash : option string
}.

(** A dictionary with some of the keys [name], [description], [url]. *)
Record CategoryDict : Type := mkCategoryDict {
  d_name : option string;
  d_description : option string;
  d_url : option string
}.

(** A dictionary with some of the keys [category], [path], [confidence],
    [merge_hash], [hash]. *)
Record AssignmentDict : Type := mkAssignmentDict {
  d_category : option string;
  d_path : option string;
  d_confidence : option float;
  d_merge_hash : option string;
  d_hash : option string
}.

(** What the two loops accept: the dataclass, or a dictionary. *)
Inductive CategoryInput : Type :=
  | spec (cat : CategorySpec)
  | spec_dict (cat : CategoryDict).

Inductive AssignmentInput : Type :=
  | assignment (a : FileCategoryAssignment)
  | assignment_dict (a : AssignmentDict).

(** A row that [_normalize_assignments] builds. *)
Record NormalizedRow : Type := mkNormalizedRow {
  n_merge_hash : string;
  n_hash : option string;
  n_category : string;
  n_confidence : option float
}.

(** A row of the query for the [RepoCategory] nodes of a project. *)
Record CategoryRow : Type := mkCategoryRow {
  c_name : option string;
  c_url : option string
}.

(** The calls to [batch_utils], with the project they are made for. *)
Inductive Call : Type :=
  | index_categories (rows : list CategorySpec) (project_id : string)
  | index_file_categories (rows : list NormalizedRow) (project_id : string)
      (category_project_id : string).

(** The graph store: what its two queries return after the given calls. *)
Record Store : Type := mkStore {
  file_rows_after : list Call → string → list FileRow;
  category_rows_after : list Call → string → list CategoryRow
}.

Record CategoryManager : Type := mkManager {
  project_id : string
}.

(** A method of the manager: from the calls made so far, what it returns or
    raises, and the calls made then. *)
Definition Method (A : Type) : Type := list Call → result A * list Call.

Global Instance method_ret : MRet Method := fun A a log => (Ok a, log).

Global Instance method_bind : MBind Method := fun A B k m log =>
  match m log with
  | (Ok a, log') => k a log'
  | (Raise e, log') => (Raise e, log')
  end.

Definition call (c : Call) : Method unit := fun log => (Ok (), log ++ [c]).

Definition query {A : Type} (q : list Call → A) : Method A :=
  fun log => (Ok (q log), log).

Definition raise {A : Type} (e : exn) : Method A := fun log => (Raise e, log).

Definition lift {A : Type} (r : result A) : Method A := fun log => (r, log).

(** The truth value of an optional string: [None] and the empty string are
    false. *)
Definition truthy (s : option string) : bool :=
  match s with
  | Some EmptyString | None => false
  | Some _ => true
  end.

(** [dict[key]] on a summary. *)
Definition getitem (d : gmap string nat) (key : string) : Method nat :=
  match d !! key with
  | Some v => mret v
  | None => raise KeyError
  end.

Section Manager.

Context (env : Env) (store : Store) (self : CategoryManager).

Definition _load_known_files : Method (gmap string string) :=
  query (fun log =>
    foldl (fun m row =>
             match row_merge_hash row with
             | Some mh => if decide (mh = "") then m else <[mh := row_hash row]> m
             | None => m
             end) ∅ (file_rows_after store log (project_id self))).

(** The dictionary comprehension of the two category queries. *)
Definition categories_of (rows : list CategoryRow)
    : gmap (option string) (option string) :=
  foldl (fun m row => <[c_name row := c_url row]> m) ∅ rows.

Definition _existing_categories : Method (gmap (option string) (option string)) :=
  query (fun log => categories_of (category_rows_after store log (project_id self))).

Definition _existing_categories_from_pid (pid : string)
    : Method (gmap (option string) (option string)) :=
  query (fun log => categories_of (category_rows_after store log pid)).

Definition other : CategorySpec :=
  {| name := "Other";
     description := "Fallback category for uncategorized files";
     url := "/other" |}.

Definition ensure_other : Method unit :=
  call (index_categories [other] (project_id self)).

(** The conversion at the head of the loop of [merge_categories]. *)
Definition as_spec (cat : CategoryInput) : CategorySpec :=
  match cat with
  | spec cat => cat
  | spec_dict cat =>
      {| name := default "" (d_name cat);
         description := default "" (d_description cat);
         url := default "" (d_url cat) |}
  end.

(** The body of the loop of [merge_categories], on [rows] and [new_names]. *)
Definition merge_step (existing : gmap (option string) (option string))
    (st : list CategorySpec * gset string) (cat : CategoryInput)
    : list CategorySpec * gset string :=
  let cat := as_spec cat in
  if decide (name cat = "") then st
  else
    (st.1 ++ [ {| name := name cat; description := description cat;
                  url := url cat |} ],
     if decide (existing !! Some (name cat) = None)
     then st.2 ∪ {[ name cat ]} else st.2).

Definition merge_categories (categories : list CategoryInput)
    : Method (gmap string nat) :=
  _ ← ensure_other;
  existing ← _existing_categories;
  let '(rows, new_names) := foldl (merge_step existing) ([], ∅) categories in
  _ ← match rows with
      | [] => mret ()
      | _ => call (index_categories rows (project_id self))
      end;
  mret ({[ "categories_total" := length rows;
           "categories_created" := size new_names ]} : gmap string nat).

(** The conversion at the head of the loop of [_normalize_assignments]. *)
Definition as_assignment (a : AssignmentInput) : FileCategoryAssignment :=
  match a with
  | assignment a => a
  | assignment_dict a =>
      {| category := default "" (d_category a);
         path := d_path a;
         confidence := d_confidence a;
         a_merge_hash := d_merge_hash a;
         a_hash := d_hash a |}
  end.

(** The body of the loop of [_normalize_assignments]. *)
Definition normalize_step (known_files : gmap string string)
    (normalized : list NormalizedRow) (a : AssignmentInput)
    : list NormalizedRow :=
  let a := as_assignment a in
  let '(merge_hash', f_hash) :=
    match negb (truthy (a_merge_hash a)), path a with
    | true, Some (String _ _ as p) =>
        let hashes := get_path_hashes env p in
        (Some (merge_hash hashes), Some (hash hashes))
    | _, _ => (a_merge_hash a, a_hash a)
    end in
  match merge_hash' with
  | None | Some EmptyString => normalized
  | Some mh =>
      if decide (known_files !! mh = None) then normalized
      else normalized ++ [ {| n_merge_hash := mh; n_hash := f_hash;
                              n_category := category a;
                              n_confidence := confidence a |} ]
  end.

Definition _normalize_assignments (assignments : list AssignmentInput)
    (known_files : gmap string string) : list NormalizedRow :=
  foldl (normalize_step known_files) [] assignments.

(** The category name that the loop of [assign_categories] reads. *)
Definition cat_name_of (a : AssignmentInput) : string :=
  match a with
  | assignment_dict a => default "" (d_category a)
  | assignment a => category a
  end.

Definition missing_step (existing : gmap (option string) (option string))
    (missing_cats : list CategoryInput) (a : AssignmentInput)
    : list CategoryInput :=
  let cat_name := cat_name_of a in
  if negb (truthy (Some cat_name)) then missing_cats
  else if decide (existing !! Some cat_name = None)
       then missing_cats ++ [spec {| name := cat_name; description := ""; url := "" |}]
       else missing_cats.

Definition assign_categories (assignments : list AssignmentInput)
    (category_project_id : option string) : Method (gmap string nat) :=
  _ ← ensure_other;
  known_files ← _load_known_files;
  if decide (known_files = ∅) then
    mret ({[ "assigned" := 0 ]} : gmap string nat)
  else
    let assignment_list := assignments in
    let target_cat_pid :=
      match category_project_id with
      | Some pid => if truthy (Some pid) then pid else project_id self
      | None => project_id self
      end in
    existing ← (if decide (target_cat_pid = project_id self)
                then _existing_categories
                else _existing_categories_from_pid target_cat_pid);
    let missing_cats := foldl (missing_step existing) [] assignment_list in
    _ ← match missing_cats with
        | [] => mret ()
        | _ => _ ← merge_categories missing_cats; mret ()
        end;
    let normalized := _normalize_assignments assignment_list known_files in
    _ ← match normalized with
        | [] => mret ()
        | _ => call (index_file_categories normalized (project_id self)
                       target_cat_pid)
        end;
    mret ({[ "assigned" := length normalized ]} : gmap string nat).

(** The set comprehension of [auto_categories]. *)
Definition existing_urls (existing : gmap (option string) (option string))
    : gset string :=
  list_to_set
    (omap (fun kv : option string * option string =>
             match kv.2 with
             | Some u => if truthy (Some u) then Some u else None
             | None => None
             end) (map_to_list existing)).

Definition auto_categories (routes : list string)
    (category_generator : option (list string → result (list CategoryInput)))
    : Method (gmap string nat) :=
  existing ← _existing_categories;
  let existing_urls := existing_urls existing in
  let missing_routes :=
    filter (fun r => truthy (Some r) = true ∧ r ∉ existing_urls) routes in
  match missing_routes with
  | [] => mret ({[ "categories_created" := 0 ]} : gmap string nat)
  | _ =>
      match category_generator with
      | None => raise ValueError
      | Some category_generator =>
          generated ← lift (category_generator missing_routes);
          merged ← merge_categories generated;
          mret merged
      end
  end.

(** The three conditional blocks of [categorize], each from the summary
    so far to the summary after it. *)
Definition categorize_routes (routes : option (list string))
    (category_generator : option (list string → result (list CategoryInput)))
    (summary : gmap string nat) : Method (gmap string nat) :=
  match routes with
  | Some routes =>
      auto_res ← auto_categories routes category_generator;
      mret (auto_res ∪ summary)
  | None => mret summary
  end.

Definition categorize_categories (categories : option (list CategoryInput))
    (summary : gmap string nat) : Method (gmap string nat) :=
  match categories with
  | Some ((_ :: _) as categories) =>
      merge_res ← merge_categories categories;
      total ← getitem summary "categories_total";
      let summary :=
        <["categories_total" :=
            total + default 0 (merge_res !! "categories_total")]> summary in
      created ← getitem summary "categories_created";
      mret (<["categories_created" :=
                created + default 0 (merge_res !! "categories_created")]>
              summary)
  | _ => mret summary
  end.

Definition categorize_assignments (assignments : option (list AssignmentInput))
    (category_project_id : option string)
    (summary : gmap string nat) : Method (gmap string nat) :=
  match assignments with
  | Some ((_ :: _) as assignments) =>
      assign_res ← assign_categories assignments category_project_id;
      mret (<["assigned" := default 0 (assign_res !! "assigned")]> summary)
  | _ => mret summary
  end.

Definition categorize (categories : option (list CategoryInput))
    (assignments : option (list AssignmentInput))
    (routes : option (list string))
    (category_generator : option (list string → result (list CategoryInput)))
    (category_project_id : option string) : Method (gmap string nat) :=
  let summary : gmap string nat :=
    {[ "categories_total" := 0; "categories_created" := 0; "assigned" := 0 ]} in
  summary ← categorize_routes routes category_generator summary;
  summary ← categorize_categories categories summary;
  summary ← categorize_assignments assignments category_project_id summary;
  mret summary.

End Manager.

End Categories.

(** A normalised row, given again as an assignment dictionary. *)
Definition row_as_dict (row : Categories.NormalizedRow)
    : Categories.AssignmentInput :=
  Categories.assignment_dict
    {| Categories.d_category := Some (Categories.n_category row);
       Categories.d_path := None;
       Categories.d_confidence := Categories.n_confidence row;
       Categories.d_merge_hash := Some (Categories.n_merge_hash row);
       Categories.d_hash := Categories.n_hash row |}.

(** * A small repository to run the driller on *)

Module Fixture.

(** [GitWildMatchPattern] on the lines that are a plain name (no slash
    inside, no wildcard), possibly followed by a slash or preceded by an
    exclamation mark: [name] matches a path with a component [name],
    [name/] a path with a component [name] that is not the last one. Any
    other line compiles to a pattern that never decides. *)
Definition is_plain_name (s : string) : bool :=
  negb (bool_decide (s = ""))
  && forallb (fun c => negb (contains c s)) ["/"; "*"; "?"; "["; "\"; "!"; "#"; " "]%char.

Definition has_component (n path : string) : bool :=
  bool_decide (n ∈ split slash path).

Definition has_directory (n path : string) : bool :=
  bool_decide (n ∈ removelast (split slash path)).

Definition never_decides : Pattern :=
  {| include := None; matches := fun _ => false |}.

Definition plain_pattern (inc : bool) (body : string) : Pattern :=
  if is_plain_name body then
    {| include := Some inc; matches := has_component body |}
  else
    let nm := rstrip (fun c => bool_decide (c = slash)) body in
    if is_plain_name nm && bool_decide (body = nm +:+ "/") then
      {| include := Some inc; matches := has_directory nm |}
    else never_decides.

Definition plain_gitwildmatch (line : string) : Pattern :=
  match line with
  | String "!" rest => plain_pattern false rest
  | _ => plain_pattern true line
  end.

Definition lang_by_suffix (path : string) : option string :=
  let e := suffix (Path path) in
  if decide (e = ".ts") then Some "typescript"
  else if decide (e = ".js") then Some "javascript"
  else if decide (e = ".php") then Some "php"
  else None.

(** Two sources and their syntax trees. *)
Definition source_a : string := "import './b'; import './b';".
Definition source_b : string := "import './a';".

Definition import_statement (start : nat) : Node :=
  mkNode "import_statement" start (start + 13)
    [ mkNode "import" start (start + 6) [];
      mkNode "string" (start + 7) (start + 12) [];
      mkNode ";" (start + 12) (start + 13) [] ].

Definition tree_a : Node :=
  mkNode "program" 0 27 [import_statement 0; import_statement 14].

Definition tree_b : Node :=
  mkNode "program" 0 13 [import_statement 0].

Definition parser : Parser := fun code =>
  if decide (code = source_a) then Ok tree_a
  else if decide (code = source_b) then Ok tree_b
  else Ok (mkNode "program" 0 (String.length code) []).

Definition contents (p : PurePath) : result string :=
  if decide (name p = "a.ts") then Ok source_a
  else if decide (name p = "b.ts") then Ok source_b
  else Ok "".

Definition hashes_of (path : string) : Hashes :=
  {| merge_hash := "m:" +:+ path; hash := "h:" +:+ path |}.

Definition row_of (path : string) : FileRow :=
  {| row_merge_hash := Some ("m:" +:+ path); row_hash := "h:" +:+ path |}.

(** An environment over a working tree, the known files, the content of
    [.gitignore] and the reading of files. *)
Definition make_env (tree : list Entry) (known : list string)
    (ignore_lines : option (list string))
    (read : PurePath → result string) : Env :=
  {| get_path_hashes := hashes_of;
     filename_to_lang := lang_by_suffix;
     get_language := fun _ => Ok ();
     get_parser := fun _ => Ok parser;
     decode_utf8 := fun b => b;
     read_bytes := read;
     read_text := read;
     gitwildmatch := plain_gitwildmatch;
     working_tree := tree;
     file_rows := row_of <$> known;
     gitignore := ignore_lines |}.

Definition driller (env : Env) : DependencyDriller :=
  {| repo_root := Path "/repo"; ignore_spec := _build_ignore_spec env None |}.

Definition tree_ab : list Entry :=
  [ File "a.ts"; File "b.ts"; File "README.md";
    Dir "node_modules" [File "x.ts"] ].

(** [a.ts] imports [./b] twice and [b.ts] imports [./a]. *)
Definition env_ab : Env := make_env tree_ab ["a.ts"; "b.ts"] None contents.

(** Only [a.ts] is known to the store. *)
Definition env_a_only : Env := make_env tree_ab ["a.ts"] None contents.

(** No file is known to the store. *)
Definition env_no_known : Env := make_env tree_ab [] None contents.

(** The working tree holds no file at all. *)
Definition env_empty_tree : Env := make_env [] ["a.ts"] None contents.

(** [a.ts] cannot be read. *)
Definition unreadable (p : PurePath) : result string :=
  if decide (name p = "a.ts") then Raise OSError else contents p.

Definition env_unreadable : Env :=
  make_env tree_ab ["a.ts"; "b.ts"] None unreadable.

(** The repository's [.gitignore] re-includes [node_modules]. *)
Definition env_reinclude : Env :=
  make_env tree_ab ["a.ts"; "b.ts"; "node_modules/x.ts"]
    (Some ["!node_modules"; "!node_modules/"]) contents.

(** What the run on [env_ab] hands to the store. *)
Definition edge_a_b : ImportEdge :=
  {| src_merge_hash := "m:a.ts"; src_hash := "h:a.ts";
     dst_merge_hash := "m:b.ts"; dst_hash := "h:b.ts" |}.

Definition edge_b_a : ImportEdge :=
  {| src_merge_hash := "m:b.ts"; src_hash := "h:b.ts";
     dst_merge_hash := "m:a.ts"; dst_hash := "h:a.ts" |}.

Definition keyword_rows_ab : list KeywordRow :=
  [ {| kw_merge_hash := "m:a.ts"; kw_hash := "h:a.ts"; keywords := ["a"; "ts"] |};
    {| kw_merge_hash := "m:b.ts"; kw_hash := "h:b.ts"; keywords := ["b"; "ts"] |} ].

Definition calls_ab : list StoreCall :=
  [ set_file_keywords keyword_rows_ab; index_imports [edge_a_b; edge_b_a] ].

Definition file_in (dir nm e : string) : WorkingFile :=
  {| rel_path := as_posix (Path2 dir nm);
     abs_path := joinpath (joinpath (Path "/repo") dir) nm;
     ext := e |}.

End Fixture.

(** * Properties *)

Import Fixture.

(** A decidable statement about concrete data, settled by evaluation. *)
Ltac by_evaluation := apply (bool_decide_unpack _); by vm_compute.

Lemma elem_of_nonempty {A : Type} (x : A) (l : list A) : x ∈ l → l ≠ [].
Proof. intros Hx ->. by apply elem_of_nil in Hx. Qed.

(** ** The Python model on examples *)

Example strip_then_quotes : clean "  'lib/x' " = "lib/x".
Proof. reflexivity. Qed.

Example roots_of_paths :
  as_posix <$> (Path <$> [""; "./a"; "a//b/./c/"; "/"; "//x"; "///x"])
  = ["."; "a"; "a/b/c"; "/"; "//x"; "/x"].
Proof. reflexivity. Qed.

Example join_keeps_parent_segments :
  as_posix (joinpath (Path "src") "../b") = "src/../b"
  ∧ as_posix (joinpath (Path "src") "/b") = "/b"
  ∧ as_posix (joinpath (Path "") "b") = "b".
Proof. by split_and!. Qed.

Example suffixes :
  (λ s, suffix (Path s)) <$> ["a.ts"; "a.b.c"; ".ts"; "foo."; "src/.."; "...ts"]
  = [".ts"; ".c"; ""; ""; ""; ".ts"].
Proof. reflexivity. Qed.

Example with_suffix_replaces :
  with_suffix (Path "Foo/Bar.class") ".php" = Ok (Path "Foo/Bar.php")
  ∧ with_suffix (Path "./.") ".php" = Raise ValueError.
Proof. by split. Qed.

Example split_path_punct_keeps_ends :
  split_path_punct "_a/b.ts" = [""; "a"; "b"; "ts"]
  ∧ split_path_punct "a--" = ["a"; ""]
  ∧ split_path_punct "" = [""].
Proof. by split_and!. Qed.

Example findall_identifiers :
  findall (mkIdentPattern "class" false) "class  Foo extends Bar; subclass Baz"
  = ["Foo"; "Baz"]
  ∧ findall (mkIdentPattern "const" true) "const a = 1; const b; const c= 2"
    = ["a"; "c"].
Proof. by split. Qed.

Example scan_of_tree_ab :
  rel_path <$> _iter_working_files env_ab (driller env_ab) = ["a.ts"; "b.ts"].
Proof. reflexivity. Qed.

Example imports_of_a :
  _extract_imports env_ab (file_in "" "a.ts" ".ts") = Ok ["./b"; "./b"].
Proof. reflexivity. Qed.

(** ** Early exits of [run] *)

(** C5. When the store knows no file of the project, or the scan yields no
    working file, [run] returns the summary with both counts zero, raises
    nothing and makes neither of the two batch calls. *)
Theorem run_empty_precondition (env : Env) (self : DependencyDriller) :
  _load_known_files env = ∅ ∨ _iter_working_files env self = [] →
  run env self = Ok ({| imports := 0; keyworded_files := 0 |}, []).
Proof.
  intros [Hknown | Hscan]; unfold run.
  - by rewrite decide_True.
  - destruct (decide (_load_known_files env = ∅)); [done|].
    by rewrite Hscan.
Qed.

Lemma run_empty_precondition_witness :
  run env_no_known (driller env_no_known)
    = Ok ({| imports := 0; keyworded_files := 0 |}, [])
  ∧ run env_empty_tree (driller env_empty_tree)
    = Ok ({| imports := 0; keyworded_files := 0 |}, []).
Proof.
  split.
  - apply run_empty_precondition. left. reflexivity.
  - apply run_empty_precondition. right. reflexivity.
Defined.

(** ** Failures that escape *)

(** C7. The read of the file is outside the [try] block of
    [_extract_imports]: for a TypeScript file that cannot be read, the
    keyword extractor falls back to the path tokens, the import extractor
    raises, and so does the whole run. *)
Theorem extract_imports_unreadable_raises :
  let file := file_in "" "a.ts" ".ts" in
  _extract_keywords env_unreadable file = ["a"; "ts"]
  ∧ _extract_imports env_unreadable file = Raise OSError
  ∧ run env_unreadable (driller env_unreadable) = Raise OSError.
Proof. by vm_compute. Qed.

(** C8. From a PHP file, the specifier made of one backslash passes the
    namespace test, converts to the root path, whose name is empty, and
    [with_suffix] raises before any candidate is tried, whatever the
    scanned paths are. *)
Theorem resolve_target_php_backslash_raises (known_paths : gset string) :
  php_heuristic_applies (file_in "" "a.php" ".php") "\" = true
  ∧ _resolve_target (file_in "" "a.php" ".php") "\" known_paths
    = Raise ValueError.
Proof. split; reflexivity. Qed.

(** ** Strings *)

Lemma app_String (c : ascii) (s t : string) :
  String c s +:+ t = String c (s +:+ t).
Proof. reflexivity. Qed.

Lemma app_empty_l (t : string) : "" +:+ t = t.
Proof. reflexivity. Qed.

Lemma app_empty_r (s : string) : s +:+ "" = s.
Proof. induction s as [|c s IH]; [done|]. by rewrite app_String, IH. Qed.

Lemma app_assoc_str (s t u : string) : (s +:+ t) +:+ u = s +:+ (t +:+ u).
Proof. induction s as [|c s IH]; [done|]. by rewrite !app_String, IH. Qed.

Lemma contains_app (c : ascii) (s t : string) :
  contains c (s +:+ t) = contains c s || contains c t.
Proof.
  induction s as [|a s IH]; [done|]. rewrite app_String. simpl.
  by destruct (decide (a = c)).
Qed.

Lemma startswith_app (p s : string) : startswith p (p +:+ s) = true.
Proof.
  induction p as [|a p IH]; [done|]. rewrite app_String. simpl.
  by rewrite decide_True.
Qed.

Lemma split_cons (sep : ascii) (s : string) :
  ∃ h t, split sep s = h :: t.
Proof.
  destruct s as [|c s]; simpl; [by eexists _, _|].
  destruct (decide (c = sep)); [by eexists _, _|].
  destruct (split sep s); by eexists _, _.
Qed.

Lemma split_sep_free (sep : ascii) (x : string) :
  contains sep x = false → split sep x = [x].
Proof.
  induction x as [|c x IH]; simpl; [done|].
  destruct (decide (c = sep)); [done|]. intros Hx. by rewrite (IH Hx).
Qed.

Lemma split_app_sep (sep : ascii) (x s : string) :
  contains sep x = false →
  split sep (x +:+ String sep s) = x :: split sep s.
Proof.
  induction x as [|c x IH]; simpl.
  { intros _. by rewrite decide_True. }
  destruct (decide (c = sep)); [done|]. intros Hx. by rewrite (IH Hx).
Qed.

Lemma split_sep_cons (sep : ascii) (s : string) :
  split sep (String sep s) = "" :: split sep s.
Proof. simpl. by rewrite decide_True. Qed.

Lemma split_join (sep : ascii) (l : list string) :
  l ≠ [] → Forall (λ x, contains sep x = false) l →
  split sep (join (String sep "") l) = l.
Proof.
  induction l as [|x l IH]; [done|]. intros _ Hl.
  apply Forall_cons in Hl as [Hx Hl]. destruct l as [|y l].
  { simpl. by apply split_sep_free. }
  change (join (String sep "") (x :: y :: l))
    with (x +:+ String sep "" +:+ join (String sep "") (y :: l)).
  rewrite app_String, app_empty_l, split_app_sep by done.
  by rewrite IH.
Qed.

Lemma elem_of_split_sep_free (sep : ascii) (s x : string) :
  x ∈ split sep s → contains sep x = false.
Proof.
  revert x. induction s as [|c s IH]; intros x; simpl.
  { by intros ->%list_elem_of_singleton. }
  destruct (decide (c = sep)) as [|Hc].
  { intros [->|Hx]%elem_of_cons; [done|by apply IH]. }
  destruct (split_cons sep s) as (h & t & Hs). rewrite Hs in IH |- *.
  intros [->|Hx]%elem_of_cons.
  - simpl. rewrite decide_False by done. apply IH. by left.
  - apply IH. by right.
Qed.

(** Replacing a character by the separator splits every piece further at
    that character. *)
Lemma split_replace (b sep : ascii) (s : string) :
  b ≠ sep →
  split sep (replace b sep s) = split sep s ≫= split b.
Proof.
  intros Hb. induction s as [|c s IH]; [done|]. simpl.
  destruct (split_cons sep s) as (h & t & Hs).
  destruct (split_cons b h) as (hh & ht & Hh).
  rewrite Hs in IH |- *. rewrite bind_cons, Hh in IH.
  destruct (decide (c = b)) as [->|Hcb].
  - rewrite decide_True, decide_False, IH, bind_cons by done.
    simpl. by rewrite decide_True, Hh.
  - destruct (decide (c = sep)) as [->|Hcs].
    + by rewrite IH, !bind_cons, Hh.
    + rewrite IH, bind_cons. simpl. by rewrite decide_False, Hh.
Qed.

Lemma elem_of_split_replace (b sep : ascii) (s x : string) :
  b ≠ sep → contains b x = false →
  x ∈ split sep s → x ∈ split sep (replace b sep s).
Proof.
  intros Hb Hx Hin. rewrite split_replace by done.
  apply list_elem_of_bind. exists x. split; [|done].
  rewrite split_sep_free by done. by left.
Qed.

(** ** Paths *)

Lemma root_of_cases (s : string) :
  root_of s = "" ∨ root_of s = "/" ∨ root_of s = "//".
Proof.
  destruct s as [|a [|b [|c s]]]; simpl; repeat case_decide; auto.
Qed.

Lemma components_slash_free (s : string) :
  Forall (λ x, contains slash x = false) (components s).
Proof.
  apply Forall_forall. intros x [_ Hx]%list_elem_of_filter.
  by apply elem_of_split_sep_free in Hx.
Qed.

Lemma elem_of_components (s x : string) :
  x ∈ split slash s → is_component x = true → x ∈ components s.
Proof. intros Hx Hc. by apply list_elem_of_filter. Qed.

Lemma Path_well_formed (s : string) : well_formed (Path s).
Proof. split; [apply root_of_cases|apply components_slash_free]. Qed.

Lemma joinpath_well_formed (p : PurePath) (s : string) :
  well_formed p → well_formed (joinpath p s).
Proof.
  intros [Hr Ht]. unfold joinpath.
  destruct (decide (root_of s = "")); [|apply Path_well_formed].
  split; [done|]. simpl. apply Forall_app. split; [done|].
  apply components_slash_free.
Qed.

Lemma Forall_removelast {A : Type} (P : A → Prop) (l : list A) :
  Forall P l → Forall P (removelast l).
Proof.
  induction 1 as [|x l Hx Hl IH]; [constructor|].
  destruct l; [constructor|]. by constructor.
Qed.

Lemma parent_well_formed (p : PurePath) :
  well_formed p → well_formed (parent p).
Proof.
  intros Hwf. unfold parent. destruct (tail p) eqn:Htail; [done|].
  destruct Hwf as [Hr Ht]. split; [done|].
  apply (Forall_removelast _ (s :: l)). by rewrite <- Htail.
Qed.

Lemma as_posix_nonempty_tail (p : PurePath) :
  tail p ≠ [] → as_posix p = root p +:+ join "/" (tail p).
Proof. unfold as_posix. by destruct (root p), (tail p). Qed.

(** The pieces between the slashes of a printed path are empty strings
    for the root, then the components. *)
Lemma split_as_posix (p : PurePath) :
  well_formed p → tail p ≠ [] →
  ∃ pre, split slash (as_posix p) = pre ++ tail p ∧ Forall (λ x, x = "") pre.
Proof.
  intros [Hr Ht] Hne. rewrite as_posix_nonempty_tail by done.
  pose proof (split_join slash (tail p) Hne Ht) as Hsplit.
  unfold slash in *. destruct Hr as [-> | [-> | ->]].
  - exists []. by rewrite app_empty_l.
  - exists [""]. rewrite app_String, app_empty_l.
    rewrite split_sep_cons, Hsplit. by repeat constructor.
  - exists [""; ""]. rewrite !app_String, app_empty_l.
    rewrite !split_sep_cons, Hsplit. by repeat constructor.
Qed.

Lemma elem_of_split_as_posix (p : PurePath) (x : string) :
  well_formed p → x ∈ tail p → x ∈ split slash (as_posix p).
Proof.
  intros Hwf Hx. destruct (split_as_posix p Hwf) as (pre & -> & _).
  - by eapply elem_of_nonempty.
  - apply elem_of_app. by right.
Qed.

Lemma join_snoc_app (sep e : string) (l : list string) :
  l ≠ [] →
  join sep (removelast l ++ [List.last l "" +:+ e]) = join sep l +:+ e.
Proof.
  induction l as [|x l IH]; [done|]. intros _. destruct l as [|y l]; [done|].
  change (removelast (x :: y :: l)) with (x :: removelast (y :: l)).
  change (List.last (x :: y :: l) "") with (List.last (y :: l) "").
  change (join sep (x :: y :: l)) with (x +:+ sep +:+ join sep (y :: l)).
  rewrite !app_assoc_str, <- IH by done.
  by destruct (removelast (y :: l)).
Qed.

(** Appending an extension to a printed path appends it to the last
    component. *)
Lemma as_posix_app_ext (p : PurePath) (e : string) :
  tail p ≠ [] →
  as_posix p +:+ e
  = as_posix {| root := root p;
                tail := removelast (tail p) ++ [List.last (tail p) "" +:+ e] |}.
Proof.
  intros Hne. rewrite !as_posix_nonempty_tail; simpl; [|by destruct (removelast _)|done].
  by rewrite join_snoc_app, app_assoc_str.
Qed.

(** ** The base candidate path *)

Lemma startswith_slash_root_of (s : string) :
  startswith "/" s = false → root_of s = "".
Proof.
  destruct s as [|a [|b [|c s]]]; simpl; [done|..];
    destruct (decide ("/"%char = a)) as [<-|Hne]; try done;
    intros _; unfold slash; by rewrite decide_False.
Qed.

Lemma components_slash_cons (s : string) :
  components (String "/" s) = components s.
Proof.
  unfold components. change (String "/" s) with (String slash s).
  by rewrite split_sep_cons.
Qed.

(** A path prints as a single dot only when it is the empty path. *)
Lemma as_posix_dot (p : PurePath) :
  (root p = "" ∨ root p = "/" ∨ root p = "//") →
  Forall (λ x, is_component x = true) (tail p) →
  as_posix p = "." → p = Path "".
Proof.
  destruct p as [r t]. simpl. intros [-> | [-> | ->]] Ht; unfold as_posix; simpl.
  - destruct t as [|x [|y t]]; [done|..]; apply Forall_cons in Ht as [Hx _].
    + simpl. rewrite app_empty_l. by intros ->.
    + change (join "/" (x :: y :: t)) with (x +:+ "/" +:+ join "/" (y :: t)).
      rewrite app_empty_l. destruct x as [|c [|c' x]]; [done|done|done].
  - by destruct t.
  - by destruct t.
Qed.

Lemma components_are_components (s : string) :
  Forall (λ x, is_component x = true) (components s).
Proof. apply Forall_forall. by intros x [Hx _]%list_elem_of_filter. Qed.

(** C2, as stated, fails: from [src/a.ts], the specifier [/lib/x] loses
    its leading slash and is then joined to the importer's directory like
    any other: the base candidate path is [src/lib/x], not [lib/x]; the
    file [lib/x.ts] at the root of the repository is not found, and a file
    [src/lib/x.ts] is. *)
Lemma base_path_root_marker_counterexample :
  let importer := file_in "src" "a.ts" ".ts" in
  base_path importer "/lib/x" = "src/lib/x"
  ∧ base_path importer "/lib/x" ≠ "lib/x"
  ∧ _resolve_target importer "/lib/x" {[ "src/a.ts"; "lib/x.ts" ]} = Ok None
  ∧ _resolve_target importer "/lib/x"
      {[ "src/a.ts"; "lib/x.ts"; "src/lib/x.ts" ]} = Ok (Some "src/lib/x.ts").
Proof. by vm_compute. Qed.

(** C2, amended. For a cleaned specifier that does not start with two
    slashes, with or without one leading slash, the base candidate path is
    the importer's directory followed by the components of the specifier:
    a leading slash does not anchor the specifier at the repository
    root. *)
Theorem base_candidate_joined_to_importer_dir (importer : WorkingFile)
    (cleaned : string) :
  startswith "//" cleaned = false →
  let importer_dir := parent (Path (rel_path importer)) in
  base_candidate importer cleaned
  = {| root := root importer_dir;
       tail := tail importer_dir ++ components cleaned |}.
Proof.
  intros Hroot. simpl. unfold base_candidate.
  set (dir := parent (Path (rel_path importer))).
  assert ((if decide (as_posix dir = ".") then Path "" else dir) = dir) as ->.
  { destruct (decide _) as [Hdot|]; [|done]. symmetry. revert Hdot.
    apply as_posix_dot.
    - apply parent_well_formed, Path_well_formed.
    - unfold dir, parent.
      pose proof (components_are_components (rel_path importer)) as Hc.
      destruct (tail (Path (rel_path importer))) eqn:Ht; [by rewrite Ht|].
      apply (Forall_removelast _ (s :: l)). by rewrite <- Ht. }
  destruct (startswith "/" cleaned) eqn:Hslash.
  - destruct cleaned as [|c cleaned]; [done|]. simpl in Hslash, Hroot.
    destruct (decide ("/"%char = c)) as [<-|]; [|done].
    rewrite components_slash_cons. unfold joinpath, drop1.
    by rewrite decide_True by by apply startswith_slash_root_of.
  - unfold joinpath. by rewrite decide_True by by apply startswith_slash_root_of.
Qed.

Lemma base_candidate_joined_to_importer_dir_witness :
  base_candidate (file_in "src" "a.ts" ".ts") "/lib/x"
  = {| root := ""; tail := ["src"; "lib"; "x"] |}
  ∧ base_candidate (file_in "src" "a.ts" ".ts") "lib/x"
  = {| root := ""; tail := ["src"; "lib"; "x"] |}.
Proof.
  split.
  - apply (base_candidate_joined_to_importer_dir (file_in "src" "a.ts" ".ts")
             "/lib/x"). reflexivity.
  - apply (base_candidate_joined_to_importer_dir (file_in "src" "a.ts" ".ts")
             "lib/x"). reflexivity.
Defined.

(** ** The first known candidate *)

Lemma first_known_Some (candidates : list string) (known_paths : gset string)
    (cand : string) :
  first_known candidates known_paths = Some cand →
  cand ∈ candidates ∧ cand ∈ known_paths.
Proof.
  unfold first_known. intros Hfind. split.
  - apply list_elem_of_In. by apply find_some in Hfind as [? _].
  - apply find_some in Hfind as [_ Hin]. by apply bool_decide_eq_true in Hin.
Qed.

Lemma first_known_None (candidates : list string) (known_paths : gset string) :
  (∀ cand, cand ∈ candidates → cand ∉ known_paths) →
  first_known candidates known_paths = None.
Proof.
  intros Hnone. unfold first_known.
  destruct (find _ candidates) as [cand|] eqn:Hfind; [|done].
  apply find_some in Hfind as [Hin Hk].
  apply bool_decide_eq_true in Hk. by apply list_elem_of_In, Hnone in Hin.
Qed.

Lemma first_known_first_present (candidates : list string)
    (known_paths : gset string) :
  first_present candidates known_paths (first_known candidates known_paths).
Proof.
  unfold first_known. induction candidates as [|c l IH]; simpl.
  { by intros c Hc%elem_of_nil. }
  destruct (bool_decide (c ∈ known_paths)) eqn:Hc.
  - exists [], l. split_and!; [done|by apply bool_decide_eq_true in Hc|].
    by intros y Hy%elem_of_nil.
  - apply bool_decide_eq_false in Hc.
    destruct (find _ l) as [cand|]; simpl in IH |- *.
    + destruct IH as (before & after & -> & Hcand & Hbefore).
      exists (c :: before), after. split_and!; [done|done|].
      intros y [->|Hy]%elem_of_cons; [done|by apply Hbefore].
    + intros y [->|Hy]%elem_of_cons; [done|by apply IH].
Qed.

(** ** Candidate expansion *)

Lemma candidate_paths_suffix (base : string) :
  suffix (Path base) ≠ "" → _candidate_paths base = [as_posix (Path base)].
Proof. intros Hs. unfold _candidate_paths. by rewrite decide_False. Qed.

Lemma candidate_paths_no_suffix (base : string) :
  suffix (Path base) = "" → _candidate_paths base = expanded_candidates base.
Proof. intros Hs. unfold _candidate_paths. by rewrite decide_True. Qed.

(** Outside the first three exits and the PHP heuristic, the resolver is
    the search of the first known candidate of the base path. *)
Lemma resolve_target_general (importer : WorkingFile) (target : string)
    (known_paths : gset string) :
  target ≠ "" →
  startswith "http://" target || startswith "https://" target = false →
  clean target ≠ "" →
  php_heuristic_applies importer (clean target) = false →
  _resolve_target importer target known_paths
  = Ok (first_known (_candidate_paths (base_path importer (clean target)))
          known_paths).
Proof.
  intros Ht Hurl Hc Hphp. unfold _resolve_target.
  by rewrite decide_False, Hurl, decide_False, Hphp.
Qed.

(** When the PHP heuristic applies and the converted specifier has a last
    component, the resolver tries the two PHP candidates in order and then
    falls through to the general resolution. *)
Lemma resolve_target_php_heuristic (importer : WorkingFile) (target : string)
    (known_paths : gset string) :
  target ≠ "" →
  startswith "http://" target || startswith "https://" target = false →
  clean target ≠ "" →
  php_heuristic_applies importer (clean target) = true →
  let php_guess := Path (replace backslash slash (clean target)) in
  name php_guess ≠ "" →
  ∃ first,
    with_suffix php_guess ".php" = Ok first
    ∧ _resolve_target importer target known_paths
      = Ok (match first_known [as_posix first;
                               as_posix (joinpath php_guess "index.php")]
                    known_paths with
            | Some cand => Some cand
            | None =>
                first_known
                  (_candidate_paths (base_path importer (clean target)))
                  known_paths
            end).
Proof.
  intros Ht Hurl Hc Hphp php_guess Hname. unfold _resolve_target.
  rewrite decide_False, Hurl, decide_False, Hphp by done.
  unfold php_candidates. fold php_guess. unfold with_suffix.
  destruct (name php_guess) as [|c nm] eqn:Hnm; [done|].
  eexists. split; [reflexivity|].
  unfold mbind, mret, result_bind, result_ret. cbv beta iota.
  by destruct (first_known _ _).
Qed.

(** The base path of [./foo] ends in the component [foo], which has no
    suffix. *)
Lemma base_path_dot_foo_no_suffix (importer : WorkingFile) :
  suffix (Path (base_path importer "./foo")) = "".
Proof.
  unfold base_path, base_candidate.
  change (if startswith "/" "./foo" then drop1 "./foo" else "./foo") with "./foo".
  set (dir := if decide _ then _ else _).
  assert (well_formed dir) as Hdir.
  { unfold dir. destruct (decide _).
    - apply Path_well_formed.
    - apply parent_well_formed, Path_well_formed. }
  assert (joinpath dir "./foo" = {| root := root dir; tail := tail dir ++ ["foo"] |})
    as -> by done.
  set (p := {| root := root dir; tail := tail dir ++ ["foo"] |}).
  assert (well_formed p) as Hp.
  { destruct Hdir as [Hr Ht]. split; [done|]. simpl.
    apply Forall_app. split; [done|]. by repeat constructor. }
  destruct (split_as_posix p Hp) as (pre & Hsplit & Hpre).
  { simpl. by destruct (tail dir). }
  unfold suffix, name, Path, components. simpl tail at 1. rewrite Hsplit.
  simpl tail. rewrite !filter_app.
  assert (filter (λ x, is_component x = true) ["foo"] = ["foo"]) as -> by done.
  by rewrite !app_assoc, last_last.
Qed.

(** C3, as stated, fails: the base path [src/foo.service] carries a
    suffix that is not one of the seven extensions, yet the expansion
    stops there: the only candidate is the base path itself, and
    [./foo.service] is not resolved to [src/foo.service.ts]. *)
Lemma candidate_paths_unrecognized_suffix_counterexample :
  suffix (Path "src/foo.service") = ".service"
  ∧ (".service" ∉ candidate_exts)
  ∧ _candidate_paths "src/foo.service" = ["src/foo.service"]
  ∧ _candidate_paths "src/foo.service"
    ≠ candidates_by_recognized_extension "src/foo.service"
  ∧ _resolve_target (file_in "src" "a.ts" ".ts") "./foo.service"
      {[ "src/a.ts"; "src/foo.service.ts" ]} = Ok None.
Proof.
  split_and!; [reflexivity| |reflexivity|discriminate|reflexivity].
  by_evaluation.
Qed.

(** C3, amended. A base path whose last component has any suffix, one of
    the seven extensions or not, has itself (normalised) as only
    candidate. Otherwise the candidates are, in order, the base path with
    [.ts], [.tsx], [.js], [.jsx], [.mjs], [.cjs], [.php] appended, then
    [index] with these extensions inside the base path. The general
    resolution returns the first candidate among the scanned paths; in
    particular [./foo] resolves to [foo.ts] beside the importer whenever
    that file is scanned, whatever else is. *)
Theorem candidate_paths_any_suffix (base : string) :
  (suffix (Path base) ≠ "" → _candidate_paths base = [as_posix (Path base)])
  ∧ (suffix (Path base) = "" →
       _candidate_paths base
       = [ base +:+ ".ts"; base +:+ ".tsx"; base +:+ ".js"; base +:+ ".jsx";
           base +:+ ".mjs"; base +:+ ".cjs"; base +:+ ".php";
           as_posix (Path2 base "index.ts"); as_posix (Path2 base "index.tsx");
           as_posix (Path2 base "index.js"); as_posix (Path2 base "index.jsx");
           as_posix (Path2 base "index.mjs"); as_posix (Path2 base "index.cjs");
           as_posix (Path2 base "index.php") ])
  ∧ (∀ importer target known_paths,
       target ≠ "" →
       startswith "http://" target || startswith "https://" target = false →
       clean target ≠ "" →
       php_heuristic_applies importer (clean target) = false →
       ∃ r, _resolve_target importer target known_paths = Ok r
            ∧ first_present
                (_candidate_paths (base_path importer (clean target)))
                known_paths r)
  ∧ (∀ importer known_paths,
       base_path importer "./foo" +:+ ".ts" ∈ known_paths →
       _resolve_target importer "./foo" known_paths
       = Ok (Some (base_path importer "./foo" +:+ ".ts"))).
Proof.
  split_and!.
  - apply candidate_paths_suffix.
  - intros Hs. by rewrite candidate_paths_no_suffix.
  - intros importer target known_paths Ht Hurl Hc Hphp. eexists. split.
    + by apply resolve_target_general.
    + apply first_known_first_present.
  - intros importer known_paths Hts.
    rewrite resolve_target_general; [|done|done|done|].
    + change (clean "./foo") with "./foo".
      rewrite candidate_paths_no_suffix by apply base_path_dot_foo_no_suffix.
      unfold first_known, expanded_candidates. simpl.
      by rewrite bool_decide_eq_true_2.
    + unfold php_heuristic_applies. change (clean "./foo") with "./foo".
      by rewrite andb_false_r.
Qed.

Lemma candidate_paths_any_suffix_witness :
  _candidate_paths "src/foo.ts" = ["src/foo.ts"]
  ∧ _resolve_target (file_in "src" "bar.ts" ".ts") "./foo"
      {[ "src/bar.ts"; "src/foo.js"; "src/foo.ts" ]} = Ok (Some "src/foo.ts").
Proof.
  split.
  - apply (proj1 (candidate_paths_any_suffix "src/foo.ts")). discriminate.
  - apply (proj2 (proj2 (proj2 (candidate_paths_any_suffix "")))
             (file_in "src" "bar.ts" ".ts")).
    by_evaluation.
Defined.

(** ** Parent segments *)

Lemma last_elem_of (l : list string) : l ≠ [] → List.last l "" ∈ l.
Proof.
  intros Hne. rewrite (app_removelast_last "" Hne) at 2.
  apply elem_of_app. right. by left.
Qed.

Lemma elem_of_removelast_or_last (l : list string) (x : string) :
  x ∈ l → x ∈ removelast l ∨ x = List.last l "".
Proof.
  intros Hx. assert (l ≠ []) as Hne by (by eapply elem_of_nonempty).
  rewrite (app_removelast_last "" Hne) in Hx.
  apply elem_of_app in Hx as [Hx|Hx]; [by left|right].
  by apply list_elem_of_singleton in Hx.
Qed.

Lemma dotdot_piece_as_posix (p : PurePath) :
  well_formed p → ".." ∈ tail p → dotdot_piece (as_posix p).
Proof.
  intros Hwf Hin. exists "..". split; [|done].
  by apply elem_of_split_as_posix.
Qed.

(** Replacing the last component of a path that has a parent segment:
    either the segment stays, or it was the last component and the new
    one is given. *)
Lemma dotdot_piece_replace_last (p : PurePath) (nm : string) :
  well_formed p → ".." ∈ tail p → contains slash nm = false →
  (List.last (tail p) "" = ".." → startswith ".." nm = true) →
  dotdot_piece (as_posix {| root := root p; tail := removelast (tail p) ++ [nm] |}).
Proof.
  intros [Hr Ht] Hin Hnm Hlast.
  assert (well_formed {| root := root p; tail := removelast (tail p) ++ [nm] |})
    as Hwf'.
  { split; [done|]. simpl. apply Forall_app. split.
    - by apply Forall_removelast.
    - by repeat constructor. }
  apply elem_of_removelast_or_last in Hin as [Hin|Hin].
  - apply dotdot_piece_as_posix; [done|]. simpl. apply elem_of_app. by left.
  - exists nm. split; [|by apply Hlast].
    apply elem_of_split_as_posix; [done|]. simpl. apply elem_of_app.
    right. by left.
Qed.

Lemma dotdot_in_components (s : string) :
  ".." ∈ split slash s → ".." ∈ components s.
Proof. intros Hin. by apply elem_of_components. Qed.

Lemma joinpath_tail_r (p : PurePath) (s x : string) :
  x ∈ components s → x ∈ tail (joinpath p s).
Proof.
  intros Hx. unfold joinpath. destruct (decide (root_of s = "")); [|done].
  simpl. apply elem_of_app. by right.
Qed.

Lemma joinpath_tail_l (p : PurePath) (s x : string) :
  root_of s = "" → x ∈ tail p → x ∈ tail (joinpath p s).
Proof.
  intros Hs Hx. unfold joinpath. rewrite decide_True by done.
  simpl. apply elem_of_app. by left.
Qed.

Lemma candidate_ext_slash_free (e : string) :
  e ∈ candidate_exts → contains slash e = false ∧ root_of ("index" +:+ e) = "".
Proof.
  unfold candidate_exts. rewrite !elem_of_cons, elem_of_nil.
  intros [->|[->|[->|[->|[->|[->|[->|[]]]]]]]]; by split.
Qed.

(** Every candidate built from a base path with a parent segment has a
    piece that begins with two dots. *)
Lemma candidate_paths_dotdot (p : PurePath) (cand : string) :
  well_formed p → ".." ∈ tail p →
  cand ∈ _candidate_paths (as_posix p) → dotdot_piece cand.
Proof.
  intros Hwf Hin.
  assert (".." ∈ components (as_posix p)) as Hcomp
    by (by apply dotdot_in_components, elem_of_split_as_posix).
  unfold _candidate_paths.
  destruct (decide (suffix (Path (as_posix p)) = "")) as [_|_].
  - intros [Hc|Hc]%elem_of_app;
      apply list_elem_of_fmap in Hc as (e & -> & [He Hidx]%candidate_ext_slash_free).
    + rewrite as_posix_app_ext by (by eapply elem_of_nonempty).
      apply dotdot_piece_replace_last; [done|done| |].
      * rewrite contains_app, He, orb_false_r.
        destruct Hwf as [_ Ht]. rewrite Forall_forall in Ht. apply Ht.
        apply last_elem_of. by eapply elem_of_nonempty.
      * intros ->. apply (startswith_app ".." e).
    + apply dotdot_piece_as_posix.
      * apply joinpath_well_formed, Path_well_formed.
      * by apply joinpath_tail_l.
  - intros ->%list_elem_of_singleton.
    apply dotdot_piece_as_posix; [apply Path_well_formed|done].
Qed.

Lemma rpartition_dot_app (s a b : string) :
  rpartition_dot s = Some (a, b) → s = a +:+ b.
Proof.
  revert a b. induction s as [|c s IH]; intros a b; simpl; [done|].
  destruct (rpartition_dot s) as [[a' b']|].
  - intros [= <- <-]. by rewrite app_String, <- (IH a' b').
  - destruct (decide (c = dot)); [|done]. by intros [= <- <-].
Qed.

Lemma stem_of_sep_free (c : ascii) (nm : string) :
  contains c nm = false → contains c (stem_of nm) = false.
Proof.
  intros Hnm. unfold stem_of.
  destruct (rpartition_dot nm) as [[a b]|] eqn:Hp; [|done].
  apply rpartition_dot_app in Hp. subst nm.
  pose proof Hnm as Hab.
  rewrite contains_app in Hnm. apply orb_false_elim in Hnm as [Ha _].
  by destruct a as [|? ?], b as [|? [|? ?]].
Qed.

(** From a cleaned specifier with a parent segment, the PHP heuristic does
    not raise, and both its candidates have a piece that begins with two
    dots. *)
Lemma php_candidates_dotdot (cleaned : string) :
  ".." ∈ split slash cleaned →
  ∃ cands, php_candidates cleaned = Ok cands
           ∧ ∀ cand, cand ∈ cands → dotdot_piece cand.
Proof.
  intros Hin. unfold php_candidates.
  set (php_guess := Path (replace backslash slash cleaned)).
  assert (well_formed php_guess) as Hwf by apply Path_well_formed.
  assert (".." ∈ tail php_guess) as Htail.
  { apply dotdot_in_components, elem_of_split_replace; done. }
  assert (tail php_guess ≠ []) as Hne
    by (by eapply elem_of_nonempty).
  pose proof (last_elem_of _ Hne) as Hlast.
  unfold with_suffix, name.
  destruct (List.last (tail php_guess) "") as [|c nm] eqn:Hname.
  { apply list_elem_of_filter in Hlast as [Hlast _]. done. }
  simpl. eexists. split; [done|].
  intros cand [->|[->|[]%elem_of_nil]%elem_of_cons]%elem_of_cons.
  - apply (dotdot_piece_replace_last php_guess
             (stem_of (String c nm) +:+ ".php")); [done|done| |].
    + rewrite contains_app, orb_false_r. apply stem_of_sep_free.
      destruct Hwf as [_ Ht]. rewrite Forall_forall in Ht. by apply Ht.
    + rewrite Hname. by intros ->.
  - apply dotdot_piece_as_posix; [by apply joinpath_well_formed|].
    by apply joinpath_tail_l.
Qed.

Lemma base_candidate_dotdot (importer : WorkingFile) (cleaned : string) :
  ".." ∈ split slash cleaned →
  well_formed (base_candidate importer cleaned)
  ∧ ".." ∈ tail (base_candidate importer cleaned).
Proof.
  intros Hin. unfold base_candidate. split.
  - apply joinpath_well_formed. destruct (decide _).
    + apply Path_well_formed.
    + apply parent_well_formed, Path_well_formed.
  - apply joinpath_tail_r, dotdot_in_components.
    destruct (startswith "/" cleaned) eqn:Hroot; [|done].
    destruct cleaned as [|c cleaned]; [done|]. simpl in Hroot.
    destruct (decide ("/"%char = c)) as [<-|]; [|done].
    change (String "/" cleaned) with (String slash cleaned) in Hin.
    rewrite split_sep_cons in Hin.
    by apply elem_of_cons in Hin as [?|?].
Qed.

(** C10, as stated, fails: from [src/a.ts] the specifier [..] has the base
    path [src/..], which has no suffix, so the first candidate is the base
    path with [.ts] appended, [src/...ts]; that is a normalised relative
    path without parent segment, and when it is among the scanned paths
    the resolver returns it. *)
Lemma resolve_target_parent_segment_counterexample :
  let importer := file_in "src" "a.ts" ".ts" in
  let known_paths : gset string := {[ "src/a.ts"; "src/...ts" ]} in
  ".." ∈ split slash (clean "..")
  ∧ (∀ p, p ∈ known_paths →
       as_posix (Path p) = p ∧ root (Path p) = "" ∧ ".." ∉ split slash p)
  ∧ _resolve_target importer ".." known_paths = Ok (Some "src/...ts").
Proof.
  simpl. split_and!; [by left| |reflexivity].
  intros p Hp.
  assert (p = "src/a.ts" ∨ p = "src/...ts") as [-> | ->] by set_solver;
    (split_and!; [reflexivity|reflexivity|]);
    by_evaluation.
Qed.

(** C10, amended. When the cleaned specifier has a parent segment and no
    scanned path has a piece between slashes that begins with two dots
    (neither a parent segment nor a name such as [...ts]), the resolver
    returns unresolved, and does not raise. *)
Theorem resolve_target_parent_segment_unresolved (importer : WorkingFile)
    (target : string) (known_paths : gset string) :
  ".." ∈ split slash (clean target) →
  (∀ p, p ∈ known_paths → ¬ dotdot_piece p) →
  _resolve_target importer target known_paths = Ok None.
Proof.
  intros Hin Hknown. unfold _resolve_target.
  destruct (decide (target = "")); [done|].
  destruct (_ || _); [done|].
  destruct (decide (clean target = "")); [done|].
  assert (∀ cands, (∀ cand, cand ∈ cands → dotdot_piece cand) →
            first_known cands known_paths = None) as Hnone.
  { intros cands Hc. apply first_known_None. intros cand Hcand Hk.
    by apply (Hknown cand Hk), Hc. }
  destruct (base_candidate_dotdot importer (clean target) Hin) as [Hwf Htail].
  assert (first_known (_candidate_paths (base_path importer (clean target)))
            known_paths = None) as Hgeneral.
  { apply Hnone. intros cand. by apply candidate_paths_dotdot. }
  destruct (php_heuristic_applies importer (clean target)); simpl.
  - destruct (php_candidates_dotdot (clean target) Hin) as (cands & -> & Hc).
    simpl. by rewrite (Hnone cands Hc), Hgeneral.
  - by rewrite Hgeneral.
Qed.

Lemma resolve_target_parent_segment_unresolved_witness :
  _resolve_target (file_in "src" "a.ts" ".ts") "../b"
    {[ "src/a.ts"; "b.ts" ]} = Ok None.
Proof.
  apply resolve_target_parent_segment_unresolved.
  - by_evaluation.
  - intros p Hp (x & Hx & Hdots).
    assert (p = "src/a.ts" ∨ p = "b.ts") as [-> | ->] by set_solver.
    + change (split slash "src/a.ts") with ["src"; "a.ts"] in Hx.
      revert Hx. rewrite !elem_of_cons, elem_of_nil.
      intros [->|[->|[]]]; discriminate Hdots.
    + change (split slash "b.ts") with ["b.ts"] in Hx.
      revert Hx. rewrite !elem_of_cons, elem_of_nil.
      intros [->|[]]; discriminate Hdots.
Defined.

(** ** The loops of [run] *)

Lemma for_each_invariant {A S : Type} (P : S → Prop) (body : S → A → result S)
    (l : list A) (st st' : S) :
  (∀ s x s', x ∈ l → P s → body s x = Ok s' → P s') →
  P st → for_each body st l = Ok st' → P st'.
Proof.
  revert st. induction l as [|x l IH]; intros st Hstep Hst Hrun; simpl in Hrun.
  { by injection Hrun as <-. }
  destruct (body st x) as [s1|] eqn:Hbody; [|done].
  apply (IH s1); [|by eapply Hstep; [left|..]|done].
  intros s y s' Hy. apply Hstep. by right.
Qed.

(** What the resolver returns is one of the scanned paths it was given. *)
Lemma resolve_target_known (importer : WorkingFile) (target : string)
    (known_paths : gset string) (resolved : string) :
  _resolve_target importer target known_paths = Ok (Some resolved) →
  resolved ∈ known_paths.
Proof.
  unfold _resolve_target. intros H.
  destruct (decide (target = "")); [done|].
  destruct (_ || _); [done|].
  destruct (decide (clean target = "")); [done|].
  destruct (php_heuristic_applies importer (clean target)).
  - destruct (php_candidates (clean target)) as [cands|]; [|done].
    simpl in H. destruct (first_known cands known_paths) as [c|] eqn:Hc.
    + injection H as <-. by apply first_known_Some in Hc as [_ ?].
    + injection H as H. by apply first_known_Some in H as [_ ?].
  - simpl in H. injection H as H. by apply first_known_Some in H as [_ ?].
Qed.

Section RunInvariant.

Context (env : Env) (known_files : gmap string string)
  (scanned : list WorkingFile).

Let hashes_agree (fh : gmap string Hashes) : Prop :=
  ∀ p h, fh !! p = Some h → h = get_path_hashes env p.

Lemma target_hashes_spec (fh : gmap string Hashes) (resolved : string) :
  hashes_agree fh →
  (target_hashes env fh resolved).1 = get_path_hashes env resolved
  ∧ hashes_agree (target_hashes env fh resolved).2
  ∧ (∀ p, is_Some (fh !! p) → is_Some ((target_hashes env fh resolved).2 !! p)).
Proof.
  intros Hfh. unfold target_hashes.
  destruct (fh !! resolved) as [h|] eqn:Hr; simpl.
  - split_and!; [by apply Hfh|done|done].
  - split_and!; [done| |].
    + intros p h. destruct (decide (resolved = p)) as [->|Hne].
      * rewrite lookup_insert_eq. by intros [= <-].
      * rewrite lookup_insert_ne by done. apply Hfh.
    + intros p Hp. destruct (decide (resolved = p)) as [->|Hne].
      * by rewrite lookup_insert_eq.
      * by rewrite lookup_insert_ne.
Qed.

Lemma initial_hashes_spec (l : list WorkingFile) (fh : gmap string Hashes) :
  hashes_agree fh →
  let fh' := foldl (fun fh wf =>
    <[rel_path wf := get_path_hashes env (rel_path wf)]> fh) fh l in
  hashes_agree fh'
  ∧ (∀ p, is_Some (fh !! p) → is_Some (fh' !! p))
  ∧ (∀ wf, wf ∈ l → is_Some (fh' !! rel_path wf)).
Proof.
  revert fh. induction l as [|wf l IH]; intros fh Hfh; simpl.
  { split_and!; [done|done|]. by intros wf Hwf%elem_of_nil. }
  destruct (IH (<[rel_path wf := get_path_hashes env (rel_path wf)]> fh))
    as (Hagree & Hkeep & Hnew).
  { intros p h. destruct (decide (rel_path wf = p)) as [<-|Hne].
    - rewrite lookup_insert_eq. by intros [= <-].
    - rewrite lookup_insert_ne by done. apply Hfh. }
  split_and!; [done| |].
  - intros p Hp. apply Hkeep. destruct (decide (rel_path wf = p)) as [<-|Hne].
    + by rewrite lookup_insert_eq.
    + by rewrite lookup_insert_ne.
  - intros wf' [->|Hwf']%elem_of_cons; [|by apply Hnew].
    apply Hkeep. by rewrite lookup_insert_eq.
Qed.

Lemma initial_state_invariant :
  run_invariant env known_files scanned (initial_state env scanned).
Proof.
  destruct (initial_hashes_spec scanned ∅) as (Hagree & _ & Hnew).
  { intros p h. by rewrite lookup_empty. }
  split; simpl; try done.
  - intros k. rewrite elem_of_nil. set_solver.
  - constructor.
  - by intros e Hwf%elem_of_nil.
  - by intros r Hwf%elem_of_nil.
Qed.

Lemma add_import_invariant (wf : WorkingFile) (target : string)
    (st st' : RunState) :
  wf ∈ scanned →
  is_Some (known_files !! merge_hash (get_path_hashes env (rel_path wf))) →
  run_invariant env known_files scanned st →
  add_import env known_files (list_to_set (rel_path <$> scanned)) wf
    (get_path_hashes env (rel_path wf)) st target = Ok st' →
  run_invariant env known_files scanned st'.
Proof.
  intros Hwf Hsrc [Hagree Hsc Hkeys Hnodup Hedges Hrows]. unfold add_import.
  destruct (_resolve_target _ _ _) as [[resolved|]|] eqn:Hres; simpl;
    [|by intros [= <-]|done].
  apply resolve_target_known, elem_of_list_to_set in Hres.
  destruct (target_hashes_spec (file_hashes st) resolved Hagree)
    as (Htgt & Hagree' & Hkeep).
  destruct (target_hashes env (file_hashes st) resolved) as [tgt fh].
  simpl in Htgt, Hagree', Hkeep. subst tgt.
  assert (∀ wf', wf' ∈ scanned → is_Some (fh !! rel_path wf')) as Hsc'
    by (intros wf' Hwf'; by apply Hkeep, Hsc).
  destruct resolved as [|c resolved']; [by intros [= <-]|].
  set (resolved := String c resolved') in *.
  destruct (decide (known_files !! _ = None)) as [|Hdst]; [by intros [= <-]|].
  destruct (decide (_ ∈ import_keys st)) as [|Hfresh]; intros [= <-];
    [done|].
  split; simpl; try done.
  - intros k. rewrite elem_of_union, elem_of_singleton, fmap_app, elem_of_app.
    rewrite Hkeys. simpl. by rewrite list_elem_of_singleton.
  - rewrite fmap_app. simpl. apply NoDup_app.
    split_and!; [done| |apply NoDup_singleton].
    intros k Hk ->%list_elem_of_singleton. by apply Hfresh, Hkeys.
  - intros e [He|He%list_elem_of_singleton]%elem_of_app; [by apply Hedges|].
    subst e.
    exists wf, resolved. split_and!; try done.
    simpl. by apply not_eq_None_Some.
Qed.

Lemma process_file_invariant (wf : WorkingFile) (st st' : RunState) :
  wf ∈ scanned →
  run_invariant env known_files scanned st →
  process_file env known_files (list_to_set (rel_path <$> scanned)) st wf
    = Ok st' →
  run_invariant env known_files scanned st'.
Proof.
  intros Hwf Hinv. unfold process_file.
  destruct (file_hashes st !! rel_path wf) as [hashes|] eqn:Hh; [|done].
  apply (inv_hashes _ _ _ _ Hinv) in Hh as ->.
  destruct (decide (known_files !! _ = None)) as [|Hsrc]; [by intros [= <-]|].
  apply not_eq_None_Some in Hsrc.
  destruct (_extract_imports env wf) as [targets|]; [simpl|done].
  apply for_each_invariant.
  - intros s target s' _. by apply add_import_invariant.
  - destruct Hinv as [Hagree Hsc Hkeys Hnodup Hedges Hrows].
    split; simpl; try done.
    intros r [Hr|Hr%list_elem_of_singleton]%elem_of_app; [by apply Hrows|].
    subst r.
    by exists wf.
Qed.

End RunInvariant.

Lemma store_calls_imports (st : RunState) (rows : list ImportEdge) :
  index_imports rows ∈ store_calls st → rows = relations st.
Proof.
  unfold store_calls. intros [Hin|Hin]%elem_of_app.
  - destruct (keywords_rows st); [by apply elem_of_nil in Hin|].
    by apply list_elem_of_singleton in Hin.
  - destruct (relations st); [by apply elem_of_nil in Hin|].
    apply list_elem_of_singleton in Hin. by injection Hin.
Qed.

Lemma store_calls_keywords (st : RunState) (rows : list KeywordRow) :
  set_file_keywords rows ∈ store_calls st → rows = keywords_rows st.
Proof.
  unfold store_calls. intros [Hin|Hin]%elem_of_app.
  - destruct (keywords_rows st); [by apply elem_of_nil in Hin|].
    apply list_elem_of_singleton in Hin. by injection Hin.
  - destruct (relations st); [by apply elem_of_nil in Hin|].
    by apply list_elem_of_singleton in Hin.
Qed.

(** A run that returns has kept the invariant up to its final state. *)
Lemma run_Ok_invariant (env : Env) (self : DependencyDriller)
    (summary : Summary) (calls : list StoreCall) :
  run env self = Ok (summary, calls) →
  ∃ st, run_invariant env (_load_known_files env)
          (_iter_working_files env self) st
        ∧ calls = store_calls st
        ∧ summary = {| imports := length (relations st);
                       keyworded_files := length (keywords_rows st) |}.
Proof.
  unfold run. set (known := _load_known_files env).
  set (scanned := _iter_working_files env self).
  pose proof (initial_state_invariant env known scanned) as Hinit.
  destruct (decide (known = ∅)).
  { intros [= <- <-]. by exists (initial_state env scanned). }
  destruct scanned as [|wf0 scanned'] eqn:Hscanned.
  { intros [= <- <-]. by exists (initial_state env []). }
  rewrite <- Hscanned in *. clear Hscanned.
  destruct (for_each _ _ _) as [st|] eqn:Hloop; [|done].
  intros [= <- <-]. exists st. split_and!; [|done..].
  revert Hloop. apply for_each_invariant; [|done].
  intros s wf s' Hwf. by apply process_file_invariant.
Qed.

(** The run on the two files that import each other. *)
Lemma run_env_ab :
  run env_ab (driller env_ab)
  = Ok ({| imports := 2; keyworded_files := 2 |}, calls_ab).
Proof. vm_compute. reflexivity. Qed.

(** C1, as stated, fails: [a.ts] imports [./b] and [b.ts] imports [./a],
    both files are known, and the run hands two edges over the same pair
    of identities to the store, one in each direction. *)
Lemma run_dedup_unordered_counterexample :
  run env_ab (driller env_ab)
  = Ok ({| imports := 2; keyworded_files := 2 |}, calls_ab)
  ∧ index_imports [edge_a_b; edge_b_a] ∈ calls_ab
  ∧ ¬ deduplicated_unordered [edge_a_b; edge_b_a].
Proof.
  split_and!; [exact run_env_ab|right; left|].
  intros Hdedup.
  assert (0 = 1) as Habs; [|discriminate Habs].
  apply (Hdedup 0 1 edge_a_b edge_b_a); [done|done|]. by right.
Qed.

(** C4. Every edge that a run hands to the store has the merge hashes of
    its source and of its target among the known files loaded at the
    start, and so has every keyword row; and in the loop over the targets,
    a specifier that resolves to a scanned path whose merge hash is not
    known raises nothing and leaves the edges as they were. *)
Theorem run_references_known_files (env : Env) (self : DependencyDriller) :
  let known_files := _load_known_files env in
  let working_paths : gset string :=
    list_to_set (rel_path <$> _iter_working_files env self) in
  (∀ summary calls, run env self = Ok (summary, calls) →
     (∀ rows e, index_imports rows ∈ calls → e ∈ rows →
        is_Some (known_files !! src_merge_hash e)
        ∧ is_Some (known_files !! dst_merge_hash e))
     ∧ (∀ rows r, set_file_keywords rows ∈ calls → r ∈ rows →
          is_Some (known_files !! kw_merge_hash r)))
  ∧ (∀ wf hashes st target resolved,
       _resolve_target wf target working_paths = Ok (Some resolved) →
       known_files
         !! merge_hash (target_hashes env (file_hashes st) resolved).1 = None →
       ∃ st', add_import env known_files working_paths wf hashes st target
                = Ok st'
              ∧ relations st' = relations st
              ∧ import_keys st' = import_keys st
              ∧ keywords_rows st' = keywords_rows st).
Proof.
  simpl. split.
  - intros summary calls (st & Hinv & -> & _)%run_Ok_invariant. split.
    + intros rows e ->%store_calls_imports He.
      by destruct (inv_edges _ _ _ _ Hinv e He) as (? & ? & ? & ? & ? & ? & ?).
    + intros rows r ->%store_calls_keywords Hr.
      by destruct (inv_rows _ _ _ _ Hinv r Hr) as (? & ? & ? & ?).
  - intros wf hashes st target resolved Hres Hunknown. unfold add_import.
    rewrite Hres. simpl. destruct resolved as [|c resolved']; [by eexists|].
    destruct (target_hashes _ _ _) as [tgt fh]. simpl in Hunknown.
    rewrite decide_True by done. by eexists.
Qed.

Lemma run_references_known_files_witness :
  is_Some (_load_known_files env_ab !! src_merge_hash edge_a_b)
  ∧ is_Some (_load_known_files env_ab !! dst_merge_hash edge_a_b).
Proof.
  apply (proj1 (proj1 (run_references_known_files env_ab (driller env_ab))
                  {| imports := 2; keyworded_files := 2 |} calls_ab
                  ltac:(vm_compute; reflexivity))
           [edge_a_b; edge_b_a] edge_a_b).
  - right. left.
  - left.
Defined.

(** With only [a.ts] known, its import of [./b] resolves to a scanned file
    that the store does not know: one keyword row, no edge, no error. *)
Example run_unknown_target :
  run env_a_only (driller env_a_only)
  = Ok ({| imports := 0; keyworded_files := 1 |},
        [ set_file_keywords
            [ {| kw_merge_hash := "m:a.ts"; kw_hash := "h:a.ts";
                 keywords := ["a"; "ts"] |} ] ]).
Proof. vm_compute. reflexivity. Qed.

(** ** The tree scanner *)

Lemma Entry_nested_ind (P : Entry → Prop) :
  (∀ n, P (File n)) →
  (∀ n listing, Forall P listing → P (Dir n listing)) →
  ∀ e, P e.
Proof.
  intros Hfile Hdir. fix IH 1. intros [n|n listing]; [apply Hfile|].
  apply Hdir. induction listing as [|e listing IHl]; constructor.
  - apply IH.
  - apply IHl.
Qed.

(** One inclusion pattern that matches is enough when no negation
    matches. *)
Lemma match_file_not_negated (patterns : list Pattern) (file : string) :
  (∀ pat, pat ∈ patterns → include pat = Some false →
     matches pat file = false) →
  (∃ pat, pat ∈ patterns ∧ include pat = Some true ∧ matches pat file = true) →
  match_file patterns file = true.
Proof.
  unfold match_file. intros Hneg Hmatch.
  assert (∀ out, out = true
            ∨ (∃ pat, pat ∈ patterns ∧ include pat = Some true
                      ∧ matches pat file = true) →
          foldl (fun out p =>
                   match include p with
                   | Some inc => if matches p file then inc else out
                   | None => out
                   end) out patterns = true) as Hfold; [|by apply Hfold; right].
  clear Hmatch. induction patterns as [|pat patterns IH]; intros out Hout; simpl.
  { destruct Hout as [?|(? & []%elem_of_nil & _)]. done. }
  apply IH.
  { intros pat' Hpat'. apply Hneg. by right. }
  destruct Hout as [->|(pat' & [->|Hin]%elem_of_cons & Hinc & Hm)].
  - left. destruct (include pat) as [[|]|] eqn:Hinc; [by destruct (matches _ _)| |done].
    by rewrite (Hneg pat) by (done || by left).
  - left. by rewrite Hinc, Hm.
  - right. by exists pat'.
Qed.

Section Scanner.

Context (env : Env) (self : DependencyDriller).

Lemma scan_files_not_ignored (dirpath : PurePath) (rel_dir : string)
    (listing : list Entry) (wf : WorkingFile) :
  wf ∈ scan_files self dirpath rel_dir listing →
  _should_ignore self (rel_path wf) = false.
Proof.
  unfold scan_files. intros (e & Hwf & _)%list_elem_of_bind.
  destruct e as [filename|]; [|by apply elem_of_nil in Hwf].
  destruct (_should_ignore self _) eqn:Hignore; [by apply elem_of_nil in Hwf|].
  destruct (decide _); [|by apply elem_of_nil in Hwf].
  by apply list_elem_of_singleton in Hwf as ->.
Qed.

(** Every file that the scanner yields has passed the ignore test. *)
Lemma walk_not_ignored (e : Entry) :
  ∀ dirpath rel wf,
    wf ∈ walk self dirpath rel e → _should_ignore self (rel_path wf) = false.
Proof.
  induction e as [n|n listing IH] using Entry_nested_ind;
    intros dirpath rel wf; simpl.
  { by intros ?%elem_of_nil. }
  rewrite Forall_forall in IH.
  intros [Hwf|Hwf]%elem_of_app; [by eapply scan_files_not_ignored|].
  apply list_elem_of_In, in_flat_map in Hwf as (sub & Hsub & Hwf).
  apply list_elem_of_In in Hsub, Hwf.
  destruct sub as [|d sublisting]; [by apply elem_of_nil in Hwf|].
  destruct (_should_ignore self _); [by apply elem_of_nil in Hwf|].
  by eapply IH.
Qed.

End Scanner.

(** With the default lines compiled as documented, a normal path with a
    default-excluded component that no negation line matches is ignored. *)
Lemma default_component_ignored (env : Env) (ignore_file : option (list string))
    (root : PurePath) (n p : string) :
  default_names_compiled env → not_reincluded env ignore_file p →
  n ∈ DEFAULT_IGNORES → n ∈ split slash p → normal_path p →
  _should_ignore
    {| repo_root := root; ignore_spec := _build_ignore_spec env ignore_file |} p
  = true.
Proof.
  intros Hlib Hneg Hn Hp Hnormal. unfold _should_ignore, _build_ignore_spec.
  cbn [ignore_spec]. cbv zeta.
  apply match_file_not_negated.
  - intros pat (line & -> & Hline)%list_elem_of_fmap.
    rewrite <- !app_assoc in Hline.
    apply elem_of_app in Hline as [Hline|Hline].
    { apply list_elem_of_fmap in Hline as (m & -> & Hm).
      destruct (Hlib m Hm) as (_ & Hdir & _). by rewrite Hdir. }
    apply elem_of_app in Hline as [Hline|Hline].
    { destruct (Hlib line Hline) as (Hbare & _). by rewrite Hbare. }
    by apply Hneg.
  - exists (gitwildmatch env n). destruct (Hlib n Hn) as (Hbare & _ & Hmatch).
    split_and!; [|done|by apply Hmatch].
    apply list_elem_of_fmap. exists n. split; [done|].
    apply elem_of_app. left. apply elem_of_app. left. apply elem_of_app. by right.
Qed.

(** C9, as stated, fails: with the lines [!node_modules] and
    [!node_modules/] in the repository's [.gitignore], the last matching
    pattern for [node_modules] and for what is under it is a negation, the
    directory is not pruned, and [node_modules/x.ts] is yielded by the
    scanner and gets a keyword row. *)
Lemma default_ignored_reincluded_counterexample :
  let file := file_in "node_modules" "x.ts" ".ts" in
  "node_modules" ∈ DEFAULT_IGNORES
  ∧ "node_modules" ∈ split slash (rel_path file)
  ∧ gitignore env_reinclude = Some ["!node_modules"; "!node_modules/"]
  ∧ file ∈ _iter_working_files env_reinclude (driller env_reinclude)
  ∧ ∃ summary rows edges,
      run env_reinclude (driller env_reinclude)
      = Ok (summary, [set_file_keywords rows; index_imports edges])
      ∧ keyword_row_of env_reinclude file ∈ rows.
Proof.
  simpl. split_and!; [| |done| |].
  - by_evaluation.
  - by left.
  - vm_compute. do 2 right. left.
  - eexists _, _, _. split; [vm_compute; reflexivity|].
    vm_compute. do 2 right. left.
Qed.

(** C9, amended. Provided that [pathspec] compiles the default names as
    documented, a file whose relative path (a normal path) has a component
    equal to a default-excluded name, and is matched by no negation line
    of the repository's [.gitignore] or of the extra ignore file, is never
    yielded by the scanner, and every edge and every keyword row of a run
    is built from other paths. Negation lines that match no such path
    leave this as it is. *)
Theorem default_ignored_never_scanned (env : Env)
    (ignore_file : option (list string)) (root : PurePath) (n p : string) :
  default_names_compiled env → not_reincluded env ignore_file p →
  n ∈ DEFAULT_IGNORES → n ∈ split slash p → normal_path p →
  let self :=
    {| repo_root := root; ignore_spec := _build_ignore_spec env ignore_file |} in
  (∀ wf, wf ∈ _iter_working_files env self → rel_path wf ≠ p)
  ∧ ∀ summary calls, run env self = Ok (summary, calls) →
      (∀ rows e, index_imports rows ∈ calls → e ∈ rows →
         ∃ src dst, src ≠ p ∧ dst ≠ p ∧ e = edge_between env src dst)
      ∧ (∀ rows r, set_file_keywords rows ∈ calls → r ∈ rows →
           ∃ wf, rel_path wf ≠ p ∧ r = keyword_row_of env wf).
Proof.
  intros Hlib Hneg Hn Hp Hnormal self.
  assert (∀ wf, wf ∈ _iter_working_files env self → rel_path wf ≠ p) as Hscan.
  { intros wf Hwf%walk_not_ignored Heq. rewrite Heq in Hwf.
    unfold self in Hwf.
    by rewrite (default_component_ignored env ignore_file root n p) in Hwf. }
  split; [done|].
  intros summary calls (st & Hinv & -> & _)%run_Ok_invariant. split.
  - intros rows e ->%store_calls_imports He.
    destruct (inv_edges _ _ _ _ Hinv e He) as (wf & q & Hwf & Hq & -> & _).
    apply list_elem_of_fmap in Hq as (wf' & -> & Hwf').
    exists (rel_path wf), (rel_path wf'). split_and!; [by apply Hscan..|done].
  - intros rows r ->%store_calls_keywords Hr.
    destruct (inv_rows _ _ _ _ Hinv r Hr) as (wf & Hwf & -> & _).
    exists wf. split; [by apply Hscan|done].
Qed.

Lemma plain_gitwildmatch_default_names (tree : list Entry)
    (known : list string) (ignore_lines : option (list string))
    (read : PurePath → result string) :
  default_names_compiled (make_env tree known ignore_lines read).
Proof.
  intros n Hn. unfold DEFAULT_IGNORES in Hn.
  repeat (apply elem_of_cons in Hn as [->|Hn];
          [split_and!; [reflexivity|reflexivity|];
           intros p _ Hp; by apply bool_decide_eq_true_2|]).
  by apply elem_of_nil in Hn.
Qed.

(** The repository's [.gitignore] has two negation lines, neither of
    which matches [node_modules/x.ts]. *)
Lemma default_ignored_never_scanned_witness :
  let env := make_env tree_ab ["a.ts"; "b.ts"] (Some ["!keep"; "!docs/"])
               contents in
  Forall (λ wf, rel_path wf ≠ "node_modules/x.ts")
    (_iter_working_files env (driller env)).
Proof.
  intros env. apply Forall_forall.
  apply (default_ignored_never_scanned env None (Path "/repo")
           "node_modules" "node_modules/x.ts").
  - apply plain_gitwildmatch_default_names.
  - intros line Hline _. cbn in Hline.
    repeat (apply elem_of_cons in Hline as [->|Hline]; [reflexivity|]).
    by apply elem_of_nil in Hline.
  - by_evaluation.
  - by left.
  - split; [reflexivity|]. intros x Hx. cbn in Hx.
    repeat (apply elem_of_cons in Hx as [->|Hx]; [reflexivity|]).
    by apply elem_of_nil in Hx.
Defined.

(** ** The keyword extractor *)

Lemma lower_char_idem (c : ascii) : lower_char (lower_char c) = lower_char c.
Proof. destruct c as [[] [] [] [] [] [] [] []]; reflexivity. Qed.

Lemma lower_idem (s : string) : lower (lower s) = lower s.
Proof.
  induction s as [|c s IH]; simpl; [done|].
  by rewrite lower_char_idem, IH.
Qed.

Lemma add_keyword_dropped (acc : list string) (tok : string) :
  ¬ kept (lower tok) → add_keyword acc tok = acc.
Proof.
  intros Hk. unfold add_keyword.
  destruct (bool_decide (lower tok ∈ STOPWORDS)) eqn:Hs; [done|].
  destruct (bool_decide (lower tok = "")) eqn:He; [done|].
  apply bool_decide_eq_false in Hs, He. by destruct Hk.
Qed.

Lemma add_keyword_kept (acc : list string) (tok : string) :
  kept (lower tok) →
  add_keyword acc tok = if decide (lower tok ∈ acc) then acc else acc ++ [lower tok].
Proof.
  intros [Hs He]. unfold add_keyword.
  rewrite (bool_decide_eq_false_2 _ Hs), (bool_decide_eq_false_2 _ He).
  simpl. rewrite bool_decide_decide. by destruct (decide _).
Qed.

Lemma filter_not_in_nil (l : list string) : filter (λ y, y ∉ []) l = l.
Proof.
  induction l as [|x l IH]; [done|].
  rewrite filter_cons_True by apply not_elem_of_nil. by rewrite IH.
Qed.

(** The loop of the extractor appends, to what it already holds, the first
    occurrences of the kept tokens that it does not hold yet. *)
Lemma foldl_add_keyword (toks acc : list string) :
  foldl add_keyword acc toks
  = acc ++ filter (λ y, y ∉ acc)
             (first_occurrences (filter kept (lower <$> toks))).
Proof.
  revert acc. induction toks as [|t toks IH]; intros acc.
  { cbn. by rewrite app_nil_r. }
  rewrite fmap_cons. cbn [foldl].
  destruct (decide (kept (lower t))) as [Hk|Hk].
  - rewrite add_keyword_kept, (filter_cons_True kept) by done.
    cbn [first_occurrences].
    destruct (decide (lower t ∈ acc)) as [Hin|Hin].
    + rewrite IH. rewrite filter_cons_False by (intros Hn; exact (Hn Hin)).
      f_equal. rewrite list_filter_filter. apply list_filter_iff.
      intros y. split; [|tauto]. intros Hy. split; [exact Hy|].
      intros ->. exact (Hy Hin).
    + rewrite IH. rewrite filter_cons_True by done.
      rewrite <- app_assoc. cbn [app]. do 2 f_equal.
      rewrite list_filter_filter. apply list_filter_iff.
      intros y. rewrite elem_of_app, list_elem_of_singleton. tauto.
  - rewrite add_keyword_dropped, (filter_cons_False kept) by done. apply IH.
Qed.

Lemma foldl_add_keyword_patterns (snippet : string) (pats : list IdentPattern)
    (acc : list string) :
  foldl (fun kws pat => foldl add_keyword kws (findall pat snippet)) acc pats
  = foldl add_keyword acc (pats ≫= fun pat => findall pat snippet).
Proof.
  revert acc. induction pats as [|p pats IH]; intros acc; [done|].
  rewrite bind_cons, foldl_app. simpl. apply IH.
Qed.

Lemma first_occurrences_subseteq (l : list string) : first_occurrences l ⊆ l.
Proof.
  induction l as [|x l IH]; [done|]. simpl.
  intros y [->|Hy]%elem_of_cons; [left|right].
  apply list_elem_of_filter in Hy as [_ Hy]. by apply IH.
Qed.

Lemma first_occurrences_NoDup (l : list string) : NoDup (first_occurrences l).
Proof.
  induction l as [|x l IH]; simpl; [constructor|].
  constructor; [|by apply NoDup_filter].
  rewrite list_elem_of_filter. by intros [? _].
Qed.

Lemma extract_keywords_unfold (env : Env) (file : WorkingFile) :
  _extract_keywords env file
  = take KEYWORD_LIMIT
      (first_occurrences (path_tokens file ++ ident_tokens env file)).
Proof.
  unfold _extract_keywords, path_keywords, path_tokens, ident_tokens.
  rewrite foldl_add_keyword_patterns, <- foldl_app, foldl_add_keyword.
  by rewrite filter_not_in_nil, fmap_app, filter_app.
Qed.

(** Path tokens first, then identifiers pattern by pattern; [src] is a
    stopword in both sources and [file] is kept once. *)
Example keywords_of_source :
  _extract_keywords
    (make_env [] [] None
       (λ _, Ok "class Foo {} function src() {} const File = 1; const a= 2"))
    (file_in "src" "My-File.ts" ".ts")
  = ["my"; "file"; "ts"; "foo"; "a"].
Proof. vm_compute. reflexivity. Qed.

(** C6. The keyword list of a file has at most 20 entries, none repeated,
    none a stopword, none empty, each equal to its own lowercase form; it
    is the first 20 of the first occurrences in the kept path-segment
    tokens followed by the kept identifier tokens, in the order found. *)
Theorem extract_keywords_bounded_ordered (env : Env) (file : WorkingFile) :
  let kws := _extract_keywords env file in
  length kws ≤ 20
  ∧ NoDup kws
  ∧ (∀ k, k ∈ kws → (k ∉ STOPWORDS) ∧ k ≠ "" ∧ lower k = k)
  ∧ kws = take 20 (first_occurrences (path_tokens file ++ ident_tokens env file)).
Proof.
  simpl. rewrite extract_keywords_unfold. unfold KEYWORD_LIMIT.
  split_and!; [|  | |done].
  - rewrite length_take. lia.
  - eauto using sublist_NoDup, sublist_take, first_occurrences_NoDup.
  - intros k Hk%subseteq_take%first_occurrences_subseteq.
    assert (kept k ∧ ∃ t, k = lower t) as [[Hs He] [t ->]].
    { apply elem_of_app in Hk as [Hk|Hk];
        apply list_elem_of_filter in Hk as [Hkept Hk];
        apply list_elem_of_fmap in Hk as (t & -> & _); eauto. }
    by rewrite lower_idem.
Qed.

(** * Further properties of the driller *)

(** ** The scanner *)

Lemma walk_unfold (self : DependencyDriller) (dirpath : PurePath)
    (rel : list string) (n : string) (listing : list Entry) :
  walk self dirpath rel (Dir n listing)
  = scan_files self dirpath (rel_dir_of rel) listing
    ++ flat_map (fun sub =>
         match sub with
         | File _ => []
         | Dir d _ =>
             if _should_ignore self (as_posix (Path2 (rel_dir_of rel) d))
             then []
             else walk self (joinpath dirpath d) (rel ++ [d]) sub
         end) listing.
Proof. reflexivity. Qed.

Lemma elem_of_scan_files (self : DependencyDriller) (dirpath : PurePath)
    (rel : list string) (listing : list Entry) (wf : WorkingFile) :
  wf ∈ scan_files self dirpath (rel_dir_of rel) listing
  ↔ ∃ filename,
      File filename ∈ listing
      ∧ _should_ignore self (rel_path (working_file dirpath rel filename)) = false
      ∧ ext (working_file dirpath rel filename) ∈ SUPPORTED_IMPORT_EXTS
      ∧ wf = working_file dirpath rel filename.
Proof.
  unfold scan_files. rewrite list_elem_of_bind. split.
  - intros ([filename|d sub] & Hwf & He); [|by apply elem_of_nil in Hwf].
    exists filename. simpl.
    destruct (_should_ignore self _) eqn:Hign; [by apply elem_of_nil in Hwf|].
    destruct (decide _) as [Hext|]; [|by apply elem_of_nil in Hwf].
    by apply list_elem_of_singleton in Hwf as ->.
  - intros (filename & He & Hign & Hext & ->). exists (File filename).
    split; [|done]. simpl in Hign, Hext. rewrite Hign, decide_True by done.
    by left.
Qed.

Lemma scan_below (self : DependencyDriller) (e : Entry) :
  ∀ dirpath rel wf,
    wf ∈ walk self dirpath rel e
    ↔ match e with
      | File _ => False
      | Dir _ listing =>
          ∃ dirs filename,
            file_at listing dirs filename
            ∧ not_pruned self rel dirs
            ∧ _should_ignore self
                (rel_path (working_file (foldl joinpath dirpath dirs)
                             (rel ++ dirs) filename)) = false
            ∧ ext (working_file (foldl joinpath dirpath dirs)
                     (rel ++ dirs) filename) ∈ SUPPORTED_IMPORT_EXTS
            ∧ wf = working_file (foldl joinpath dirpath dirs)
                     (rel ++ dirs) filename
      end.
Proof.
  induction e as [n|n listing IH] using Entry_nested_ind; intros dirpath rel wf.
  { simpl. by rewrite elem_of_nil. }
  rewrite Forall_forall in IH. rewrite walk_unfold, elem_of_app. split.
  - intros [Hwf|Hwf].
    + apply elem_of_scan_files in Hwf as (filename & He & Hign & Hext & ->).
      exists [], filename. rewrite app_nil_r. simpl.
      split_and!; [by constructor|done..].
    + apply list_elem_of_In, in_flat_map in Hwf as (sub & Hsub & Hwf).
      apply list_elem_of_In in Hsub, Hwf.
      destruct sub as [|d sublisting]; [by apply elem_of_nil in Hwf|].
      destruct (_should_ignore self _) eqn:Hdir; [by apply elem_of_nil in Hwf|].
      apply (IH _ Hsub) in Hwf
        as (dirs & filename & Hat & Hkeep & Hign & Hext & ->).
      exists (d :: dirs), filename.
      rewrite <- !app_assoc in *. simpl in *.
      split_and!; [by econstructor|done..].
  - intros (dirs & filename & Hat & Hkeep & Hign & Hext & ->).
    inversion Hat as [? ? He|? sub d dirs' ? He Hat']; subst.
    + left. apply elem_of_scan_files. exists filename.
      rewrite app_nil_r in *. by simpl in *.
    + right. destruct Hkeep as [Hdir Hkeep].
      apply list_elem_of_In, in_flat_map. exists (Dir d sub).
      split; [by apply list_elem_of_In|]. rewrite Hdir.
      apply list_elem_of_In, (IH _ He). exists dirs', filename.
      rewrite <- !app_assoc. simpl. by split_and!.
Qed.

(** X1. The scanner yields exactly the files of the working tree whose
    directories all pass the ignore test, that pass it themselves and whose
    lowercased suffix is supported, each with the relative path, the
    absolute path and the lowercased suffix that the loop computes. *)
Theorem iter_working_files_exactly (env : Env) (self : DependencyDriller)
    (wf : WorkingFile) :
  wf ∈ _iter_working_files env self
  ↔ ∃ dirs filename,
      file_at (working_tree env) dirs filename
      ∧ not_pruned self [] dirs
      ∧ _should_ignore self (as_posix (Path2 (rel_dir_of dirs) filename)) = false
      ∧ lower (suffix (Path filename)) ∈ SUPPORTED_IMPORT_EXTS
      ∧ wf = working_file (foldl joinpath (repo_root self) dirs) dirs filename.
Proof. unfold _iter_working_files. by rewrite scan_below. Qed.

(** X2. A directory that fails the ignore test is pruned: whatever it
    holds, the scan of its parent is the same. *)
Theorem pruned_subtree_never_read (self : DependencyDriller)
    (dirpath : PurePath) (rel : list string) (n d : string)
    (before after sub sub' : list Entry) :
  _should_ignore self (as_posix (Path2 (rel_dir_of rel) d)) = true →
  walk self dirpath rel (Dir n (before ++ Dir d sub :: after))
  = walk self dirpath rel (Dir n (before ++ Dir d sub' :: after)).
Proof.
  intros Hign. rewrite !walk_unfold. f_equal.
  - unfold scan_files. by rewrite !bind_app, !bind_cons.
  - rewrite !flat_map_app. simpl. by rewrite Hign.
Qed.

Lemma pruned_subtree_never_read_witness :
  walk (driller env_ab) (Path "/repo") [] (Dir "" tree_ab)
  = walk (driller env_ab) (Path "/repo") []
      (Dir "" ([File "a.ts"; File "b.ts"; File "README.md"]
               ++ Dir "node_modules" [File "y.ts"; Dir "z" [File "w.php"]]
               :: [])).
Proof.
  apply (pruned_subtree_never_read (driller env_ab) (Path "/repo") [] ""
           "node_modules" [File "a.ts"; File "b.ts"; File "README.md"] []).
  reflexivity.
Defined.

(** ** The known files *)

Lemma known_files_step_other (m : gmap string string) (row : FileRow)
    (mh : string) :
  row_merge_hash row ≠ Some mh →
  known_files_step m row !! mh = m !! mh.
Proof.
  intros Hne. unfold known_files_step.
  destruct (row_merge_hash row) as [k|]; [|done].
  destruct (decide (k = "")); [done|].
  apply lookup_insert_ne. by intros ->.
Qed.

Lemma known_files_lookup (rows : list FileRow) (mh h : string) :
  foldl known_files_step ∅ rows !! mh = Some h
  ↔ mh ≠ ""
    ∧ ∃ before row after,
        rows = before ++ row :: after
        ∧ row_merge_hash row = Some mh ∧ row_hash row = h
        ∧ ∀ r, r ∈ after → row_merge_hash r ≠ Some mh.
Proof.
  induction rows as [|last rows IH] using rev_ind.
  { simpl. rewrite lookup_empty. split; [done|].
    intros (_ & before & row & after & Hrows & _). by destruct before. }
  rewrite foldl_snoc.
  destruct (decide (row_merge_hash last = Some mh ∧ mh ≠ "")) as [[Hl Hmh]|Hl].
  - unfold known_files_step at 1. rewrite Hl, decide_False by done.
    rewrite lookup_insert_eq. split.
    + intros [= <-]. split; [done|]. exists rows, last, [].
      split_and!; [done..|]. by intros r Hr%elem_of_nil.
    + intros (_ & before & row & after & Hrows & Hrow & <- & Hafter).
      destruct after as [|a after _] using rev_ind.
      * apply app_inj_tail in Hrows as [_ ->]. done.
      * rewrite app_comm_cons, app_assoc in Hrows.
        apply app_inj_tail in Hrows as [_ ->].
        exfalso. apply (Hafter a); [|done]. apply elem_of_app. right. by left.
  - assert (mh ≠ "" → row_merge_hash last ≠ Some mh) as Hne by tauto.
    split.
    + intros Hlook.
      assert (mh ≠ "") as Hmh.
      { intros ->. unfold known_files_step in Hlook.
        destruct (row_merge_hash last) as [k|]; [destruct (decide (k = ""))|].
        - by apply IH in Hlook as [? _].
        - rewrite lookup_insert_ne in Hlook by done.
          by apply IH in Hlook as [? _].
        - by apply IH in Hlook as [? _]. }
      rewrite known_files_step_other in Hlook by auto.
      apply IH in Hlook as (_ & before & row & after & -> & Hrow & Hh & Hafter).
      split; [done|]. exists before, row, (after ++ [last]).
      rewrite <- app_assoc. split_and!; [done..|].
      intros r [Hr|Hr%list_elem_of_singleton]%elem_of_app; [auto|subst r; auto].
    + intros (Hmh & before & row & after & Hrows & Hrow & Hh & Hafter).
      rewrite known_files_step_other by auto. apply IH. split; [done|].
      destruct after as [|a after _] using rev_ind.
      * apply app_inj_tail in Hrows as [_ ->]. by destruct (Hne Hmh).
      * rewrite app_comm_cons, app_assoc in Hrows.
        apply app_inj_tail in Hrows as [-> ->].
        exists before, row, after. split_and!; [done..|].
        intros r Hr. apply Hafter, elem_of_app. by left.
Qed.

(** X3. The known files map a merge hash to the hash of the last row of
    the query that carries it, and hold no other key: a row without merge
    hash, or with an empty one, is skipped. *)
Theorem load_known_files_last_row (env : Env) (mh h : string) :
  _load_known_files env !! mh = Some h
  ↔ mh ≠ ""
    ∧ ∃ before row after,
        file_rows env = before ++ row :: after
        ∧ row_merge_hash row = Some mh ∧ row_hash row = h
        ∧ ∀ r, r ∈ after → row_merge_hash r ≠ Some mh.
Proof. apply known_files_lookup. Qed.

(** ** The import extractor *)

Lemma Node_nested_ind (P : Node → Prop) :
  (∀ t s e cs, Forall P cs → P (mkNode t s e cs)) → ∀ node, P node.
Proof.
  intros Hnode. fix IH 1. intros [t s e cs]. apply Hnode.
  induction cs as [|c cs IHcs]; constructor.
  - apply IH.
  - apply IHcs.
Qed.

(** A walker that appends [at_node] at every node before it descends is
    the traversal in document order. *)
Lemma walker_preorder (at_node : Node → list string)
    (walker : Node → list string) :
  (∀ t s e cs,
     walker (mkNode t s e cs)
     = at_node (mkNode t s e cs) ++ flat_map walker cs) →
  ∀ node, walker node = preorder node ≫= at_node.
Proof.
  intros Hwalker node.
  induction node as [t s e cs IH] using Node_nested_ind.
  rewrite Hwalker. cbn [preorder]. rewrite bind_cons. f_equal.
  induction IH as [|c cs Hc _ IHcs]; [done|].
  cbn [flat_map]. by rewrite bind_app, Hc, IHcs.
Qed.

(** X4. When the import extractor returns for a file that it has read
    and parsed, it returns what the node rule of the language gives at each
    node of the syntax tree, in document order: a node, then its children
    from left to right. For a language other than the three it returns
    nothing. *)
Theorem extract_imports_document_order (env : Env) (file : WorkingFile)
    (lang : string) (parser : Parser) (code_bytes : string) (root : Node)
    (targets : list string) :
  filename_to_lang env (rel_path file) = Some lang →
  get_language env lang = Ok () →
  get_parser env lang = Ok parser →
  read_bytes env (abs_path file) = Ok code_bytes →
  parser code_bytes = Ok root →
  _extract_imports env file = Ok targets →
  targets
  = if decide (lang = "javascript" ∨ lang = "typescript") then
      preorder root ≫= (λ node, js_like_imports_at env node code_bytes)
    else if decide (lang = "php") then
      preorder root ≫= (λ node, php_imports_at env node code_bytes)
    else [].
Proof.
  intros Hlang Hlanguage Hparser Hread Hparse. unfold _extract_imports.
  rewrite Hlang.
  destruct lang as [|c lang'].
  { intros [= <-]. by repeat (destruct (decide _) as [[|]|]; try done). }
  set (lang := String c lang') in *.
  rewrite Hlanguage. cbn [mbind result_bind]. rewrite Hparser.
  rewrite Hread. cbn [mbind result_bind]. rewrite Hparse.
  cbn [mbind result_bind].
  pose proof (walker_preorder (λ node, js_like_imports_at env node code_bytes)
                (walk_js_like env code_bytes) ltac:(done) root) as Hjs.
  pose proof (walker_preorder (λ node, php_imports_at env node code_bytes)
                (walk_php env code_bytes) ltac:(done) root) as Hphp.
  unfold _extract_js_like_imports, _extract_php_imports.
  destruct (decide (lang = "javascript")) as [Hj|Hj].
  { intros [= <-]. rewrite decide_True by by left. done. }
  destruct (decide (lang = "typescript")) as [Ht|Ht].
  { intros [= <-]. rewrite decide_True by by right. done. }
  rewrite (decide_False (P := lang = "javascript" ∨ lang = "typescript"))
    by (by intros [|]).
  destruct (decide (lang = "php")); by intros [= <-].
Qed.

Lemma extract_imports_document_order_witness :
  ["./b"; "./b"]
  = if decide ("typescript" = "javascript" ∨ "typescript" = "typescript") then
      preorder tree_a ≫= (λ node, js_like_imports_at env_ab node source_a)
    else if decide ("typescript" = "php") then
      preorder tree_a ≫= (λ node, php_imports_at env_ab node source_a)
    else [].
Proof.
  apply (extract_imports_document_order env_ab (file_in "" "a.ts" ".ts")
           "typescript" parser source_a tree_a); reflexivity.
Defined.

(** X5. The import extractor gives the empty list, whether or not the
    file can be read, when the file name has no language or when one of
    the two grammar lookups raises. *)
Theorem extract_imports_soft_failures (env : Env) (file : WorkingFile) :
  (filename_to_lang env (rel_path file) = None →
   _extract_imports env file = Ok [])
  ∧ (∀ lang e,
       filename_to_lang env (rel_path file) = Some lang →
       get_language env lang = Raise e ∨ get_parser env lang = Raise e →
       _extract_imports env file = Ok []).
Proof.
  split.
  - intros Hlang. unfold _extract_imports. by rewrite Hlang.
  - intros lang e Hlang Hlookup. unfold _extract_imports. rewrite Hlang.
    destruct lang as [|c lang']; [done|].
    destruct Hlookup as [-> | Hparser]; [done|].
    destruct (get_language env _) as [[]|]; simpl; [|done].
    by rewrite Hparser.
Qed.

(** ** The resolver *)

Lemma components_nonempty (s : string) : Forall (λ x, x ≠ "") (components s).
Proof.
  apply Forall_forall. intros x [Hx _]%list_elem_of_filter. by intros ->.
Qed.

Lemma app_nonempty_r (s t : string) : t ≠ "" → s +:+ t ≠ "".
Proof. by destruct s. Qed.

Lemma as_posix_nonempty (p : PurePath) :
  Forall (λ x, x ≠ "") (tail p) → as_posix p ≠ "".
Proof.
  destruct p as [r t]. unfold as_posix. simpl. intros Ht.
  destruct r as [|a r]; [|by destruct t].
  destruct t as [|x t]; [done|]. apply Forall_cons in Ht as [Hx _].
  destruct x as [|c x]; [done|]. by destruct t.
Qed.

Lemma joinpath_nonempty (p : PurePath) (s : string) :
  Forall (λ x, x ≠ "") (tail p) →
  Forall (λ x, x ≠ "") (tail (joinpath p s)).
Proof.
  intros Hp. unfold joinpath.
  destruct (decide _); simpl; [|apply components_nonempty].
  apply Forall_app. split; [done|apply components_nonempty].
Qed.

Lemma candidate_paths_nonempty (base cand : string) :
  cand ∈ _candidate_paths base → cand ≠ "".
Proof.
  unfold _candidate_paths. destruct (decide _) as [_|_].
  - intros [Hc|Hc]%elem_of_app;
      apply list_elem_of_fmap in Hc as (e & -> & He).
    + apply app_nonempty_r. intros ->. revert He. by_evaluation.
    + apply as_posix_nonempty, joinpath_nonempty, components_nonempty.
  - intros ->%list_elem_of_singleton.
    apply as_posix_nonempty, components_nonempty.
Qed.

Lemma php_candidates_nonempty (cleaned : string) (cands : list string)
    (cand : string) :
  php_candidates cleaned = Ok cands → cand ∈ cands → cand ≠ "".
Proof.
  unfold php_candidates, with_suffix.
  set (php_guess := Path (replace backslash slash cleaned)).
  destruct (name php_guess) as [|c nm]; [done|]. simpl. intros [= <-].
  rewrite !elem_of_cons, elem_of_nil. intros [->|[->|[]]].
  - apply as_posix_nonempty. simpl. apply Forall_app. split.
    + apply Forall_removelast, components_nonempty.
    + repeat constructor. by apply app_nonempty_r.
  - apply as_posix_nonempty, joinpath_nonempty, components_nonempty.
Qed.

Lemma resolve_target_nonempty (importer : WorkingFile) (target : string)
    (known_paths : gset string) (resolved : string) :
  _resolve_target importer target known_paths = Ok (Some resolved) →
  resolved ≠ "".
Proof.
  unfold _resolve_target. intros H.
  destruct (decide (target = "")); [done|].
  destruct (_ || _); [done|].
  destruct (decide (clean target = "")); [done|].
  destruct (php_heuristic_applies importer (clean target)).
  - destruct (php_candidates (clean target)) as [cands|] eqn:Hphp; [|done].
    simpl in H. destruct (first_known cands known_paths) as [c|] eqn:Hc.
    + injection H as <-. apply first_known_Some in Hc as [Hc _].
      by eapply php_candidates_nonempty.
    + injection H as H. apply first_known_Some in H as [H _].
      by eapply candidate_paths_nonempty.
  - simpl in H. injection H as H. apply first_known_Some in H as [H _].
    by eapply candidate_paths_nonempty.
Qed.

(** X6. What the resolver returns is one of the scanned paths it was
    given, and never the empty string: the falsy test of [run] on the
    result only ever skips the unresolved specifiers. *)
Theorem resolve_target_returns_scanned_path (importer : WorkingFile)
    (target : string) (known_paths : gset string) (resolved : string) :
  _resolve_target importer target known_paths = Ok (Some resolved) →
  resolved ∈ known_paths ∧ resolved ≠ "".
Proof.
  intros Hres. split.
  - by eapply resolve_target_known.
  - by eapply resolve_target_nonempty.
Qed.

Lemma resolve_target_returns_scanned_path_witness :
  "src/foo.ts" ∈ ({[ "src/bar.ts"; "src/foo.ts" ]} : gset string)
  ∧ "src/foo.ts" ≠ "".
Proof.
  apply (resolve_target_returns_scanned_path (file_in "src" "bar.ts" ".ts")
           "./foo").
  reflexivity.
Defined.

Lemma resolve_target_raise (importer : WorkingFile) (target : string)
    (known_paths : gset string) (e : exn) :
  _resolve_target importer target known_paths = Raise e
  ↔ e = ValueError
    ∧ target ≠ ""
    ∧ startswith "http://" target || startswith "https://" target = false
    ∧ clean target ≠ ""
    ∧ php_heuristic_applies importer (clean target) = true
    ∧ name (Path (replace backslash slash (clean target))) = "".
Proof.
  unfold _resolve_target.
  destruct (decide (target = "")) as [|Ht]; [split; [done|intuition congruence]|].
  destruct (_ || _) eqn:Hurl; [split; [done|intuition congruence]|].
  destruct (decide (clean target = "")) as [|Hc];
    [split; [done|intuition congruence]|].
  destruct (php_heuristic_applies importer (clean target)); simpl;
    [|split; [done|intuition congruence]].
  unfold php_candidates, with_suffix.
  destruct (name _) as [|c nm].
  - simpl. split; [by intros [= <-]|]. by intros (-> & _).
  - unfold mbind, mret, result_bind, result_ret. cbv beta iota.
    destruct (first_known (_ :: _) known_paths);
      (split; [done|intuition congruence]).
Qed.

(** X7. The resolver raises in one case only: from a PHP file, on a
    specifier with a backslash whose converted form has no last component;
    the exception is then [ValueError], whatever the scanned paths. From a
    file of another language it never raises. *)
Theorem resolve_target_raises_only_on_nameless_php (importer : WorkingFile)
    (target : string) (known_paths : gset string) (e : exn) :
  _resolve_target importer target known_paths = Raise e
  ↔ e = ValueError
    ∧ target ≠ ""
    ∧ startswith "http://" target || startswith "https://" target = false
    ∧ clean target ≠ ""
    ∧ ext importer = ".php"
    ∧ contains backslash (clean target) = true
    ∧ startswith "./" (clean target) || startswith "/" (clean target) = false
    ∧ name (Path (replace backslash slash (clean target))) = "".
Proof.
  rewrite resolve_target_raise. unfold php_heuristic_applies.
  rewrite !andb_true_iff, negb_true_iff, bool_decide_eq_true. tauto.
Qed.

Lemma root_of_no_slash (c : ascii) (s : string) :
  c ≠ slash → root_of (String c s) = "".
Proof.
  intros Hc. unfold root_of. destruct s as [|b [|c' s]]; by rewrite decide_False.
Qed.

Lemma root_of_one_slash (c : ascii) (s : string) :
  c ≠ slash → root_of (String slash (String c s)) = "/".
Proof.
  intros Hc. unfold root_of.
  destruct s as [|c' s]; by destruct (decide (c = slash)).
Qed.

Lemma root_of_two_slashes (c : ascii) (s : string) :
  c ≠ slash → root_of (String slash (String slash (String c s))) = "//".
Proof.
  intros Hc. unfold root_of. by destruct (decide (c = slash)).
Qed.

Lemma filter_components_id (l : list string) :
  Forall (λ x, is_component x = true) l →
  filter (λ x, is_component x = true) l = l.
Proof.
  induction 1 as [|x l Hx _ IH]; [done|].
  by rewrite filter_cons_True, IH.
Qed.

Lemma filter_components_empty (l : list string) :
  Forall (λ x, x = "") l → filter (λ x, is_component x = true) l = [].
Proof.
  induction 1 as [|x l -> _ IH]; [done|]. by rewrite filter_cons_False.
Qed.

(** Parsing what a path prints gives the path back. *)
Lemma Path_as_posix (p : PurePath) :
  well_formed p → Forall (λ x, is_component x = true) (tail p) →
  Path (as_posix p) = p.
Proof.
  intros Hwf Hc. destruct (decide (tail p = [])) as [Hnil|Hne].
  { destruct p as [r t], Hwf as [[Hr|[Hr|Hr]] _]; simpl in *; by subst. }
  destruct (split_as_posix p Hwf Hne) as (pre & Hsplit & Hpre).
  unfold Path, components. rewrite Hsplit, filter_app.
  rewrite filter_components_empty, filter_components_id by done.
  rewrite as_posix_nonempty_tail by done.
  destruct p as [r t], Hwf as [Hr Hsf]; simpl in *. f_equal.
  destruct t as [|x t]; [done|].
  apply Forall_cons in Hc as [Hx _]. apply Forall_cons in Hsf as [Hxs _].
  destruct x as [|c x]; [done|].
  assert (c ≠ slash) as Hslash.
  { intros ->. by cbv in Hxs. }
  assert (∃ rest, join "/" (String c x :: t) = String c rest) as [rest Hjoin]
    by (destruct t; by eexists).
  rewrite Hjoin.
  destruct Hr as [-> | [-> | ->]].
  - by apply root_of_no_slash.
  - by apply (root_of_one_slash c rest).
  - by apply (root_of_two_slashes c rest).
Qed.

Lemma joinpath_components (p : PurePath) (s : string) :
  Forall (λ x, is_component x = true) (tail p) →
  Forall (λ x, is_component x = true) (tail (joinpath p s)).
Proof.
  intros Hp. unfold joinpath.
  destruct (decide _); simpl; [|apply components_are_components].
  apply Forall_app. split; [done|apply components_are_components].
Qed.

Lemma base_candidate_valid (importer : WorkingFile) (cleaned : string) :
  well_formed (base_candidate importer cleaned)
  ∧ Forall (λ x, is_component x = true) (tail (base_candidate importer cleaned)).
Proof.
  unfold base_candidate. split.
  - apply joinpath_well_formed. destruct (decide _).
    + apply Path_well_formed.
    + apply parent_well_formed, Path_well_formed.
  - apply joinpath_components. destruct (decide _).
    + apply components_are_components.
    + unfold parent.
      pose proof (components_are_components (rel_path importer)) as Hc.
      destruct (tail (Path (rel_path importer))) eqn:Ht; [by rewrite Ht|].
      apply (Forall_removelast _ (s :: l)). by rewrite <- Ht.
Qed.

Lemma resolve_target_with_suffix (importer : WorkingFile) (target : string)
    (known_paths : gset string) :
  target ≠ "" →
  startswith "http://" target || startswith "https://" target = false →
  clean target ≠ "" →
  php_heuristic_applies importer (clean target) = false →
  suffix (base_candidate importer (clean target)) ≠ "" →
  _resolve_target importer target known_paths
  = Ok (if decide (base_path importer (clean target) ∈ known_paths)
        then Some (base_path importer (clean target)) else None).
Proof.
  intros Ht Hurl Hc Hphp Hsuffix.
  rewrite resolve_target_general by done. f_equal.
  destruct (base_candidate_valid importer (clean target)) as [Hwf Hcomp].
  unfold base_path. rewrite candidate_paths_suffix;
    rewrite Path_as_posix by done; [|done].
  unfold first_known. simpl. rewrite bool_decide_decide.
  by destruct (decide _).
Qed.

(** X8. Outside the PHP heuristic, a specifier whose last component has a
    suffix resolves exactly when the importer's directory joined with it
    is a scanned path, and then to that path: no extension is added and no
    index file is tried. *)
Theorem resolve_target_explicit_extension (importer : WorkingFile)
    (target : string) (known_paths : gset string) :
  target ≠ "" →
  startswith "http://" target || startswith "https://" target = false →
  clean target ≠ "" →
  php_heuristic_applies importer (clean target) = false →
  suffix (base_candidate importer (clean target)) ≠ "" →
  _resolve_target importer target known_paths
  = Ok (if decide (base_path importer (clean target) ∈ known_paths)
        then Some (base_path importer (clean target)) else None).
Proof. apply resolve_target_with_suffix. Qed.

Lemma resolve_target_explicit_extension_witness :
  _resolve_target (file_in "src" "a.ts" ".ts") "./b.js"
    {[ "src/a.ts"; "src/b.ts"; "src/b.js.ts" ]} = Ok None.
Proof.
  etrans.
  - apply (resolve_target_explicit_extension (file_in "src" "a.ts" ".ts")
             "./b.js" {[ "src/a.ts"; "src/b.ts"; "src/b.js.ts" ]}); done.
  - by vm_compute.
Defined.

(** ** The loops of a run, file by file *)

Lemma for_each_prefix_invariant {A S : Type} (P : list A → S → Prop)
    (body : S → A → result S) (l : list A) (st st' : S) :
  (∀ done x s s', x ∈ l → P done s → body s x = Ok s' → P (done ++ [x]) s') →
  P [] st → for_each body st l = Ok st' → P l st'.
Proof.
  intros Hstep Hst Hrun.
  enough (∀ done l' s, (∀ x, x ∈ l' → x ∈ l) → P done s →
            for_each body s l' = Ok st' → P (done ++ l') st') as Hgen
    by exact (Hgen [] l st (λ _ H, H) Hst Hrun).
  clear st Hst Hrun. intros done l'. revert done.
  induction l' as [|x l' IH]; intros done s Hsub Hs Hrun; simpl in Hrun.
  { injection Hrun as <-. by rewrite app_nil_r. }
  destruct (body s x) as [s1|] eqn:Hbody; [|done].
  rewrite (cons_middle x done l'), app_assoc. apply (IH _ s1); [| |done].
  - intros y Hy. apply Hsub. by right.
  - apply (Hstep done x s s1); [apply Hsub; left|done|done].
Qed.

Lemma for_each_Raise {A S : Type} (body : S → A → result S) (l : list A)
    (st : S) (e : exn) :
  for_each body st l = Raise e →
  ∃ l1 x l2 s, l = l1 ++ x :: l2 ∧ for_each body st l1 = Ok s
               ∧ body s x = Raise e.
Proof.
  revert st. induction l as [|x l IH]; intros st Hrun; simpl in Hrun; [done|].
  destruct (body st x) as [s1|e1] eqn:Hbody.
  - destruct (IH s1 Hrun) as (l1 & y & l2 & s & -> & Hl1 & Hy).
    exists (x :: l1), y, l2, s. split_and!; [done| |done].
    simpl. by rewrite Hbody.
  - injection Hrun as ->. by exists [], x, l, st.
Qed.

Section RunTrace.

Context (env : Env) (known_files : gmap string string)
  (scanned : list WorkingFile).

Let paths : gset string := list_to_set (rel_path <$> scanned).

Let known (p : string) : Prop :=
  is_Some (known_files !! merge_hash (get_path_hashes env p)).

(** The edges held are the edges of the imports covered so far. *)
Let traced (C : WorkingFile → string → Prop) (st : RunState) : Prop :=
  (∀ e, e ∈ relations st →
     ∃ wf target q, C wf target
       ∧ _resolve_target wf target paths = Ok (Some q) ∧ known q
       ∧ e = edge_between env (rel_path wf) q)
  ∧ (∀ wf target q, C wf target →
       _resolve_target wf target paths = Ok (Some q) → known q →
       edge_key (edge_between env (rel_path wf) q) ∈ edge_key <$> relations st).

Let covered (done : list WorkingFile) (wf : WorkingFile) (target : string)
    : Prop :=
  wf ∈ done ∧ known (rel_path wf)
  ∧ ∃ targets, _extract_imports env wf = Ok targets ∧ target ∈ targets.

Lemma traced_iff (C C' : WorkingFile → string → Prop) (st st' : RunState) :
  (∀ wf target, C wf target ↔ C' wf target) →
  relations st = relations st' →
  traced C st → traced C' st'.
Proof.
  intros HC Hrel [Hsound Hcomplete]. unfold traced. rewrite <- Hrel. split.
  - intros e (wf & target & q & Hc & H)%Hsound.
    exists wf, target, q. split; [by apply HC|done].
  - intros wf target q Hc%HC. by apply (Hcomplete wf target q).
Qed.

(** One iteration of the loop over the targets: the keyword rows stay,
    and the edges stay or grow by the edge to the resolved target. *)
Lemma add_import_Ok (wf : WorkingFile) (target : string) (st st' : RunState) :
  (∀ p h, file_hashes st !! p = Some h → h = get_path_hashes env p) →
  add_import env known_files paths wf (get_path_hashes env (rel_path wf))
    st target = Ok st' →
  keywords_rows st' = keywords_rows st
  ∧ ((relations st' = relations st
      ∧ ∀ q, _resolve_target wf target paths = Ok (Some q) → known q →
          edge_key (edge_between env (rel_path wf) q) ∈ import_keys st)
     ∨ ∃ q, _resolve_target wf target paths = Ok (Some q) ∧ known q
            ∧ relations st'
              = relations st ++ [edge_between env (rel_path wf) q]).
Proof.
  intros Hagree. unfold add_import.
  destruct (_resolve_target wf target paths) as [[resolved|]|] eqn:Hres;
    simpl; [|intros [= <-]; split; [done|left; by split]|done].
  pose proof (resolve_target_nonempty _ _ _ _ Hres) as Hne.
  destruct (target_hashes_spec env (file_hashes st) resolved Hagree)
    as (Htgt & _ & _).
  destruct (target_hashes env (file_hashes st) resolved) as [tgt fh].
  simpl in Htgt. subst tgt.
  destruct resolved as [|c resolved']; [done|].
  set (resolved := String c resolved') in *.
  destruct (decide (known_files !! _ = None)) as [Hdst|Hdst].
  { intros [= <-]. split; [done|left]. split; [done|].
    intros q [= <-] [h Hq]. unfold known in Hq. congruence. }
  destruct (decide (_ ∈ import_keys st)) as [Hin|Hfresh]; intros [= <-].
  - split; [done|left]. split; [done|]. by intros q [= <-] _.
  - split; [done|right]. exists resolved. split_and!; [done| |done].
    by apply not_eq_None_Some.
Qed.

Lemma add_import_traced (C : WorkingFile → string → Prop) (wf : WorkingFile)
    (target : string) (st st' : RunState) :
  run_invariant env known_files scanned st →
  traced C st →
  add_import env known_files paths wf (get_path_hashes env (rel_path wf))
    st target = Ok st' →
  traced (λ wf' t, C wf' t ∨ (wf' = wf ∧ t = target)) st'.
Proof.
  intros Hinv [Hsound Hcomplete] Hadd.
  apply add_import_Ok in Hadd as [_ Hcases]; [|apply (inv_hashes _ _ _ _ Hinv)].
  destruct Hcases as [[Hrel Hold]|(q & Hres & Hq & Hrel)];
    unfold traced; rewrite Hrel; split.
  - intros e (wf' & t & q & Hc & H)%Hsound. exists wf', t, q. by split; [left|].
  - intros wf' t q [Hc|[-> ->]] Hres Hq; [by apply (Hcomplete wf' t q)|].
    by apply (inv_keys _ _ _ _ Hinv), Hold.
  - intros e [He|He%list_elem_of_singleton]%elem_of_app.
    + apply Hsound in He as (wf' & t & q' & Hc & H).
      exists wf', t, q'. by split; [left|].
    + exists wf, target, q. by split; [right|].
  - intros wf' t q' [Hc|[-> ->]] Hres' Hq'; rewrite fmap_app, elem_of_app.
    + left. by apply (Hcomplete wf' t q').
    + right. rewrite Hres in Hres'. injection Hres' as <-.
      by apply list_elem_of_singleton.
Qed.

Lemma keyword_row_invariant (wf : WorkingFile) (st : RunState) :
  wf ∈ scanned → known (rel_path wf) →
  run_invariant env known_files scanned st →
  run_invariant env known_files scanned
    {| file_hashes := file_hashes st; import_keys := import_keys st;
       relations := relations st;
       keywords_rows := keywords_rows st ++ [keyword_row_of env wf] |}.
Proof.
  intros Hwf Hsrc [Hagree Hsc Hkeys Hnodup Hedges Hrows].
  split; simpl; try done.
  intros r [Hr|Hr%list_elem_of_singleton]%elem_of_app; [by apply Hrows|].
  subst r. by exists wf.
Qed.

(** One iteration of the loop over the scanned files. *)
Lemma process_file_Ok (wf : WorkingFile) (st st' : RunState) :
  wf ∈ scanned →
  run_invariant env known_files scanned st →
  process_file env known_files paths st wf = Ok st' →
  (¬ known (rel_path wf) ∧ st' = st)
  ∨ (known (rel_path wf)
     ∧ ∃ targets, _extract_imports env wf = Ok targets
         ∧ for_each (add_import env known_files paths wf
                       (get_path_hashes env (rel_path wf)))
             {| file_hashes := file_hashes st; import_keys := import_keys st;
                relations := relations st;
                keywords_rows := keywords_rows st ++ [keyword_row_of env wf] |}
             targets = Ok st').
Proof.
  intros Hwf Hinv. unfold process_file.
  destruct (file_hashes st !! rel_path wf) as [hashes|] eqn:Hh; [|done].
  apply (inv_hashes _ _ _ _ Hinv) in Hh as ->.
  destruct (decide (known_files !! _ = None)) as [Hsrc|Hsrc].
  { intros [= <-]. left. split; [|done]. intros [h Hk]. congruence. }
  apply not_eq_None_Some in Hsrc. right. split; [done|].
  destruct (_extract_imports env wf) as [targets|]; [|done].
  by exists targets.
Qed.

Lemma process_file_trace (done : list WorkingFile) (wf : WorkingFile)
    (st st' : RunState) :
  wf ∈ scanned →
  run_invariant env known_files scanned st →
  traced (covered done) st
  ∧ keywords_rows st
    = keyword_row_of env <$> filter (λ wf, known (rel_path wf)) done →
  process_file env known_files paths st wf = Ok st' →
  traced (covered (done ++ [wf])) st'
  ∧ keywords_rows st'
    = keyword_row_of env <$> filter (λ wf, known (rel_path wf)) (done ++ [wf]).
Proof.
  intros Hwf Hinv [Htr Hrows] Hstep.
  apply process_file_Ok in Hstep
    as [[Hsrc ->]|(Hsrc & targets & Htargets & Hloop)]; [| |done..].
  { rewrite filter_app, filter_cons_False, filter_nil, app_nil_r by done.
    split; [|done]. revert Htr. apply traced_iff; [|done].
    intros wf' t. unfold covered. rewrite elem_of_app, list_elem_of_singleton.
    split; [tauto|]. intros [[Hin| ->] [Hk H]]; [done|]. by destruct Hsrc. }
  rewrite filter_app, filter_cons_True, filter_nil, fmap_app by done.
  set (st1 := mkRunState _ _ _ _) in Hloop.
  assert (run_invariant env known_files scanned st1) as Hinv1
    by by apply keyword_row_invariant.
  pose (P := λ (tdone : list string) (s : RunState),
    run_invariant env known_files scanned s
    ∧ traced (λ wf' t, covered done wf' t ∨ (wf' = wf ∧ t ∈ tdone)) s
    ∧ keywords_rows s = keywords_rows st1).
  assert (P targets st') as (_ & Htr' & Hrows').
  { revert Hloop. apply (for_each_prefix_invariant P).
    - intros tdone t s s' _ (Hs & Htrs & Hrs) Hadd. split_and!.
      + by eapply add_import_invariant.
      + eapply traced_iff; [|done|by eapply add_import_traced].
        intros wf' t'. simpl. rewrite elem_of_app, list_elem_of_singleton.
        tauto.
      + apply add_import_Ok in Hadd as [-> _]; [done|].
        apply (inv_hashes _ _ _ _ Hs).
    - split_and!; [done| |done].
      revert Htr. apply traced_iff; [|done].
      intros wf' t. rewrite elem_of_nil. tauto. }
  split.
  - revert Htr'. apply traced_iff; [|done].
    intros wf' t. unfold covered. rewrite elem_of_app, list_elem_of_singleton.
    split.
    + intros [[Hin H]|[-> Ht]]; [tauto|]. split_and!; [by right|done|].
      by exists targets.
    + intros [[Hin| ->] [Hk (targets' & Htargets' & Ht)]]; [left|right].
      * split_and!; [done..|]. by exists targets'.
      * split; [done|]. congruence.
  - rewrite Hrows'. simpl. by rewrite Hrows.
Qed.

(** The state in which the loop over the scanned files ends. *)
Lemma run_loop_trace (st : RunState) :
  for_each (process_file env known_files paths) (initial_state env scanned)
    scanned = Ok st →
  run_invariant env known_files scanned st
  ∧ traced (covered scanned) st
  ∧ keywords_rows st
    = keyword_row_of env <$> filter (λ wf, known (rel_path wf)) scanned.
Proof.
  apply (for_each_prefix_invariant (λ done s,
    run_invariant env known_files scanned s
    ∧ traced (covered done) s
    ∧ keywords_rows s
      = keyword_row_of env <$> filter (λ wf, known (rel_path wf)) done)).
  - intros done wf s s' Hwf (Hinv & Htr) Hstep. split.
    + by eapply process_file_invariant.
    + by eapply process_file_trace.
  - split_and!; [apply initial_state_invariant| |done].
    split; simpl.
    + by intros e He%elem_of_nil.
    + by intros wf t q (Hin%elem_of_nil & _).
Qed.

(** A loop that raises does so at a scanned file that the store knows:
    in the extraction of its imports or in the resolution of one. *)
Lemma run_loop_Raise (e : exn) :
  for_each (process_file env known_files paths) (initial_state env scanned)
    scanned = Raise e →
  ∃ wf, wf ∈ scanned ∧ known (rel_path wf)
    ∧ (_extract_imports env wf = Raise e
       ∨ ∃ targets target, _extract_imports env wf = Ok targets
           ∧ target ∈ targets
           ∧ _resolve_target wf target paths = Raise e).
Proof.
  intros (l1 & wf & l2 & s & Hl & Hl1 & Hstep)%for_each_Raise.
  assert (wf ∈ scanned) as Hwf.
  { rewrite Hl, elem_of_app. right. left. }
  assert (run_invariant env known_files scanned s) as Hinv.
  { revert Hl1. apply for_each_invariant; [|apply initial_state_invariant].
    intros s0 x s1 Hx. apply process_file_invariant.
    rewrite Hl, elem_of_app. by left. }
  exists wf. unfold process_file in Hstep.
  destruct (inv_scanned _ _ _ _ Hinv wf Hwf) as [hashes Hh].
  rewrite Hh in Hstep. apply (inv_hashes _ _ _ _ Hinv) in Hh as ->.
  destruct (decide (known_files !! _ = None)) as [|Hsrc]; [done|].
  apply not_eq_None_Some in Hsrc. split_and!; [done..|].
  destruct (_extract_imports env wf) as [targets|e']; simpl in Hstep.
  - right. apply for_each_Raise in Hstep
      as (t1 & target & t2 & s' & -> & _ & Hadd).
    exists (t1 ++ target :: t2), target. split_and!; [done| |].
    { rewrite elem_of_app. right. left. }
    unfold add_import in Hadd.
    destruct (_resolve_target wf target paths) as [[resolved|]|e']; simpl in Hadd;
      [|done|congruence].
    destruct resolved; [done|].
    destruct (target_hashes _ _ _) as [tgt fh].
    destruct (decide (known_files !! _ = None)); [done|].
    by destruct (decide (_ ∈ import_keys s')).
  - left. congruence.
Qed.

(** The same, with the edges and the keyword rows spelled out. *)
Lemma run_loop_Ok (st : RunState) :
  for_each (process_file env known_files (list_to_set (rel_path <$> scanned)))
    (initial_state env scanned) scanned = Ok st →
  run_invariant env known_files scanned st
  ∧ keywords_rows st
    = keyword_row_of env
        <$> filter (λ wf, is_Some (known_files
                     !! merge_hash (get_path_hashes env (rel_path wf)))) scanned
  ∧ (∀ e, e ∈ relations st →
       ∃ wf target q targets,
         (wf ∈ scanned
          ∧ is_Some (known_files !! merge_hash (get_path_hashes env (rel_path wf)))
          ∧ is_Some (known_files !! merge_hash (get_path_hashes env q)))
         ∧ (_extract_imports env wf = Ok targets ∧ target ∈ targets
            ∧ _resolve_target wf target (list_to_set (rel_path <$> scanned))
              = Ok (Some q))
         ∧ e = edge_between env (rel_path wf) q)
  ∧ (∀ wf target q targets,
       wf ∈ scanned →
       is_Some (known_files !! merge_hash (get_path_hashes env (rel_path wf))) →
       is_Some (known_files !! merge_hash (get_path_hashes env q)) →
       _extract_imports env wf = Ok targets → target ∈ targets →
       _resolve_target wf target (list_to_set (rel_path <$> scanned))
         = Ok (Some q) →
       edge_key (edge_between env (rel_path wf) q) ∈ edge_key <$> relations st).
Proof.
  intros (Hinv & [Hsound Hcomplete] & Hrows)%run_loop_trace.
  split_and!; [done|done| |].
  - intros e (wf & target & q & (Hwf & Hsrc & targets & Ht & Hin) & Hres & Hq
              & ->)%Hsound.
    by exists wf, target, q, targets.
  - intros wf target q targets Hwf Hsrc Hq Ht Hin Hres.
    apply (Hcomplete wf target q); [|done..].
    split_and!; [done..|]. by exists targets.
Qed.

(** The hashes of the scanned paths are all computed before the loop: a
    target that resolves is found among them, and the loop over the
    targets leaves them as they are. *)
Lemma add_import_file_hashes (wf : WorkingFile) (hashes : Hashes)
    (target : string) (st st' : RunState) :
  (∀ p, p ∈ rel_path <$> scanned → is_Some (file_hashes st !! p)) →
  add_import env known_files (list_to_set (rel_path <$> scanned)) wf hashes
    st target = Ok st' →
  file_hashes st' = file_hashes st.
Proof.
  intros Hall. unfold add_import.
  destruct (_resolve_target _ _ _) as [[resolved|]|] eqn:Hres; simpl;
    [|by intros [= <-]|done].
  apply resolve_target_known, elem_of_list_to_set, Hall in Hres as [h Hh].
  unfold target_hashes. rewrite Hh.
  destruct resolved; [by intros [= <-]|].
  destruct (decide (known_files !! _ = None)); [by intros [= <-]|].
  by destruct (decide (_ ∈ import_keys st)); intros [= <-].
Qed.

Lemma process_file_file_hashes (wf : WorkingFile) (st st' : RunState) :
  (∀ p, p ∈ rel_path <$> scanned → is_Some (file_hashes st !! p)) →
  process_file env known_files (list_to_set (rel_path <$> scanned)) st wf
    = Ok st' →
  file_hashes st' = file_hashes st.
Proof.
  intros Hall. unfold process_file.
  destruct (file_hashes st !! rel_path wf) as [hashes|]; [|done].
  destruct (decide (known_files !! _ = None)); [by intros [= <-]|].
  destruct (_extract_imports env wf) as [targets|]; [simpl|done].
  apply (for_each_invariant (λ s, file_hashes s = file_hashes st)); [|done].
  intros s target s' _ Hs Hadd. rewrite <- Hs.
  apply add_import_file_hashes in Hadd; [done|]. by rewrite Hs.
Qed.

End RunTrace.

(** ** What a run hands to the store *)

Lemma filter_known_empty (env : Env) (l : list WorkingFile) :
  _load_known_files env = ∅ →
  filter (λ wf, known_path env (rel_path wf)) l = [].
Proof.
  intros Hempty. induction l as [|wf l IH]; [done|].
  rewrite filter_cons_False; [done|].
  unfold known_path. rewrite Hempty, lookup_empty. by intros [? ?].
Qed.

Lemma store_calls_for (st : RunState) :
  (relations st ≠ [] → keywords_rows st ≠ []) →
  store_calls st = calls_for (keywords_rows st) (relations st).
Proof.
  unfold store_calls, calls_for. intros Himp.
  destruct (keywords_rows st), (relations st); try done.
  by destruct Himp.
Qed.

(** A run that returns: its keyword rows, its edges, its calls. *)
Lemma run_Ok_trace (env : Env) (self : DependencyDriller)
    (summary : Summary) (calls : list StoreCall) :
  run env self = Ok (summary, calls) →
  ∃ edges,
    let rows := keyword_row_of env
      <$> filter (λ wf, known_path env (rel_path wf))
            (_iter_working_files env self) in
    summary = {| imports := length edges; keyworded_files := length rows |}
    ∧ calls = calls_for rows edges
    ∧ (∀ e, e ∈ edges →
         ∃ wf q, resolved_import env self wf q
                 ∧ e = edge_between env (rel_path wf) q)
    ∧ (∀ wf q, resolved_import env self wf q →
         edge_key (edge_between env (rel_path wf) q) ∈ edge_key <$> edges).
Proof.
  unfold run, resolved_import. set (scanned := _iter_working_files env self).
  destruct (decide (_load_known_files env = ∅)) as [Hempty|_].
  { intros [= <- <-]. exists []. simpl.
    rewrite filter_known_empty by done. split_and!; [done|done| |].
    - by intros e He%elem_of_nil.
    - intros wf q (_ & [h Hh] & _). unfold known_path in Hh.
      by rewrite Hempty, lookup_empty in Hh. }
  destruct scanned as [|wf0 scanned'] eqn:Hscanned.
  { intros [= <- <-]. exists []. simpl. split_and!; [done|done| |].
    - by intros e He%elem_of_nil.
    - by intros wf q (Hwf%elem_of_nil & _). }
  rewrite <- Hscanned in *. clear Hscanned.
  destruct (for_each _ _ _) as [st|] eqn:Hloop; [|done].
  intros [= <- <-].
  apply run_loop_Ok in Hloop as (Hinv & Hrows & Hsound & Hcomplete).
  exists (relations st). simpl.
  change (keywords_rows st
          = keyword_row_of env
              <$> filter (λ wf, known_path env (rel_path wf)) scanned) in Hrows.
  rewrite <- Hrows. split_and!; [done| | |].
  - apply store_calls_for. intros Hrel Hnil.
    destruct (relations st) as [|e edges] eqn:He; [done|].
    destruct (Hsound e) as (wf & _ & _ & _ & (Hwf & Hsrc & _) & _);
      [left|].
    assert (wf ∈ filter (λ wf, known_path env (rel_path wf)) scanned) as Hin
      by by apply list_elem_of_filter.
    rewrite Hnil in Hrows. symmetry in Hrows. apply fmap_nil_inv in Hrows.
    rewrite Hrows in Hin. by apply elem_of_nil in Hin.
  - intros e (wf & target & q & targets & (Hwf & Hsrc & Hq) & H & ->)%Hsound.
    exists wf, q. split; [|done]. split_and!; [done..|].
    by exists targets, target.
  - intros wf q (Hwf & Hsrc & Hq & targets & target & Ht & Hin & Hres).
    by apply (Hcomplete wf target q targets).
Qed.

Lemma calls_for_imports (rows : list KeywordRow) (edges edges' : list ImportEdge) :
  index_imports edges' ∈ calls_for rows edges → edges' = edges.
Proof.
  unfold calls_for. destruct rows, edges; intros Hin.
  - by apply elem_of_nil in Hin.
  - by apply elem_of_nil in Hin.
  - by apply list_elem_of_singleton in Hin.
  - apply elem_of_cons in Hin as [Hin|Hin%list_elem_of_singleton]; [done|].
    by injection Hin.
Qed.

(** The edges of a run that returns: one list, without two edges of the
    same ordered pair, handed over when an import resolves between two
    known files, and then holding its ordered pair. *)
Lemma run_Ok_edges (env : Env) (self : DependencyDriller)
    (summary : Summary) (calls : list StoreCall) :
  run env self = Ok (summary, calls) →
  ∃ edges,
    (∀ rows, index_imports rows ∈ calls → rows = edges)
    ∧ NoDup (edge_key <$> edges)
    ∧ (∀ wf q, resolved_import env self wf q →
         index_imports edges ∈ calls
         ∧ edge_key (edge_between env (rel_path wf) q) ∈ edge_key <$> edges).
Proof.
  intros Hrun.
  destruct (run_Ok_invariant _ _ _ _ Hrun) as (st & Hinv & Hcalls & _).
  destruct (run_Ok_trace _ _ _ _ Hrun)
    as (edges & _ & Hfor & Hsound & Hcomplete).
  cbv zeta in Hfor. exists edges. split_and!.
  - intros rows Hin. rewrite Hfor in Hin. by apply calls_for_imports in Hin.
  - destruct edges as [|e edges]; [constructor|].
    assert (index_imports (e :: edges) ∈ calls) as Hin.
    { rewrite Hfor. unfold calls_for.
      destruct (Hsound e) as (wf & _ & (Hwf & Hsrc & _) & _); [left|].
      assert (wf ∈ filter (λ wf, known_path env (rel_path wf))
                     (_iter_working_files env self)) as Hfilter
        by by apply list_elem_of_filter.
      destruct (filter _ _) as [|w ws]; [by apply elem_of_nil in Hfilter|].
      right. left. }
    rewrite Hcalls in Hin. apply store_calls_imports in Hin as ->.
    apply (inv_nodup _ _ _ _ Hinv).
  - intros wf q Himp. pose proof (Hcomplete wf q Himp) as Hkey.
    split; [|done].
    apply list_elem_of_fmap in Hkey as (e & _ & He).
    destruct (Hsound e He) as (wf' & _ & (Hwf' & Hsrc' & _) & _).
    assert (wf' ∈ filter (λ wf, known_path env (rel_path wf))
                    (_iter_working_files env self)) as Hfilter
      by by apply list_elem_of_filter.
    rewrite Hfor. unfold calls_for.
    destruct (filter _ _) as [|w ws]; [by apply elem_of_nil in Hfilter|].
    destruct edges; [by apply elem_of_nil in He|]. right. left.
Qed.

(** C1, amended. The edges that a run hands to the store are deduplicated
    by the ordered pair of the merge hashes of source and target. No two
    edges of the list have the same source and the same target, so a
    second import of the same target from the same identity adds no edge.
    Every import that resolves between two known files has an edge with
    its ordered pair in the list; so when one file imports another and is
    imported by it, and the two have different merge hashes, the list
    holds two edges, one for each direction. *)
Theorem run_edges_deduplicated_ordered (env : Env) (self : DependencyDriller)
    (summary : Summary) (calls : list StoreCall) :
  run env self = Ok (summary, calls) →
  (∀ rows, index_imports rows ∈ calls → NoDup (edge_key <$> rows))
  ∧ (∀ wf q, resolved_import env self wf q →
       ∃ rows e, index_imports rows ∈ calls ∧ e ∈ rows
                 ∧ edge_key e
                   = (merge_hash (get_path_hashes env (rel_path wf)),
                      merge_hash (get_path_hashes env q)))
  ∧ (∀ a b,
       resolved_import env self a (rel_path b) →
       resolved_import env self b (rel_path a) →
       merge_hash (get_path_hashes env (rel_path a))
       ≠ merge_hash (get_path_hashes env (rel_path b)) →
       ∃ rows e1 e2, index_imports rows ∈ calls
         ∧ e1 ∈ rows ∧ e2 ∈ rows ∧ e1 ≠ e2
         ∧ edge_key e1
           = (merge_hash (get_path_hashes env (rel_path a)),
              merge_hash (get_path_hashes env (rel_path b)))
         ∧ edge_key e2
           = (merge_hash (get_path_hashes env (rel_path b)),
              merge_hash (get_path_hashes env (rel_path a)))).
Proof.
  intros (edges & Hone & Hnodup & Hcomplete)%run_Ok_edges. split_and!.
  - intros rows Hin. by rewrite (Hone rows Hin).
  - intros wf q (Hin & (e & He & Hin')%list_elem_of_fmap)%Hcomplete.
    by exists edges, e.
  - intros a b (Hin & (e1 & He1 & Hin1)%list_elem_of_fmap)%Hcomplete
      (_ & (e2 & He2 & Hin2)%list_elem_of_fmap)%Hcomplete Hdiff.
    exists edges, e1, e2. split_and!; [done..| |done|done].
    intros ->. rewrite <- He1 in He2. by injection He2.
Qed.

Lemma run_edges_deduplicated_ordered_witness :
  NoDup (edge_key <$> [edge_a_b; edge_b_a]).
Proof.
  apply (proj1 (run_edges_deduplicated_ordered env_ab (driller env_ab)
                  {| imports := 2; keyworded_files := 2 |} calls_ab
                  ltac:(vm_compute; reflexivity))
           [edge_a_b; edge_b_a]).
  right. left.
Defined.

(** X9. An edge reaches the store exactly for the imports that resolve
    between two files the store knows: every edge handed over joins a
    scanned, known file to a scanned, known path that one of its import
    specifiers resolves to, and every such import has its pair of merge
    hashes among the edges handed over. *)
Theorem run_indexes_resolved_imports (env : Env) (self : DependencyDriller)
    (summary : Summary) (calls : list StoreCall) :
  run env self = Ok (summary, calls) →
  (∀ rows e, index_imports rows ∈ calls → e ∈ rows →
     ∃ wf q, resolved_import env self wf q
             ∧ e = edge_between env (rel_path wf) q)
  ∧ (∀ wf q, resolved_import env self wf q →
       ∃ rows, index_imports rows ∈ calls
               ∧ edge_key (edge_between env (rel_path wf) q) ∈ edge_key <$> rows).
Proof.
  intros (edges & _ & -> & Hsound & Hcomplete)%run_Ok_trace. split.
  - intros rows e ->%calls_for_imports. apply Hsound.
  - intros wf q Himp. exists edges. split; [|by apply Hcomplete].
    pose proof (Hcomplete wf q Himp) as Hkey.
    apply list_elem_of_fmap in Hkey as (e & _ & He).
    destruct (Hsound e He) as (wf' & _ & (Hwf' & Hsrc' & _) & _).
    assert (wf' ∈ filter (λ wf, known_path env (rel_path wf))
                    (_iter_working_files env self)) as Hin
      by by apply list_elem_of_filter.
    unfold calls_for.
    destruct (filter _ _) as [|w ws]; [by apply elem_of_nil in Hin|].
    destruct edges; [by apply elem_of_nil in He|]. right. left.
Qed.

Lemma run_indexes_resolved_imports_witness :
  ∃ wf q, resolved_import env_ab (driller env_ab) wf q
          ∧ edge_a_b = edge_between env_ab (rel_path wf) q.
Proof.
  apply (proj1 (run_indexes_resolved_imports env_ab (driller env_ab)
                  {| imports := 2; keyworded_files := 2 |} calls_ab
                  ltac:(vm_compute; reflexivity))
           [edge_a_b; edge_b_a] edge_a_b).
  - right. left.
  - left.
Defined.

(** X10. A run that returns has made one keyword row for each scanned
    file whose merge hash the store knows, in scan order, whether or not
    the file has imports; it calls the store for the keyword rows first
    and for the edges second, never with an empty list, never for the
    edges alone, and the summary counts the rows of the two calls. *)
Theorem run_keyword_rows_and_calls (env : Env) (self : DependencyDriller)
    (summary : Summary) (calls : list StoreCall) :
  run env self = Ok (summary, calls) →
  let rows := keyword_row_of env
    <$> filter (λ wf, known_path env (rel_path wf))
          (_iter_working_files env self) in
  ∃ edges,
    summary = {| imports := length edges; keyworded_files := length rows |}
    ∧ calls = calls_for rows edges.
Proof.
  intros (edges & Hsummary & Hcalls & _)%run_Ok_trace. by exists edges.
Qed.

Lemma run_keyword_rows_and_calls_witness :
  ∃ edges,
    {| imports := 2; keyworded_files := 2 |}
    = {| imports := length edges;
         keyworded_files := length (keyword_row_of env_ab
           <$> filter (λ wf, known_path env_ab (rel_path wf))
                 (_iter_working_files env_ab (driller env_ab))) |}
    ∧ calls_ab
      = calls_for (keyword_row_of env_ab
          <$> filter (λ wf, known_path env_ab (rel_path wf))
                (_iter_working_files env_ab (driller env_ab))) edges.
Proof.
  apply (run_keyword_rows_and_calls env_ab (driller env_ab)
           {| imports := 2; keyworded_files := 2 |} calls_ab).
  vm_compute. reflexivity.
Defined.

(** X11. When the loop of a run over the scanned files raises, it raises
    what the import extractor raised on a scanned file whose merge hash
    the store knows, or what the resolver raised on one of the specifiers
    of such a file: in the loop, the lookup of the hashes of a scanned
    file never fails, and a file that the store does not know is passed
    over before anything is extracted from it. *)
Theorem run_loop_raises_at_known_file (env : Env) (self : DependencyDriller)
    (e : exn) :
  let scanned := _iter_working_files env self in
  for_each (process_file env (_load_known_files env)
              (list_to_set (rel_path <$> scanned)))
    (initial_state env scanned) scanned = Raise e →
  ∃ wf, wf ∈ scanned ∧ known_path env (rel_path wf)
    ∧ (_extract_imports env wf = Raise e
       ∨ ∃ targets target,
           _extract_imports env wf = Ok targets ∧ target ∈ targets
           ∧ _resolve_target wf target (list_to_set (rel_path <$> scanned))
             = Raise e).
Proof. cbv zeta. apply run_loop_Raise. Qed.

Lemma run_loop_raises_at_known_file_witness :
  ∃ wf, wf ∈ _iter_working_files env_unreadable (driller env_unreadable)
    ∧ known_path env_unreadable (rel_path wf)
    ∧ (_extract_imports env_unreadable wf = Raise OSError
       ∨ ∃ targets target,
           _extract_imports env_unreadable wf = Ok targets ∧ target ∈ targets
           ∧ _resolve_target wf target
               (list_to_set (rel_path
                  <$> _iter_working_files env_unreadable (driller env_unreadable)))
             = Raise OSError).
Proof.
  apply (run_loop_raises_at_known_file env_unreadable (driller env_unreadable)
           OSError).
  vm_compute. reflexivity.
Defined.

(** X12. The hashes of every scanned path are computed before the loop
    over the files: after any number of its iterations the table of hashes
    is the one the loop started with, so the lookup of a resolved target
    always hits and the fallback that hashes it again adds no entry. *)
Theorem run_hashes_computed_once (env : Env) (self : DependencyDriller)
    (done rest : list WorkingFile) (st : RunState) :
  let scanned := _iter_working_files env self in
  scanned = done ++ rest →
  for_each (process_file env (_load_known_files env)
              (list_to_set (rel_path <$> scanned)))
    (initial_state env scanned) done = Ok st →
  file_hashes st = file_hashes (initial_state env scanned).
Proof.
  simpl. intros _.
  apply (for_each_invariant
    (λ s, file_hashes s
          = file_hashes (initial_state env (_iter_working_files env self))));
    [|done].
  intros s wf s' _ Hs Hstep. rewrite <- Hs.
  apply process_file_file_hashes in Hstep; [done|].
  intros p (wf' & -> & Hwf')%list_elem_of_fmap. rewrite Hs.
  by apply (inv_scanned _ _ _ _
    (initial_state_invariant env (_load_known_files env)
       (_iter_working_files env self))).
Qed.

Lemma run_hashes_computed_once_witness :
  ∃ st,
    for_each (process_file env_ab (_load_known_files env_ab)
                (list_to_set (rel_path
                   <$> _iter_working_files env_ab (driller env_ab))))
      (initial_state env_ab (_iter_working_files env_ab (driller env_ab)))
      (_iter_working_files env_ab (driller env_ab)) = Ok st
    ∧ file_hashes st
      = file_hashes
          (initial_state env_ab (_iter_working_files env_ab (driller env_ab))).
Proof.
  destruct (for_each (process_file env_ab (_load_known_files env_ab)
                (list_to_set (rel_path
                   <$> _iter_working_files env_ab (driller env_ab))))
      (initial_state env_ab (_iter_working_files env_ab (driller env_ab)))
      (_iter_working_files env_ab (driller env_ab))) as [st|e] eqn:Hloop.
  - exists st. split; [done|].
    apply (run_hashes_computed_once env_ab (driller env_ab)
             (_iter_working_files env_ab (driller env_ab)) [] st);
      [by rewrite app_nil_r|done].
  - by vm_compute in Hloop.
Defined.

(** ** The keywords of a file that cannot be read *)

Lemma no_identifiers_in_empty_text :
  ident_patterns ≫= (λ pat, findall pat "") = [].
Proof. reflexivity. Qed.

Lemma snippet_of_unreadable (env : Env) (file : WorkingFile) (e : exn) :
  read_text env (abs_path file) = Raise e → snippet_of env file = "".
Proof. unfold snippet_of. by intros ->. Qed.

Lemma extract_keywords_path_prefix (env : Env) (file : WorkingFile) :
  take KEYWORD_LIMIT (path_keywords file) `prefix_of` _extract_keywords env file.
Proof.
  unfold _extract_keywords.
  rewrite foldl_add_keyword_patterns, foldl_add_keyword, firstn_app.
  by eexists.
Qed.

Lemma extract_keywords_no_text (env : Env) (file : WorkingFile) :
  snippet_of env file = "" →
  _extract_keywords env file = take KEYWORD_LIMIT (path_keywords file).
Proof.
  intros Hsnippet. unfold _extract_keywords.
  by rewrite foldl_add_keyword_patterns, Hsnippet, no_identifiers_in_empty_text.
Qed.

(** X13. The keywords taken from the path of a file come first whatever
    the file holds: their first 20 are a prefix of the keyword list. A
    file whose text cannot be read raises nothing in the keyword
    extractor and has the keywords of its path alone. *)
Theorem extract_keywords_path_first (env : Env) (file : WorkingFile) :
  take KEYWORD_LIMIT (path_keywords file) `prefix_of` _extract_keywords env file
  ∧ ∀ e, read_text env (abs_path file) = Raise e →
      _extract_keywords env file = take KEYWORD_LIMIT (path_keywords file).
Proof.
  split; [apply extract_keywords_path_prefix|].
  intros e He. by eapply extract_keywords_no_text, snippet_of_unreadable.
Qed.

(** * The category manager *)

(** ** [merge_categories] *)

Lemma merge_step_fold (existing : gmap (option string) (option string))
    (categories : list Categories.CategoryInput)
    (rows0 : list Categories.CategorySpec) (names0 : gset string) :
  let rows := filter (λ cat, Categories.name cat ≠ "")
                (Categories.as_spec <$> categories) in
  foldl (Categories.merge_step existing) (rows0, names0) categories
  = (rows0 ++ rows,
     names0 ∪ list_to_set (filter (λ n, existing !! Some n = None)
                             (Categories.name <$> rows))).
Proof.
  simpl. revert rows0 names0.
  induction categories as [|cat categories IH]; intros rows0 names0.
  { simpl. by rewrite app_nil_r, (right_id_L ∅ (∪)). }
  rewrite fmap_cons. cbn [foldl]. unfold Categories.merge_step at 2.
  destruct (decide (Categories.name (Categories.as_spec cat) = "")) as [He|He].
  - rewrite filter_cons_False by (intros H; exact (H He)). apply IH.
  - rewrite filter_cons_True by done. cbn [fst snd]. rewrite IH.
    rewrite fmap_cons, <- app_assoc. cbn [app].
    assert (∀ c : Categories.CategorySpec,
      {| Categories.name := Categories.name c;
         Categories.description := Categories.description c;
         Categories.url := Categories.url c |} = c) as Heta by (by intros []).
    rewrite Heta. f_equal.
    destruct (decide (existing !! Some _ = None)) as [Hn|Hn].
    + rewrite filter_cons_True by done.
      by rewrite list_to_set_cons, (assoc_L (∪)).
    + by rewrite filter_cons_False by done.
Qed.

Lemma size_list_to_set_le (l : list string) :
  size (list_to_set l : gset string) ≤ length l.
Proof.
  induction l as [|x l IH].
  - by rewrite list_to_set_nil, size_empty.
  - rewrite list_to_set_cons, size_union_alt, size_singleton. cbn [length].
    pose proof (subseteq_size (list_to_set l ∖ {[x]}) (list_to_set l : gset string)
                  ltac:(apply subseteq_difference_l; done)).
    lia.
Qed.

(** What [merge_categories] returns and writes. *)
Lemma merge_categories_eq (store : Categories.Store)
    (self : Categories.CategoryManager)
    (categories : list Categories.CategoryInput) (log : list Categories.Call) :
  let rows := filter (λ cat, Categories.name cat ≠ "")
                (Categories.as_spec <$> categories) in
  let after_other :=
    log ++ [Categories.index_categories [Categories.other]
              (Categories.project_id self)] in
  let existing :=
    Categories.categories_of
      (Categories.category_rows_after store after_other
         (Categories.project_id self)) in
  let new_names : gset string :=
    list_to_set (filter (λ n, existing !! Some n = None)
                   (Categories.name <$> rows)) in
  Categories.merge_categories store self categories log
  = (Ok {[ "categories_total" := length rows;
           "categories_created" := size new_names ]},
     after_other
     ++ match rows with
        | [] => []
        | _ => [Categories.index_categories rows (Categories.project_id self)]
        end).
Proof.
  simpl. unfold Categories.merge_categories, Categories.ensure_other,
    Categories._existing_categories, Categories.call, Categories.query.
  unfold mbind, Categories.method_bind, mret, Categories.method_ret.
  cbv beta iota.
  rewrite (merge_step_fold _ categories [] ∅). cbn [app].
  rewrite (left_id_L ∅ (∪)).
  destruct (filter _ (Categories.as_spec <$> categories)) as [|row rows];
    [by rewrite app_nil_r|done].
Qed.

(** X14. When [merge_categories] returns, it has written the fallback
    category first, also for an empty input, and then, in one call made
    only when there is a row, a row for each category with a non-empty
    name, in the order given and with repetitions. The total counts these
    rows; the created count is the number of distinct names among them
    that the store, read after the first write, does not hold, so it never
    exceeds the total. *)
Theorem merge_categories_counts (store : Categories.Store)
    (self : Categories.CategoryManager)
    (categories : list Categories.CategoryInput) (log log' : list Categories.Call)
    (summary : gmap string nat) :
  Categories.merge_categories store self categories log = (Ok summary, log') →
  let rows := filter (λ cat, Categories.name cat ≠ "")
                (Categories.as_spec <$> categories) in
  let after_other :=
    log ++ [Categories.index_categories [Categories.other]
              (Categories.project_id self)] in
  let existing :=
    Categories.categories_of
      (Categories.category_rows_after store after_other
         (Categories.project_id self)) in
  let new_names : gset string :=
    list_to_set (filter (λ n, existing !! Some n = None)
                   (Categories.name <$> rows)) in
  summary = {[ "categories_total" := length rows;
               "categories_created" := size new_names ]}
  ∧ log' = after_other
           ++ match rows with
              | [] => []
              | _ => [Categories.index_categories rows
                        (Categories.project_id self)]
              end
  ∧ size new_names ≤ length rows.
Proof.
  rewrite merge_categories_eq. cbv zeta. intros [= <- <-].
  split_and!; [done|done|].
  etrans; [apply size_list_to_set_le|].
  etrans; [apply length_filter|]. by rewrite length_fmap.
Qed.

(** Two categories named [Docs], one without a name and one the store
    holds: three rows, one new name. *)
Lemma merge_categories_counts_witness :
  let store :=
    Categories.mkStore (λ _ _, [])
      (λ _ _, [Categories.mkCategoryRow (Some "Files") (Some "/files")]) in
  let self := Categories.mkManager "p" in
  let docs := Categories.spec (Categories.mkCategorySpec "Docs" "" "/docs") in
  let categories :=
    [ docs; Categories.spec_dict (Categories.mkCategoryDict None None None);
      docs; Categories.spec (Categories.mkCategorySpec "Files" "" "/files") ] in
  let rows := filter (λ cat, Categories.name cat ≠ "")
                (Categories.as_spec <$> categories) in
  let after_other :=
    [] ++ [Categories.index_categories [Categories.other]
             (Categories.project_id self)] in
  let existing :=
    Categories.categories_of
      (Categories.category_rows_after store after_other
         (Categories.project_id self)) in
  let new_names : gset string :=
    list_to_set (filter (λ n, existing !! Some n = None)
                   (Categories.name <$> rows)) in
  ({[ "categories_total" := 3; "categories_created" := 1 ]} : gmap string nat)
  = {[ "categories_total" := length rows;
       "categories_created" := size new_names ]}.
Proof.
  intros store self docs categories rows after_other existing new_names.
  assert (Categories.merge_categories store self categories []
          = (Ok {[ "categories_total" := 3; "categories_created" := 1 ]},
             [ Categories.index_categories [Categories.other] "p";
               Categories.index_categories
                 [ Categories.mkCategorySpec "Docs" "" "/docs";
                   Categories.mkCategorySpec "Docs" "" "/docs";
                   Categories.mkCategorySpec "Files" "" "/files" ] "p" ]))
    as Hrun by (vm_compute; reflexivity).
  exact (proj1 (merge_categories_counts _ _ _ _ _ _ Hrun)).
Defined.

(** ** [_normalize_assignments] *)

Lemma normalize_step_app (env : Env) (known_files : gmap string string)
    (normalized : list Categories.NormalizedRow) (a : Categories.AssignmentInput) :
  Categories.normalize_step env known_files normalized a
  = normalized ++ Categories.normalize_step env known_files [] a.
Proof.
  unfold Categories.normalize_step.
  destruct (match negb _, Categories.path _ with
            | true, Some (String _ _ as p) => _ | _, _ => _ end) as [mh fh].
  destruct mh as [[|c mh]|]; rewrite ?app_nil_r; try done.
  destruct (decide _); by rewrite ?app_nil_r.
Qed.

Lemma normalize_assignments_bind (env : Env) (known_files : gmap string string)
    (assignments : list Categories.AssignmentInput) :
  Categories._normalize_assignments env assignments known_files
  = assignments ≫= Categories.normalize_step env known_files [].
Proof.
  unfold Categories._normalize_assignments.
  enough (∀ acc, foldl (Categories.normalize_step env known_files) acc assignments
                 = acc ++ (assignments ≫= Categories.normalize_step env known_files []))
    as H by apply (H []).
  induction assignments as [|a l IH]; intros acc.
  { simpl. by rewrite app_nil_r. }
  rewrite bind_cons. cbn [foldl]. rewrite IH, normalize_step_app.
  by rewrite <- app_assoc.
Qed.

(** One assignment gives no row, or one row with a known merge hash. *)
Lemma normalize_step_row (env : Env) (known_files : gmap string string)
    (a : Categories.AssignmentInput) :
  Categories.normalize_step env known_files [] a = []
  ∨ ∃ row, Categories.normalize_step env known_files [] a = [row]
           ∧ Categories.n_merge_hash row ≠ ""
           ∧ is_Some (known_files !! Categories.n_merge_hash row).
Proof.
  unfold Categories.normalize_step.
  destruct (match negb _, Categories.path _ with
            | true, Some (String _ _ as p) => _ | _, _ => _ end) as [mh fh].
  destruct mh as [[|c mh]|]; [by left| |by left].
  destruct (decide _) as [|Hk]; [by left|right].
  eexists. split; [done|]. simpl. split; [done|].
  by apply not_eq_None_Some.
Qed.

Lemma normalize_step_row_as_dict (env : Env) (known_files : gmap string string)
    (row : Categories.NormalizedRow) :
  Categories.n_merge_hash row ≠ "" →
  is_Some (known_files !! Categories.n_merge_hash row) →
  Categories.normalize_step env known_files [] (row_as_dict row) = [row].
Proof.
  intros Hne Hk. destruct row as [mh fh cat conf]. simpl in Hne, Hk.
  unfold Categories.normalize_step, row_as_dict. simpl.
  destruct mh as [|c mh]; [done|]. simpl.
  rewrite decide_False; [done|]. by apply not_eq_None_Some.
Qed.

(** At most one row for each assignment, each with a known merge hash. *)
Lemma normalize_assignments_rows (env : Env)
    (assignments : list Categories.AssignmentInput)
    (known_files : gmap string string) :
  let normalized := Categories._normalize_assignments env assignments known_files in
  length normalized ≤ length assignments
  ∧ Forall (λ row, Categories.n_merge_hash row ≠ ""
              ∧ is_Some (known_files !! Categories.n_merge_hash row))
      normalized.
Proof.
  simpl. rewrite normalize_assignments_bind.
  induction assignments as [|a l [IHlen IHall]]; [by split|].
  rewrite bind_cons, length_app, Forall_app. cbn [length].
  destruct (normalize_step_row env known_files a) as [->|(row & -> & Hrow)].
  - split; [simpl; lia|]. by split.
  - split; [simpl; lia|]. split; [|done]. by constructor.
Qed.

(** X15. The normalised rows are at most as many as the assignments; each
    has a non-empty merge hash that is among the known files; and the
    rows, given again as assignments, normalise to themselves. *)
Theorem normalize_assignments_known_and_stable (env : Env)
    (assignments : list Categories.AssignmentInput)
    (known_files : gmap string string) :
  let normalized := Categories._normalize_assignments env assignments known_files in
  length normalized ≤ length assignments
  ∧ (∀ row, row ∈ normalized →
       Categories.n_merge_hash row ≠ ""
       ∧ is_Some (known_files !! Categories.n_merge_hash row))
  ∧ Categories._normalize_assignments env (row_as_dict <$> normalized) known_files
    = normalized.
Proof.
  cbv zeta.
  destruct (normalize_assignments_rows env assignments known_files)
    as [Hlen Hall].
  split_and!; [done|by apply Forall_forall|]. clear Hlen.
  rewrite normalize_assignments_bind.
  induction Hall as [|row rows [Hne Hk] _ IH]; [done|].
  rewrite fmap_cons, bind_cons, IH.
  by rewrite normalize_step_row_as_dict.
Qed.

(** ** [assign_categories] *)

(** What [assign_categories] returns and writes. *)
Lemma assign_categories_eq (env : Env) (store : Categories.Store)
    (self : Categories.CategoryManager)
    (assignments : list Categories.AssignmentInput)
    (category_project_id : option string) (log : list Categories.Call) :
  let pid := Categories.project_id self in
  let after_other := log ++ [Categories.index_categories [Categories.other] pid] in
  let target_cat_pid :=
    if Categories.truthy category_project_id
    then default "" category_project_id else pid in
  let existing :=
    Categories.categories_of
      (Categories.category_rows_after store after_other target_cat_pid) in
  let missing_cats := foldl (Categories.missing_step existing) [] assignments in
  ∃ known_files,
    Categories._load_known_files store self after_other = (Ok known_files, after_other)
    ∧ Categories.assign_categories env store self assignments
        category_project_id log
      = if decide (known_files = ∅) then (Ok {[ "assigned" := 0 ]}, after_other)
        else
          let normalized :=
            Categories._normalize_assignments env assignments known_files in
          (Ok {[ "assigned" := length normalized ]},
           match missing_cats with
           | [] => after_other
           | _ => (Categories.merge_categories store self missing_cats
                     after_other).2
           end
           ++ match normalized with
              | [] => []
              | _ => [Categories.index_file_categories normalized pid
                        target_cat_pid]
              end).
Proof.
  simpl. eexists. split; [reflexivity|].
  unfold Categories.assign_categories, Categories.ensure_other, Categories.call.
  unfold mbind, Categories.method_bind, mret, Categories.method_ret.
  cbv beta iota.
  unfold Categories._load_known_files at 1, Categories.query at 1.
  cbv beta iota.
  destruct (decide (_ = ∅)) as [Hk|Hk]; [done|].
  set (target := match category_project_id with
                 | Some pid => if Categories.truthy (Some pid) then pid
                               else Categories.project_id self
                 | None => Categories.project_id self end).
  assert (target = if Categories.truthy category_project_id
                   then default "" category_project_id
                   else Categories.project_id self) as <-.
  { unfold target. by destruct category_project_id as [[|c p]|]. }
  assert ((if decide (target = Categories.project_id self)
           then Categories._existing_categories store self
           else Categories._existing_categories_from_pid store target)
          = Categories._existing_categories_from_pid store target) as ->.
  { destruct (decide _) as [Heq|]; [|done].
    unfold Categories._existing_categories,
      Categories._existing_categories_from_pid. by rewrite Heq. }
  unfold Categories._existing_categories_from_pid, Categories.query.
  cbv beta iota.
  destruct (foldl (Categories.missing_step _) [] assignments) as [|cat cats].
  - destruct (Categories._normalize_assignments _ _ _) as [|row rows];
      [by rewrite app_nil_r|done].
  - rewrite merge_categories_eq. cbv zeta beta iota. cbn [snd].
    destruct (Categories._normalize_assignments _ _ _) as [|row rows];
      [by rewrite app_nil_r|done].
Qed.

Lemma merge_categories_Ok (store : Categories.Store)
    (self : Categories.CategoryManager)
    (categories : list Categories.CategoryInput) (log : list Categories.Call) :
  ∃ res calls,
    Categories.merge_categories store self categories log
    = (Ok res,
       log ++ Categories.index_categories [Categories.other]
                (Categories.project_id self) :: calls)
    ∧ ∀ c, c ∈ calls →
        ∃ rows, c = Categories.index_categories rows (Categories.project_id self).
Proof.
  rewrite merge_categories_eq. cbv zeta.
  eexists _, _. rewrite <- app_assoc. split; [reflexivity|].
  intros c Hc. destruct (filter _ _) as [|row rows].
  - by apply elem_of_nil in Hc.
  - apply list_elem_of_singleton in Hc as ->. by eexists.
Qed.

(** X16. When [assign_categories] returns, it reports at most as many
    files as it was given assignments. Its first write is the fallback
    category; the writes that follow it, if any, are writes of categories;
    and the assignments are written in one call, the last one, made
    exactly when a file is reported, with as many rows as files reported
    and for the category project that was asked for. *)
Theorem assign_categories_writes (env : Env) (store : Categories.Store)
    (self : Categories.CategoryManager)
    (assignments : list Categories.AssignmentInput)
    (category_project_id : option string) (log log' : list Categories.Call)
    (summary : gmap string nat) :
  Categories.assign_categories env store self assignments
    category_project_id log = (Ok summary, log') →
  let pid := Categories.project_id self in
  let target_cat_pid :=
    if Categories.truthy category_project_id
    then default "" category_project_id else pid in
  ∃ n before written,
    summary = {[ "assigned" := n ]}
    ∧ n ≤ length assignments
    ∧ log' = log ++ Categories.index_categories [Categories.other] pid
                    :: before ++ written
    ∧ (∀ c, c ∈ before → ∃ rows p, c = Categories.index_categories rows p)
    ∧ (n = 0 → written = [])
    ∧ (n ≠ 0 →
       ∃ rows, length rows = n
               ∧ written = [Categories.index_file_categories rows pid
                              target_cat_pid]).
Proof.
  destruct (assign_categories_eq env store self assignments
              category_project_id log) as (known_files & _ & ->).
  cbv zeta. destruct (decide (known_files = ∅)) as [|_].
  { intros [= <- <-]. exists 0, [], []. split_and!; [done|lia|done| |done|done].
    by intros c Hc%elem_of_nil. }
  set (normalized := Categories._normalize_assignments env assignments known_files).
  set (written := match normalized with [] => [] | _ => _ end).
  assert (∃ before,
    match foldl (Categories.missing_step _) [] assignments with
    | [] => log ++ [Categories.index_categories [Categories.other]
                      (Categories.project_id self)]
    | _ => (Categories.merge_categories store self _ _).2
    end
    = log ++ Categories.index_categories [Categories.other]
               (Categories.project_id self) :: before
    ∧ ∀ c, c ∈ before → ∃ rows p, c = Categories.index_categories rows p)
    as (before & -> & Hbefore).
  { destruct (foldl _ [] assignments) as [|cat cats].
    - exists []. split; [done|]. by intros c Hc%elem_of_nil.
    - destruct (merge_categories_Ok store self (cat :: cats)
        (log ++ [Categories.index_categories [Categories.other]
                   (Categories.project_id self)])) as (res & calls & -> & Hcalls).
      cbn [snd]. rewrite <- app_assoc. cbn [app].
      eexists. split; [reflexivity|].
      intros c [->|Hc]%elem_of_cons; [by eexists _, _|].
      destruct (Hcalls c Hc) as (rows & ->). by eexists _, _. }
  intros [= <- <-]. exists (length normalized), before, written.
  rewrite <- app_assoc. cbn [app]. split_and!; [done| |done|done| |].
  - apply (normalize_assignments_rows env assignments known_files).
  - unfold written. by destruct normalized.
  - intros Hn. exists normalized. split; [done|]. unfold written.
    by destruct normalized.
Qed.

(** Two assignments, of which the store knows the file of the first. *)
Lemma assign_categories_writes_witness :
  ∃ n before written,
    ({[ "assigned" := 1 ]} : gmap string nat) = {[ "assigned" := n ]}
    ∧ n ≤ 2
    ∧ [ Categories.index_categories [Categories.other] "p";
        Categories.index_categories [Categories.other] "p";
        Categories.index_categories
          [ Categories.mkCategorySpec "Docs" "" "";
            Categories.mkCategorySpec "Docs" "" "" ] "p";
        Categories.index_file_categories
          [Categories.mkNormalizedRow "m:a.ts" (Some "h:a.ts") "Docs" None]
          "p" "q" ]
      = [] ++ Categories.index_categories [Categories.other] "p"
              :: before ++ written
    ∧ (∀ c, c ∈ before → ∃ rows p, c = Categories.index_categories rows p)
    ∧ (n = 0 → written = [])
    ∧ (n ≠ 0 →
       ∃ rows, length rows = n
               ∧ written = [Categories.index_file_categories rows "p" "q"]).
Proof.
  apply (assign_categories_writes env_ab
           (Categories.mkStore (λ _ _, [row_of "a.ts"]) (λ _ _, []))
           (Categories.mkManager "p")
           [ Categories.assignment
               (Categories.mkFileCategoryAssignment "Docs" (Some "a.ts") None
                  None None);
             Categories.assignment
               (Categories.mkFileCategoryAssignment "Docs" (Some "zz.ts") None
                  None None) ]
           (Some "q") []).
  vm_compute. reflexivity.
Defined.

(** X17. When the store, after the write of the fallback category, holds
    no file of the project, [assign_categories] stops there: it reports
    no file, and the fallback category is all it has written. *)
Theorem assign_categories_no_known_files (env : Env) (store : Categories.Store)
    (self : Categories.CategoryManager)
    (assignments : list Categories.AssignmentInput)
    (category_project_id : option string) (log : list Categories.Call) :
  let after_other :=
    log ++ [Categories.index_categories [Categories.other]
              (Categories.project_id self)] in
  Categories._load_known_files store self after_other = (Ok ∅, after_other) →
  Categories.assign_categories env store self assignments
    category_project_id log
  = (Ok {[ "assigned" := 0 ]}, after_other).
Proof.
  intros after_other Hknown.
  destruct (assign_categories_eq env store self assignments
              category_project_id log) as (known_files & Hk & ->).
  fold after_other in Hk. rewrite Hknown in Hk. injection Hk as <-.
  by rewrite decide_True.
Qed.

Lemma assign_categories_no_known_files_witness :
  Categories.assign_categories env_ab
    (Categories.mkStore (λ _ _, []) (λ _ _, [])) (Categories.mkManager "p")
    [Categories.assignment
       (Categories.mkFileCategoryAssignment "Docs" (Some "a.ts") None None None)]
    None []
  = (Ok {[ "assigned" := 0 ]},
     [Categories.index_categories [Categories.other] "p"]).
Proof.
  apply (assign_categories_no_known_files env_ab
           (Categories.mkStore (λ _ _, []) (λ _ _, [])) (Categories.mkManager "p")
           [Categories.assignment
              (Categories.mkFileCategoryAssignment "Docs" (Some "a.ts") None None
                 None)]
           None []).
  reflexivity.
Defined.

(** The manager on a store that holds one file and no category. *)
Example assign_categories_one_file :
  Categories.assign_categories env_ab
    (Categories.mkStore (λ _ _, [row_of "a.ts"]) (λ _ _, []))
    (Categories.mkManager "p")
    [Categories.assignment
       (Categories.mkFileCategoryAssignment "Docs" (Some "a.ts") None None None);
     Categories.assignment
       (Categories.mkFileCategoryAssignment "Docs" (Some "zz.ts") None None None)]
    (Some "q") []
  = (Ok {[ "assigned" := 1 ]},
     [ Categories.index_categories [Categories.other] "p";
       Categories.index_categories [Categories.other] "p";
       Categories.index_categories
         [Categories.mkCategorySpec "Docs" "" "";
          Categories.mkCategorySpec "Docs" "" ""] "p";
       Categories.index_file_categories
         [Categories.mkNormalizedRow "m:a.ts" (Some "h:a.ts") "Docs" None]
         "p" "q" ]).
Proof. vm_compute. reflexivity. Qed.

(** ** [auto_categories] and [categorize] *)

(** [auto_categories], case by case. *)
Lemma auto_categories_eq (store : Categories.Store)
    (self : Categories.CategoryManager) (routes : list string)
    (generator : option (list string → result (list Categories.CategoryInput)))
    (log : list Categories.Call) :
  let urls :=
    Categories.existing_urls
      (Categories.categories_of
         (Categories.category_rows_after store log (Categories.project_id self))) in
  Categories.auto_categories store self routes generator log
  = match filter (λ r, Categories.truthy (Some r) = true ∧ r ∉ urls) routes with
    | [] => (Ok {[ "categories_created" := 0 ]}, log)
    | missing_routes =>
        match generator with
        | None => (Raise ValueError, log)
        | Some generator =>
            match generator missing_routes with
            | Ok generated => Categories.merge_categories store self generated log
            | Raise e => (Raise e, log)
            end
        end
    end.
Proof.
  cbv zeta. unfold Categories.auto_categories, Categories._existing_categories,
    Categories.query, Categories.raise, Categories.lift.
  unfold mbind, Categories.method_bind, mret, Categories.method_ret.
  cbv beta iota.
  destruct (filter _ routes) as [|r rs]; [done|].
  destruct generator as [generator|]; [|done].
  destruct (generator (r :: rs)) as [generated|e]; [|done].
  by destruct (Categories.merge_categories store self generated log) as [[] ?].
Qed.

(** X18. [auto_categories] reads the store and, when every non-empty route
    is the url of a category, returns without a write and without calling
    the generator. With a route missing and no generator it raises
    [ValueError], again without a write; with a generator it merges what
    the generator makes of the missing routes, in their order, and raises
    what the generator raises. *)
Theorem auto_categories_outcomes (store : Categories.Store)
    (self : Categories.CategoryManager) (routes : list string)
    (log : list Categories.Call) :
  let urls :=
    Categories.existing_urls
      (Categories.categories_of
         (Categories.category_rows_after store log (Categories.project_id self))) in
  let missing_routes :=
    filter (λ r, Categories.truthy (Some r) = true ∧ r ∉ urls) routes in
  (missing_routes = [] →
   ∀ generator, Categories.auto_categories store self routes generator log
                = (Ok {[ "categories_created" := 0 ]}, log))
  ∧ (missing_routes ≠ [] →
     Categories.auto_categories store self routes None log
     = (Raise ValueError, log)
     ∧ ∀ generator,
         Categories.auto_categories store self routes (Some generator) log
         = match generator missing_routes with
           | Ok generated => Categories.merge_categories store self generated log
           | Raise e => (Raise e, log)
           end).
Proof.
  cbv zeta. split.
  - intros Hm generator. rewrite auto_categories_eq. cbv zeta. by rewrite Hm.
  - intros Hm. split; [|intros generator]; rewrite auto_categories_eq;
      cbv zeta; by destruct (filter _ routes).
Qed.

Lemma assign_categories_Ok (env : Env) (store : Categories.Store)
    (self : Categories.CategoryManager)
    (assignments : list Categories.AssignmentInput)
    (category_project_id : option string) (log : list Categories.Call) :
  ∃ n calls,
    Categories.assign_categories env store self assignments
      category_project_id log
    = (Ok {[ "assigned" := n ]}, log ++ calls)
    ∧ n ≤ length assignments.
Proof.
  destruct (assign_categories_eq env store self assignments
              category_project_id log) as (known_files & _ & ->).
  cbv zeta. destruct (decide (known_files = ∅)).
  { eexists _, _. split; [done|]. lia. }
  pose proof (proj1 (normalize_assignments_rows env assignments known_files))
    as Hlen.
  destruct (foldl _ [] assignments) as [|cat cats].
  - eexists _, _. by rewrite <- app_assoc.
  - destruct (merge_categories_Ok store self (cat :: cats)
      (log ++ [Categories.index_categories [Categories.other]
                 (Categories.project_id self)])) as (res & calls & -> & _).
    cbn [snd]. eexists _, _. by rewrite <- !app_assoc.
Qed.

Lemma summary_set_total (total created assigned total' : nat) :
  <["categories_total" := total']>
    ({[ "categories_total" := total; "categories_created" := created;
        "assigned" := assigned ]} : gmap string nat)
  = {[ "categories_total" := total'; "categories_created" := created;
       "assigned" := assigned ]}.
Proof. apply insert_insert_eq. Qed.

Lemma summary_set_created (total created assigned created' : nat) :
  <["categories_created" := created']>
    ({[ "categories_total" := total; "categories_created" := created;
        "assigned" := assigned ]} : gmap string nat)
  = {[ "categories_total" := total; "categories_created" := created';
       "assigned" := assigned ]}.
Proof. rewrite insert_insert_ne by done. by rewrite insert_insert_eq. Qed.

Lemma summary_set_assigned (total created assigned assigned' : nat) :
  <["assigned" := assigned']>
    ({[ "categories_total" := total; "categories_created" := created;
        "assigned" := assigned ]} : gmap string nat)
  = {[ "categories_total" := total; "categories_created" := created;
       "assigned" := assigned' ]}.
Proof.
  rewrite insert_insert_ne by done. by f_equal.
Qed.

Lemma bind_Ok {A B : Type} (m : Categories.Method A)
    (k : A → Categories.Method B) (log log' : list Categories.Call) (a : A) :
  m log = (Ok a, log') → (m ≫= k) log = k a log'.
Proof. unfold mbind, Categories.method_bind. by intros ->. Qed.

Lemma bind_Raise {A B : Type} (m : Categories.Method A)
    (k : A → Categories.Method B) (log log' : list Categories.Call) (e : exn) :
  m log = (Raise e, log') → (m ≫= k) log = (Raise e, log').
Proof. unfold mbind, Categories.method_bind. by intros ->. Qed.

(** The block for the categories keeps the three counts, and the created
    count below the total. *)
Lemma categorize_categories_Ok (store : Categories.Store)
    (self : Categories.CategoryManager)
    (categories : option (list Categories.CategoryInput))
    (total created assigned : nat) (log : list Categories.Call) :
  created ≤ total →
  ∃ total' created' log',
    Categories.categorize_categories store self categories
      {[ "categories_total" := total; "categories_created" := created;
         "assigned" := assigned ]} log
    = (Ok {[ "categories_total" := total'; "categories_created" := created';
             "assigned" := assigned ]}, log')
    ∧ created' ≤ total'.
Proof.
  intros Hle. unfold Categories.categorize_categories.
  destruct categories as [[|cat cats]|].
  - by exists total, created, log.
  - assert (∃ res log1 t c,
      Categories.merge_categories store self (cat :: cats) log = (Ok res, log1)
      ∧ default 0 (res !! "categories_total") = t
      ∧ default 0 (res !! "categories_created") = c
      ∧ c ≤ t) as (res & log1 & t & c & Hm & Ht & Hc & Hct).
    { eexists _, _, _, _. split; [apply merge_categories_eq|]. cbv zeta.
      rewrite lookup_insert_eq, lookup_insert_ne, lookup_singleton_eq by done.
      split_and!; [done|done|]. cbn [default].
      etrans; [apply size_list_to_set_le|].
      etrans; [apply length_filter|]. by rewrite length_fmap. }
    exists (total + t), (created + c), log1.
    erewrite bind_Ok by exact Hm.
    unfold Categories.getitem. rewrite lookup_insert_eq.
    erewrite bind_Ok by reflexivity.
    rewrite summary_set_total, lookup_insert_ne, lookup_insert_eq by done.
    erewrite bind_Ok by reflexivity.
    rewrite summary_set_created, Ht, Hc. split; [done|lia].
  - by exists total, created, log.
Qed.

(** The block for the assignments keeps the other two counts, and the
    assigned count below the number of assignments. *)
Lemma categorize_assignments_Ok (env : Env) (store : Categories.Store)
    (self : Categories.CategoryManager)
    (assignments : option (list Categories.AssignmentInput))
    (category_project_id : option string)
    (total created : nat) (log : list Categories.Call) :
  ∃ assigned log',
    Categories.categorize_assignments env store self assignments
      category_project_id
      {[ "categories_total" := total; "categories_created" := created;
         "assigned" := 0 ]} log
    = (Ok {[ "categories_total" := total; "categories_created" := created;
             "assigned" := assigned ]}, log')
    ∧ assigned ≤ length (default [] assignments).
Proof.
  unfold Categories.categorize_assignments.
  destruct assignments as [[|a assignments]|].
  - exists 0, log. by split.
  - destruct (assign_categories_Ok env store self (a :: assignments)
                category_project_id log) as (n & calls & Ha & Hn).
    eexists _, _. erewrite bind_Ok by exact Ha.
    rewrite lookup_singleton_eq. cbn [default].
    by rewrite summary_set_assigned.
  - exists 0, log. split; [done|]. cbn. lia.
Qed.

(** From three counts on, [categorize] returns three counts. *)
Lemma categorize_tail_Ok (env : Env) (store : Categories.Store)
    (self : Categories.CategoryManager)
    (categories : option (list Categories.CategoryInput))
    (assignments : option (list Categories.AssignmentInput))
    (category_project_id : option string) (total created : nat)
    (log : list Categories.Call) :
  created ≤ total →
  ∃ total' created' assigned log',
    (Categories.categorize_categories store self categories
       {[ "categories_total" := total; "categories_created" := created;
          "assigned" := 0 ]}
     ≫= λ summary,
          Categories.categorize_assignments env store self assignments
            category_project_id summary
          ≫= λ summary, mret summary) log
    = (Ok {[ "categories_total" := total'; "categories_created" := created';
             "assigned" := assigned ]}, log')
    ∧ created' ≤ total'
    ∧ assigned ≤ length (default [] assignments).
Proof.
  intros Hle.
  destruct (categorize_categories_Ok store self categories total created 0 log
              Hle) as (total' & created' & log1 & Hc & Hle').
  erewrite bind_Ok by exact Hc.
  destruct (categorize_assignments_Ok env store self assignments
              category_project_id total' created' log1)
    as (assigned & log2 & Ha & Hassigned).
  erewrite bind_Ok by exact Ha.
  by exists total', created', assigned, log2.
Qed.

(** With every route present, the routes change nothing. *)
Lemma categorize_routes_present (env : Env) (store : Categories.Store)
    (self : Categories.CategoryManager)
    (categories : option (list Categories.CategoryInput))
    (assignments : option (list Categories.AssignmentInput))
    (routes : list string)
    (generator : option (list string → result (list Categories.CategoryInput)))
    (category_project_id : option string) (log : list Categories.Call) :
  Categories.auto_categories store self routes generator log
  = (Ok {[ "categories_created" := 0 ]}, log) →
  Categories.categorize env store self categories assignments (Some routes)
    generator category_project_id log
  = Categories.categorize env store self categories assignments None
      generator category_project_id log.
Proof.
  intros Hauto. unfold Categories.categorize.
  erewrite (bind_Ok (Categories.categorize_routes _ _ (Some routes) _ _)).
  2:{ unfold Categories.categorize_routes. erewrite bind_Ok by exact Hauto.
      reflexivity. }
  erewrite (bind_Ok (Categories.categorize_routes _ _ None _ _)) by reflexivity.
  reflexivity.
Qed.

Lemma categorize_routes_Raise (env : Env) (store : Categories.Store)
    (self : Categories.CategoryManager)
    (categories : option (list Categories.CategoryInput))
    (assignments : option (list Categories.AssignmentInput))
    (routes : list string)
    (generator : option (list string → result (list Categories.CategoryInput)))
    (category_project_id : option string) (log log' : list Categories.Call)
    (e : exn) :
  Categories.auto_categories store self routes generator log = (Raise e, log') →
  Categories.categorize env store self categories assignments (Some routes)
    generator category_project_id log
  = (Raise e, log').
Proof.
  intros Hauto. unfold Categories.categorize.
  apply bind_Raise. unfold Categories.categorize_routes.
  by apply bind_Raise.
Qed.

(** X19. [categorize] with routes and without a generator. When
    [auto_categories] returns, it has found every non-empty route among
    the urls of the categories, has written nothing and has created
    nothing, and [categorize] goes on as it does without routes. When
    [auto_categories] raises, as it does with [ValueError] for a missing
    route, [categorize] raises the same with nothing more written, before
    the categories and the assignments given with the routes are looked
    at. *)
Theorem categorize_routes_without_generator (env : Env)
    (store : Categories.Store) (self : Categories.CategoryManager)
    (categories : option (list Categories.CategoryInput))
    (assignments : option (list Categories.AssignmentInput))
    (routes : list string) (category_project_id : option string)
    (log : list Categories.Call) :
  (∀ auto_res log1,
     Categories.auto_categories store self routes None log
     = (Ok auto_res, log1) →
     auto_res = {[ "categories_created" := 0 ]} ∧ log1 = log
     ∧ Categories.categorize env store self categories assignments
         (Some routes) None category_project_id log
       = Categories.categorize env store self categories assignments None
           None category_project_id log)
  ∧ (∀ e log1,
       Categories.auto_categories store self routes None log
       = (Raise e, log1) →
       Categories.categorize env store self categories assignments
         (Some routes) None category_project_id log
       = (Raise e, log1)).
Proof.
  split.
  - intros auto_res log1 Hauto.
    assert (auto_res = {[ "categories_created" := 0 ]} ∧ log1 = log)
      as [-> ->].
    { rewrite auto_categories_eq in Hauto. cbv zeta in Hauto.
      destruct (filter _ routes); [|done]. by injection Hauto as <- <-. }
    split_and!; [done|done|]. by apply categorize_routes_present.
  - intros e log1. apply categorize_routes_Raise.
Qed.

(** ** The summary of [categorize] *)

Lemma summary_update_merged (total created : nat) :
  ({[ "categories_total" := total; "categories_created" := created ]}
     : gmap string nat)
  ∪ {[ "categories_total" := 0; "categories_created" := 0; "assigned" := 0 ]}
  = {[ "categories_total" := total; "categories_created" := created;
       "assigned" := 0 ]}.
Proof.
  apply map_eq. intros k. rewrite lookup_union.
  destruct (decide (k = "categories_total")) as [->|Ht].
  { by rewrite !lookup_insert_eq. }
  rewrite !(lookup_insert_ne _ "categories_total") by done.
  destruct (decide (k = "categories_created")) as [->|Hc].
  { by rewrite lookup_singleton_eq, !lookup_insert_eq. }
  rewrite lookup_singleton_ne, !(lookup_insert_ne _ "categories_created") by done.
  by rewrite (left_id None _).
Qed.

(** What [auto_categories] returns updates the summary to three counts. *)
Lemma auto_categories_Ok_summary (store : Categories.Store)
    (self : Categories.CategoryManager) (routes : list string)
    (generator : option (list string → result (list Categories.CategoryInput)))
    (log log' : list Categories.Call) (auto_res : gmap string nat) :
  Categories.auto_categories store self routes generator log
  = (Ok auto_res, log') →
  ∃ total created,
    auto_res
    ∪ {[ "categories_total" := 0; "categories_created" := 0; "assigned" := 0 ]}
    = {[ "categories_total" := total; "categories_created" := created;
         "assigned" := 0 ]}
    ∧ created ≤ total.
Proof.
  rewrite auto_categories_eq. cbv zeta.
  destruct (filter _ routes) as [|r rs].
  - intros [= <- _]. by exists 0, 0.
  - destruct generator as [generator|]; [|done].
    destruct (generator (r :: rs)) as [generated|]; [|done].
    rewrite merge_categories_eq. cbv zeta. intros [= <- _].
    eexists _, _. split; [apply summary_update_merged|].
    etrans; [apply size_list_to_set_le|].
    etrans; [apply length_filter|]. by rewrite length_fmap.
Qed.

(** X20. When [categorize] returns, its summary holds the three counts
    and nothing else, whatever the routes, the categories and the
    assignments were: the count of the categories created is at most the
    count of the categories written, and the count of the files assigned
    at most the number of assignments given. *)
Theorem categorize_summary_counts (env : Env)
    (store : Categories.Store) (self : Categories.CategoryManager)
    (categories : option (list Categories.CategoryInput))
    (assignments : option (list Categories.AssignmentInput))
    (routes : option (list string))
    (generator : option (list string → result (list Categories.CategoryInput)))
    (category_project_id : option string) (log log' : list Categories.Call)
    (summary : gmap string nat) :
  Categories.categorize env store self categories assignments routes generator
    category_project_id log = (Ok summary, log') →
  ∃ total created assigned,
    summary = {[ "categories_total" := total; "categories_created" := created;
                 "assigned" := assigned ]}
    ∧ created ≤ total
    ∧ assigned ≤ length (default [] assignments).
Proof.
  unfold Categories.categorize. destruct routes as [routes|].
  - destruct (Categories.auto_categories store self routes generator log)
      as [[auto_res|e] log1] eqn:Hauto.
    + destruct (auto_categories_Ok_summary _ _ _ _ _ _ _ Hauto)
        as (total & created & Hsummary & Hle).
      erewrite (bind_Ok (Categories.categorize_routes _ _ _ _ _)).
      2:{ unfold Categories.categorize_routes.
          erewrite bind_Ok by exact Hauto. reflexivity. }
      rewrite Hsummary.
      destruct (categorize_tail_Ok env store self categories assignments
                  category_project_id total created log1 Hle)
        as (total' & created' & assigned & log2 & -> & Hle' & Ha).
      intros [= <- _]. by exists total', created', assigned.
    + erewrite (bind_Raise (Categories.categorize_routes _ _ _ _ _)); [done|].
      unfold Categories.categorize_routes. by apply bind_Raise.
  - erewrite (bind_Ok (Categories.categorize_routes _ _ None _ _)) by reflexivity.
    destruct (categorize_tail_Ok env store self categories assignments
                category_project_id 0 0 log ltac:(lia))
      as (total' & created' & assigned & log2 & -> & Hle' & Ha).
    intros [= <- _]. by exists total', created', assigned.
Qed.

(** Two categories and two assignments on a store that knows one file. *)
Lemma categorize_summary_counts_witness :
  ∃ total created assigned,
    ({[ "categories_total" := 2; "categories_created" := 1;
        "assigned" := 1 ]} : gmap string nat)
    = {[ "categories_total" := total; "categories_created" := created;
         "assigned" := assigned ]}
    ∧ created ≤ total
    ∧ assigned ≤ 2.
Proof.
  apply (categorize_summary_counts env_ab
           (Categories.mkStore (λ _ _, [row_of "a.ts"]) (λ _ _, []))
           (Categories.mkManager "p")
           (Some [ Categories.spec (Categories.mkCategorySpec "Docs" "" "/docs");
                   Categories.spec (Categories.mkCategorySpec "Docs" "" "") ])
           (Some [ Categories.assignment
                     (Categories.mkFileCategoryAssignment "Docs" (Some "a.ts")
                        None None None);
                   Categories.assignment
                     (Categories.mkFileCategoryAssignment "Docs" (Some "zz.ts")
                        None None None) ])
           None None None []
           [ Categories.index_categories [Categories.other] "p";
             Categories.index_categories
               [ Categories.mkCategorySpec "Docs" "" "/docs";
                 Categories.mkCategorySpec "Docs" "" "" ] "p";
             Categories.index_categories [Categories.other] "p";
             Categories.index_categories [Categories.other] "p";
             Categories.index_categories
               [ Categories.mkCategorySpec "Docs" "" "";
                 Categories.mkCategorySpec "Docs" "" "" ] "p";
             Categories.index_file_categories
               [Categories.mkNormalizedRow "m:a.ts" (Some "h:a.ts") "Docs" None]
               "p" "p" ]).
  vm_compute. reflexivity.
Defined.
